(** * Render-diff engine: a shallow embedding of
      infra-tools/internal/renderdiff (diff.go, engine.go)

    The development follows the two Go files.  Pure code (countStats,
    computeDiff, buildPair, NewEngine) is embedded as functions.  The
    errgroup-based worker pool of Run / RunProgressive is embedded as a
    scheduler-driven transition function over an explicit shared state
    (pending jobs, goroutines holding a semaphore slot, the result
    accumulator, the group's first error, the output channel, the log). *)

From Stdlib Require Import ZArith List Bool Lia Permutation.
From Stdlib Require Import Strings.Ascii Strings.String Strings.Byte.
From Stdlib Require DecimalString.
Import ListNotations.

Open Scope string_scope.
Open Scope Z_scope.
Close Scope list_scope.
Open Scope list_scope.

(* ================================================================== *)
(** ** Go base types *)
(* ================================================================== *)

(** Go's [int] on the 64-bit targets the tool is built for: a two's
    complement 64-bit integer whose arithmetic wraps around. *)
Definition int_min : Z := - 2 ^ 63.
Definition int_max : Z := 2 ^ 63 - 1.

Definition int_wrap (z : Z) : Z := (z + 2 ^ 63) mod 2 ^ 64 - 2 ^ 63.

Definition int_add (a b : Z) : Z := int_wrap (a + b).

(** A Go [[]byte]: [None] is the nil slice, [Some l] a non-nil slice
    (possibly of length zero).  The engine tests slices against nil, so the
    two must be kept apart. *)
Definition bytes : Type := option (list byte).

(** The conversion [string(b)]: a nil and an empty slice both give "". *)
Definition string_of_bytes (b : bytes) : string :=
  match b with
  | None => EmptyString
  | Some l => string_of_list_byte l
  end.

Definition nl_char : ascii := "010"%char.
Definition nl : string := String nl_char EmptyString.

(** Go [error] values.  [New] is an error without a cause (errors.New, or
    fmt.Errorf without the wrapping verb, or whatever a collaborator
    returns); [Wrap] is what fmt.Errorf builds with the wrapping verb: the
    formatted message and the wrapped cause. *)
Inductive error : Type :=
| New (msg : string)
| Wrap (msg : string) (cause : error).

Definition Error (e : error) : string :=
  match e with
  | New msg => msg
  | Wrap msg _ => msg
  end.

Definition Unwrap (e : error) : option error :=
  match e with
  | New _ => None
  | Wrap _ cause => Some cause
  end.

(** [strings.Split(s, sep)] for a one-byte separator: the pieces between
    the separators, in order; the empty string gives one empty piece. *)
Fixpoint strings_Split (s : string) (sep : ascii) : list string :=
  match s with
  | EmptyString => [EmptyString]
  | String c rest =>
      if Ascii.eqb c sep then EmptyString :: strings_Split rest sep
      else match strings_Split rest sep with
           | piece :: pieces => String c piece :: pieces
           | [] => [String c EmptyString]
           end
  end.

(** [strings.HasPrefix(s, p)]. *)
Definition strings_HasPrefix (s p : string) : bool := String.prefix p s.

(* ================================================================== *)
(** ** Collaborators outside the package *)
(* ================================================================== *)

Definition Environment : Type := string.

(** appset.ComponentPath: the two fields the package reads. *)
Record ComponentPath : Type := mkComponentPath {
  cp_Path : string;
  cp_ClusterDir : string
}.

(** difflib.UnifiedDiff, with the fields computeDiff sets (the others keep
    their zero value). *)
Record UnifiedDiff : Type := mkUnifiedDiff {
  A : list string;
  B : list string;
  FromFile : string;
  ToFile : string;
  Context : Z
}.

(** What the package takes from its environment: the go-difflib entry
    points used by computeDiff and [runtime.NumCPU], which is at least 1. *)
Class Platform : Type := mkPlatform {
  difflib_SplitLines : string -> list string;
  difflib_GetUnifiedDiffString : UnifiedDiff -> string * option error;
  runtime_NumCPU : positive
}.

(** The RepoBuilder interface.  Both operations are read-only queries on
    an immutable snapshot, hence functions of the relative path. *)
Record RepoBuilder : Type := mkRepoBuilder {
  DirExists : string -> bool;
  BuildKustomization : string -> bytes * option error
}.

(* ================================================================== *)
(** ** diff.go *)
(* ================================================================== *)

Record ComponentDiff : Type := mkComponentDiff {
  Path : string;
  ClusterDir : string;
  Env : Environment;
  BaseYAML : bytes;
  HeadYAML : bytes;
  Diff : string;
  Added : Z;
  Removed : Z
}.

Definition set_HeadYAML (cd : ComponentDiff) (y : bytes) : ComponentDiff :=
  mkComponentDiff (Path cd) (ClusterDir cd) (Env cd) (BaseYAML cd) y
                  (Diff cd) (Added cd) (Removed cd).

Definition set_BaseYAML (cd : ComponentDiff) (y : bytes) : ComponentDiff :=
  mkComponentDiff (Path cd) (ClusterDir cd) (Env cd) y (HeadYAML cd)
                  (Diff cd) (Added cd) (Removed cd).

Definition set_Diff (cd : ComponentDiff) (text : string) (added removed : Z)
  : ComponentDiff :=
  mkComponentDiff (Path cd) (ClusterDir cd) (Env cd) (BaseYAML cd) (HeadYAML cd)
                  text added removed.

(** One iteration of the loop of countStats. *)
Definition countStats_line (acc : Z * Z) (line : string) : Z * Z :=
  let '(added, removed) := acc in
  match line with
  | EmptyString => acc
  | String c _ =>
      if Ascii.eqb c "+"%char then
        if negb (strings_HasPrefix line "+++") then (int_add added 1, removed)
        else acc
      else if Ascii.eqb c "-"%char then
        if negb (strings_HasPrefix line "---") then (added, int_add removed 1)
        else acc
      else acc
  end.

Definition countStats (diff : string) : Z * Z :=
  fold_left countStats_line (strings_Split diff nl_char) (0, 0).

Section Diff.
Context {P : Platform}.

(** The method mutates its receiver: the result is the receiver after the
    call together with the returned error. *)
Definition computeDiff (cd : ComponentDiff) : ComponentDiff * option error :=
  let baseStr := string_of_bytes (BaseYAML cd) in
  let headStr := string_of_bytes (HeadYAML cd) in
  if String.eqb baseStr headStr then (cd, None)
  else
    let ud := {| A := difflib_SplitLines baseStr;
                 B := difflib_SplitLines headStr;
                 FromFile := (Path cd ++ " (base)")%string;
                 ToFile := (Path cd ++ " (head)")%string;
                 Context := 3 |} in
    match difflib_GetUnifiedDiffString ud with
    | (_, Some err) => (cd, Some err)
    | (text, None) =>
        let '(added, removed) := countStats text in
        (set_Diff cd text added removed, None)
    end.
End Diff.

Definition HasDiff (cd : ComponentDiff) : bool :=
  negb (String.eqb (Diff cd) EmptyString).

Definition FromComponentPath (cp : ComponentPath) (env : Environment)
  : ComponentDiff :=
  {| Path := cp_Path cp; ClusterDir := cp_ClusterDir cp; Env := env;
     BaseYAML := None; HeadYAML := None;
     Diff := EmptyString; Added := 0; Removed := 0 |}.

(* ================================================================== *)
(** ** engine.go: Engine, buildPair *)
(* ================================================================== *)

Record Engine : Type := mkEngine {
  head : RepoBuilder;
  base : RepoBuilder;
  concurrency : Z
}.

Section New.
Context {P : Platform}.

Definition NewEngine (head base : RepoBuilder) (concurrency : Z) : Engine :=
  let concurrency :=
    if concurrency <=? 0 then Z.pos runtime_NumCPU else concurrency in
  {| head := head; base := base; concurrency := concurrency |}.
End New.

Record DiffResult : Type := mkDiffResult {
  Diffs : list ComponentDiff;
  TotalAdded : Z;
  TotalRemoved : Z
}.

(** The zero value [DiffResult{}]. *)
Definition empty_DiffResult : DiffResult :=
  {| Diffs := []; TotalAdded := 0; TotalRemoved := 0 |}.

(** A method on a [*ComponentDiff] that may fail: the receiver after the
    call, and the error.  [and_then] is the Go idiom
    "if err != nil { return err }" between two such calls. *)
Definition call : Type := (ComponentDiff * option error)%type.

Definition and_then (m : call) (k : ComponentDiff -> call) : call :=
  match m with
  | (cd, None) => k cd
  | (cd, Some err) => (cd, Some err)
  end.

Notation "m >>= k" := (and_then m k) (at level 50, left associativity).

(** One of the two "Build HEAD" / "Build base" blocks of buildPair: the
    slice is assigned before the error is inspected. *)
Definition build_side (b : RepoBuilder) (refname : string)
           (store : ComponentDiff -> bytes -> ComponentDiff)
           (cd : ComponentDiff) : call :=
  if DirExists b (Path cd) then
    let '(yaml, err) := BuildKustomization b (Path cd) in
    let cd := store cd yaml in
    match err with
    | Some cause =>
        (cd, Some (Wrap ("building " ++ Path cd ++ " on " ++ refname ++ ": "
                           ++ Error cause)%string cause))
    | None => (cd, None)
    end
  else (cd, None).

Definition is_nil (b : bytes) : bool :=
  match b with None => true | Some _ => false end.

Definition buildPair (e : Engine) (cd : ComponentDiff) : call :=
  build_side (head e) "HEAD" set_HeadYAML cd >>= fun cd =>
  build_side (base e) "base" set_BaseYAML cd >>= fun cd =>
  if is_nil (HeadYAML cd) && is_nil (BaseYAML cd) then
    (cd, Some (New ("component " ++ Path cd
                      ++ " does not exist on either ref")%string))
  else (cd, None).

(* ================================================================== *)
(** ** engine.go: the worker pool of Run and RunProgressive *)
(* ================================================================== *)

Record job : Type := mkJob {
  cp : ComponentPath;
  env : Environment
}.

(** The affected map is given as the sequence of its entries in the order
    the range loop visits them; Go leaves that order unspecified, and
    nothing below depends on it. *)
Definition affected_map : Type := list (Environment * list ComponentPath).

Definition collect_jobs (affected : affected_map) : list job :=
  flat_map (fun entry => map (fun c => mkJob c (fst entry)) (snd entry))
           affected.

(** A record written by slog.Warn in the job closure. *)
Record LogRecord : Type := mkLogRecord {
  log_msg : string;
  log_path : string;
  log_env : Environment;
  log_err : error
}.

Definition warn_skipping (j : job) (err : error) : LogRecord :=
  {| log_msg := "skipping component due to build error";
     log_path := cp_Path (cp j); log_env := env j; log_err := err |}.

(** Run or RunProgressive. *)
Inductive variant : Type := Batch | Progressive.

(** Where a goroutine started by g.Go stands in the job closure. *)
Inductive pc : Type :=
| AtBuild                         (* about to call buildPair *)
| AtDiff (cd : ComponentDiff)     (* built; about to call computeDiff *)
| AtSend (cd : ComponentDiff)     (* RunProgressive: about to send on out *)
| AtAppend (cd : ComponentDiff)   (* about to take mu and append *)
| AtReturn (r : option error).    (* closure returns r to the group *)

(** What has happened on the output channel. *)
Inductive chan_event : Type :=
| Sent (cd : ComponentDiff)
| Closed.

(** The state shared by the goroutines of one run.  Each goroutine works
    on the job of its own loop iteration.  The group is a zero
    errgroup.Group: it has no context, so a failing job interrupts no other
    job, and Wait returns the first error once all have returned.  A send
    on out is recorded when it happens; the consumer is taken to drain the
    channel, so no send is refused for ever. *)
Record pool : Type := mkPool {
  pending : list job;           (* not yet handed to g.Go, in loop order *)
  active : list (job * pc);     (* goroutines holding a semaphore slot *)
  finished : list job;          (* goroutines that have returned *)
  acc : DiffResult;             (* results / result, guarded by mu *)
  g_err : option error;         (* the group's first error (errOnce) *)
  out : list chan_event;        (* history of the out channel *)
  log : list LogRecord
}.

Definition init_pool (jobs : list job) : pool :=
  {| pending := jobs; active := []; finished := [];
     acc := empty_DiffResult; g_err := None; out := []; log := [] |}.

(** errgroup's semaphore after SetLimit(limit): a negative limit means no
    limit, and g.Go blocks while [n] goroutines already hold [limit] slots. *)
Definition slot_free (limit : Z) (n : nat) : bool :=
  (limit <? 0) || (Z.of_nat n <? limit).

(** One move of the scheduler: the loop in Run gets a slot and starts the
    next job, or the i-th running goroutine performs its next action. *)
Inductive move : Type :=
| Launch
| Advance (i : nat).

Definition set_active (s : pool) (a : list (job * pc)) : pool :=
  mkPool (pending s) a (finished s) (acc s) (g_err s) (out s) (log s).

Definition replace_nth {X : Type} (i : nat) (x : X) (l : list X) : list X :=
  firstn i l ++ x :: skipn (S i) l.

Definition remove_nth {X : Type} (i : nat) (l : list X) : list X :=
  firstn i l ++ skipn (S i) l.

(** The append under the mutex.  Run appends to its results slice only;
    RunProgressive also updates the two counters. *)
Definition append_result (v : variant) (r : DiffResult) (cd : ComponentDiff)
  : DiffResult :=
  match v with
  | Batch =>
      {| Diffs := Diffs r ++ [cd];
         TotalAdded := TotalAdded r; TotalRemoved := TotalRemoved r |}
  | Progressive =>
      {| Diffs := Diffs r ++ [cd];
         TotalAdded := int_add (TotalAdded r) (Added cd);
         TotalRemoved := int_add (TotalRemoved r) (Removed cd) |}
  end.

Definition diff_error (j : job) (cause : error) : error :=
  Wrap ("computing diff for " ++ cp_Path (cp j) ++ " (" ++ env j ++ "): "
          ++ Error cause)%string cause.

Section Pool.
Context {P : Platform}.
Variable v : variant.
Variable e : Engine.

(** The next action of goroutine number [i], running job [j] at [p]. *)
Definition advance (s : pool) (i : nat) (j : job) (p : pc) : pool :=
  match p with
  | AtBuild =>
      match buildPair e (FromComponentPath (cp j) (env j)) with
      | (_, Some err) =>
          mkPool (pending s) (replace_nth i (j, AtReturn None) (active s))
                 (finished s) (acc s) (g_err s) (out s)
                 (log s ++ [warn_skipping j err])
      | (cd, None) => set_active s (replace_nth i (j, AtDiff cd) (active s))
      end
  | AtDiff cd =>
      match computeDiff cd with
      | (_, Some err) =>
          set_active s
            (replace_nth i (j, AtReturn (Some (diff_error j err))) (active s))
      | (cd, None) =>
          if HasDiff cd then
            match v with
            | Progressive =>
                set_active s (replace_nth i (j, AtSend cd) (active s))
            | Batch =>
                set_active s (replace_nth i (j, AtAppend cd) (active s))
            end
          else set_active s (replace_nth i (j, AtReturn None) (active s))
      end
  | AtSend cd =>
      mkPool (pending s) (replace_nth i (j, AtAppend cd) (active s))
             (finished s) (acc s) (g_err s) (out s ++ [Sent cd]) (log s)
  | AtAppend cd =>
      mkPool (pending s) (replace_nth i (j, AtReturn None) (active s))
             (finished s) (append_result v (acc s) cd) (g_err s) (out s)
             (log s)
  | AtReturn r =>
      mkPool (pending s) (remove_nth i (active s)) (finished s ++ [j])
             (acc s)
             (match g_err s with Some first => Some first | None => r end)
             (out s) (log s)
  end.

Definition step (m : move) (s : pool) : option pool :=
  match m with
  | Launch =>
      match pending s with
      | j :: rest =>
          if slot_free (concurrency e) (List.length (active s)) then
            Some (mkPool rest (active s ++ [(j, AtBuild)]) (finished s)
                         (acc s) (g_err s) (out s) (log s))
          else None
      | [] => None
      end
  | Advance i =>
      match nth_error (active s) i with
      | Some (j, p) => Some (advance s i j p)
      | None => None
      end
  end.

Fixpoint exec (sched : list move) (s : pool) : option pool :=
  match sched with
  | [] => Some s
  | m :: sched' =>
      match step m s with
      | Some s' => exec sched' s'
      | None => None
      end
  end.

(** g.Wait returns once no job is left to start and none is running. *)
Definition all_done (s : pool) : bool :=
  match pending s, active s with
  | [], [] => true
  | _, _ => false
  end.
End Pool.

Definition Zsum (l : list Z) : Z := fold_right Z.add 0 l.

(** The loop after g.Wait in Run: totals accumulated left to right. *)
Definition sum_totals (results : list ComponentDiff) : DiffResult :=
  fold_left (fun dr d =>
               {| Diffs := Diffs dr;
                  TotalAdded := int_add (TotalAdded dr) (Added d);
                  TotalRemoved := int_add (TotalRemoved dr) (Removed d) |})
            results
            {| Diffs := results; TotalAdded := 0; TotalRemoved := 0 |}.

Definition outcome_of_run : Type := (option DiffResult * option error)%type.

(** What a call of Run or RunProgressive does that can be observed: the
    values it returns, what happened on the out channel, and the records
    it wrote to the log. *)
Record behaviour : Type := mkBehaviour {
  returned : outcome_of_run;
  channel : list chan_event;
  logged : list LogRecord
}.

Section Run.
Context {P : Platform}.
Variable e : Engine.

(** [Run e affected sched]: what Run does when the goroutines are
    interleaved as [sched] says; [None] when [sched] is not a complete
    interleaving of this run (a move that is not enabled, or jobs left
    when it ends). *)
Definition Run (affected : affected_map) (sched : list move)
  : option behaviour :=
  let jobs := collect_jobs affected in
  match jobs with
  | [] => match sched with
          | [] => Some (mkBehaviour (Some empty_DiffResult, None) [] [])
          | _ :: _ => None
          end
  | _ :: _ =>
      match exec Batch e sched (init_pool jobs) with
      | Some s =>
          if all_done s then
            match g_err s with
            | Some err => Some (mkBehaviour (None, Some err) (out s) (log s))
            | None =>
                Some (mkBehaviour (Some (sum_totals (Diffs (acc s))), None)
                                  (out s) (log s))
            end
          else None
      | None => None
      end
  end.

(** RunProgressive: the deferred close is the last thing that happens on
    the channel, on every return path. *)
Definition RunProgressive (affected : affected_map) (sched : list move)
  : option behaviour :=
  let jobs := collect_jobs affected in
  match jobs with
  | [] => match sched with
          | [] => Some (mkBehaviour (Some empty_DiffResult, None) [Closed] [])
          | _ :: _ => None
          end
  | _ :: _ =>
      match exec Progressive e sched (init_pool jobs) with
      | Some s =>
          if all_done s then
            match g_err s with
            | Some err =>
                Some (mkBehaviour (None, Some err) (out s ++ [Closed]) (log s))
            | None =>
                Some (mkBehaviour (Some (acc s), None) (out s ++ [Closed])
                                  (log s))
            end
          else None
      | None => None
      end
  end.
End Run.

(* ================================================================== *)
(** ** Line counts *)
(* ================================================================== *)

(** How countStats tells the lines it counts: by their prefix. *)
Definition is_added_line (line : string) : bool :=
  String.prefix "+" line && negb (String.prefix "+++" line).

Definition is_removed_line (line : string) : bool :=
  String.prefix "-" line && negb (String.prefix "---" line).

Definition lines_of (text : string) : list string := strings_Split text nl_char.

Definition count_added (text : string) : nat :=
  List.length (filter is_added_line (lines_of text)).

Definition count_removed (text : string) : nat :=
  List.length (filter is_removed_line (lines_of text)).

(** How the specification words the counts: the lines that start with the
    insertion (deletion) marker and are not the file-header line.  A diff
    text made by computeDiff names both files, so its file header is its
    first two lines, and the lines of the hunks come below. *)
Definition hunk_lines (text : string) : list string :=
  skipn 2 (lines_of text).

Definition added_lines (text : string) : nat :=
  List.length (filter (String.prefix "+") (hunk_lines text)).

Definition removed_lines (text : string) : nat :=
  List.length (filter (String.prefix "-") (hunk_lines text)).

(* ================================================================== *)
(** ** What one job does, read off the job closure *)
(* ================================================================== *)

(** The four ways the closure passed to g.Go can end. *)
Inductive outcome : Type :=
| BuildFailed (err : error)       (* buildPair failed: warn, return nil *)
| DiffFailed (err : error)        (* computeDiff failed: return the error *)
| Unchanged                       (* HasDiff is false: return nil *)
| Differs (cd : ComponentDiff).   (* HasDiff is true: publish cd *)

Section Outcome.
Context {P : Platform}.
Variable e : Engine.

Definition job_outcome (j : job) : outcome :=
  match buildPair e (FromComponentPath (cp j) (env j)) with
  | (_, Some err) => BuildFailed err
  | (cd, None) =>
      match computeDiff cd with
      | (_, Some err) => DiffFailed err
      | (cd, None) => if HasDiff cd then Differs cd else Unchanged
      end
  end.

Definition emitted (j : job) : list ComponentDiff :=
  match job_outcome j with Differs cd => [cd] | _ => [] end.

Definition fatal (j : job) : option error :=
  match job_outcome j with
  | DiffFailed err => Some (diff_error j err)
  | _ => None
  end.

Definition warned (j : job) : list LogRecord :=
  match job_outcome j with
  | BuildFailed err => [warn_skipping j err]
  | _ => []
  end.

(** The diffs a run is expected to publish, in job order. *)
Definition expected_diffs (jobs : list job) : list ComponentDiff :=
  flat_map emitted jobs.
End Outcome.

(** What a goroutine standing at [p] has already appended, sent, logged. *)
Definition has_appended (p : pc) : bool :=
  match p with AtReturn _ => true | _ => false end.

Definition has_sent (v : variant) (p : pc) : bool :=
  match v, p with
  | Progressive, (AtAppend _ | AtReturn _) => true
  | _, _ => false
  end.

Definition has_built (p : pc) : bool :=
  match p with AtBuild => false | _ => true end.

(** Actions a goroutine at [p] still has to perform, at most. *)
Definition pc_weight (p : pc) : nat :=
  match p with
  | AtBuild => 5
  | AtDiff _ => 4
  | AtSend _ => 3
  | AtAppend _ => 2
  | AtReturn _ => 1
  end.

Definition active_weight (a : list (job * pc)) : nat :=
  fold_right (fun x n => (pc_weight (snd x) + n)%nat) O a.

Definition pool_weight (s : pool) : nat :=
  (6 * List.length (pending s) + active_weight (active s))%nat.

(** Goroutines that are inside buildPair. *)
Definition building (s : pool) : nat :=
  List.length (filter (fun a => negb (has_built (snd a))) (active s)).

(** The schedule that runs each goroutine to its end before the next job
    is started. *)
Definition next_move (s : pool) : option move :=
  match active s, pending s with
  | _ :: _, _ => Some (Advance 0)
  | [], _ :: _ => Some Launch
  | [], [] => None
  end.

Section Fifo.
Context {P : Platform}.
Variable v : variant.
Variable e : Engine.

Fixpoint fifo_from (fuel : nat) (s : pool) : list move :=
  match fuel with
  | O => []
  | S fuel' =>
      match next_move s with
      | Some m =>
          match step v e m s with
          | Some s' => m :: fifo_from fuel' s'
          | None => []
          end
      | None => []
      end
  end.

Definition fifo (affected : affected_map) : list move :=
  let jobs := collect_jobs affected in
  fifo_from (6 * List.length jobs) (init_pool jobs).
End Fifo.

Definition sent_values (evs : list chan_event) : list ComponentDiff :=
  flat_map (fun ev => match ev with Sent cd => [cd] | Closed => [] end) evs.

Definition closes (evs : list chan_event) : nat :=
  List.length (filter (fun ev => match ev with Closed => true | Sent _ => false end)
                      evs).

(** A ComponentDiff is identified by path and environment. *)
Definition key (cd : ComponentDiff) : string * Environment := (Path cd, Env cd).
Definition job_key (j : job) : string * Environment := (cp_Path (cp j), env j).


(* ================================================================== *)
(** ** The moves of the pool as a relation, and its invariant *)
(* ================================================================== *)

Section Trans.
Context {P : Platform}.
Variable v : variant.
Variable e : Engine.

(** [trans s s']: one enabled move takes [s] to [s'].  The goroutine that
    moves is shown with the goroutines before and after it. *)
Inductive trans : pool -> pool -> Prop :=
| t_launch j rest a f r g o l :
    slot_free (concurrency e) (List.length a) = true ->
    trans (mkPool (j :: rest) a f r g o l)
          (mkPool rest (a ++ [(j, AtBuild)]) f r g o l)
| t_build_failed pend a1 j a2 f r g o l cd err :
    buildPair e (FromComponentPath (cp j) (env j)) = (cd, Some err) ->
    trans (mkPool pend (a1 ++ (j, AtBuild) :: a2) f r g o l)
          (mkPool pend (a1 ++ (j, AtReturn None) :: a2) f r g o
                  (l ++ [warn_skipping j err]))
| t_built pend a1 j a2 f r g o l cd :
    buildPair e (FromComponentPath (cp j) (env j)) = (cd, None) ->
    trans (mkPool pend (a1 ++ (j, AtBuild) :: a2) f r g o l)
          (mkPool pend (a1 ++ (j, AtDiff cd) :: a2) f r g o l)
| t_diff_failed pend a1 j a2 f r g o l cd cd' err :
    computeDiff cd = (cd', Some err) ->
    trans (mkPool pend (a1 ++ (j, AtDiff cd) :: a2) f r g o l)
          (mkPool pend
                  (a1 ++ (j, AtReturn (Some (diff_error j err))) :: a2)
                  f r g o l)
| t_diff_empty pend a1 j a2 f r g o l cd cd' :
    computeDiff cd = (cd', None) -> HasDiff cd' = false ->
    trans (mkPool pend (a1 ++ (j, AtDiff cd) :: a2) f r g o l)
          (mkPool pend (a1 ++ (j, AtReturn None) :: a2) f r g o l)
| t_diff_found pend a1 j a2 f r g o l cd cd' :
    computeDiff cd = (cd', None) -> HasDiff cd' = true ->
    trans (mkPool pend (a1 ++ (j, AtDiff cd) :: a2) f r g o l)
          (mkPool pend
                  (a1 ++ (j, match v with
                             | Progressive => AtSend cd'
                             | Batch => AtAppend cd'
                             end) :: a2)
                  f r g o l)
| t_send pend a1 j a2 f r g o l cd :
    trans (mkPool pend (a1 ++ (j, AtSend cd) :: a2) f r g o l)
          (mkPool pend (a1 ++ (j, AtAppend cd) :: a2) f r g
                  (o ++ [Sent cd]) l)
| t_append pend a1 j a2 f r g o l cd :
    trans (mkPool pend (a1 ++ (j, AtAppend cd) :: a2) f r g o l)
          (mkPool pend (a1 ++ (j, AtReturn None) :: a2) f
                  (append_result v r cd) g o l)
| t_return pend a1 j a2 f r g o l ret :
    trans (mkPool pend (a1 ++ (j, AtReturn ret) :: a2) f r g o l)
          (mkPool pend (a1 ++ a2) (f ++ [j]) r
                  (match g with Some first => Some first | None => ret end)
                  o l).

(** What the program counter of a goroutine says about its job. *)
Definition pc_ok (a : job * pc) : Prop :=
  match snd a with
  | AtBuild => True
  | AtDiff cd =>
      buildPair e (FromComponentPath (cp (fst a)) (env (fst a))) = (cd, None)
  | AtSend cd => v = Progressive /\ job_outcome e (fst a) = Differs cd
  | AtAppend cd => job_outcome e (fst a) = Differs cd
  | AtReturn r => r = fatal e (fst a)
  end.

Definition appended_by (a : job * pc) : list ComponentDiff :=
  if has_appended (snd a) then emitted e (fst a) else [].

Definition sent_by (a : job * pc) : list ComponentDiff :=
  if has_sent v (snd a) then emitted e (fst a) else [].

Definition logged_by (a : job * pc) : list LogRecord :=
  if has_built (snd a) then warned e (fst a) else [].

Definition sent_so_far (s : pool) : list ComponentDiff :=
  match v with
  | Progressive =>
      flat_map (emitted e) (finished s) ++ flat_map sent_by (active s)
  | Batch => []
  end.

Definition totals_ok (r : DiffResult) : Prop :=
  match v with
  | Progressive =>
      TotalAdded r = int_wrap (Zsum (map Added (Diffs r))) /\
      TotalRemoved r = int_wrap (Zsum (map Removed (Diffs r)))
  | Batch => TotalAdded r = 0 /\ TotalRemoved r = 0
  end.

(** The invariant of a run over [jobs]. *)
Record Inv (jobs : list job) (s : pool) : Prop := mkInv {
  inv_jobs :
    Permutation jobs (finished s ++ map fst (active s) ++ pending s);
  inv_pc : Forall pc_ok (active s);
  inv_diffs :
    Permutation (Diffs (acc s))
                (flat_map (emitted e) (finished s)
                 ++ flat_map appended_by (active s));
  inv_totals : totals_ok (acc s);
  inv_sent : Permutation (sent_values (out s)) (sent_so_far s);
  inv_open : closes (out s) = O;
  inv_err :
    match g_err s with
    | Some err => exists j, In j (finished s) /\ fatal e j = Some err
    | None => forall j, In j (finished s) -> fatal e j = None
    end;
  inv_log :
    Permutation (log s)
                (flat_map (warned e) (finished s)
                 ++ flat_map logged_by (active s));
  inv_limit :
    0 <= concurrency e -> Z.of_nat (List.length (active s)) <= concurrency e
}.
End Trans.

(** The same component under another cluster directory and environment. *)
Definition retag (cd : ComponentDiff) (cl : string) (en : Environment)
  : ComponentDiff :=
  mkComponentDiff (Path cd) cl en (BaseYAML cd) (HeadYAML cd)
                  (Diff cd) (Added cd) (Removed cd).

(** Run or RunProgressive, by variant. *)
Definition run_of {P : Platform} (v : variant) (e : Engine)
  : affected_map -> list move -> option behaviour :=
  match v with
  | Batch => Run e
  | Progressive => RunProgressive e
  end.

(** A component is listed by a run when the returned DiffResult has an
    entry with its path and environment. *)
Definition listed (j : job) (b : behaviour) : Prop :=
  exists dr cd,
    fst (returned b) = Some dr /\ In cd (Diffs dr) /\ key cd = job_key j.

(** Jobs whose component differs or could not be built. *)
Definition differs_or_build_failed {P : Platform} (e : Engine) (j : job)
  : bool :=
  match job_outcome e j with
  | Differs _ | BuildFailed _ => true
  | DiffFailed _ | Unchanged => false
  end.

(** The error buildPair returns for a component found on neither ref. *)
Definition on_neither_ref (path : string) : error :=
  New ("component " ++ path ++ " does not exist on either ref")%string.

(** A component that is on one ref only. *)
Inductive side : Type := OnlyHead | OnlyBase.

Definition present (e : Engine) (sd : side) : RepoBuilder :=
  match sd with OnlyHead => head e | OnlyBase => base e end.

Definition missing (e : Engine) (sd : side) : RepoBuilder :=
  match sd with OnlyHead => base e | OnlyBase => head e end.

(** The YAML of a one-sided component as bytes of base and of HEAD. *)
Definition base_of (sd : side) (yaml : bytes) : bytes :=
  match sd with OnlyHead => None | OnlyBase => yaml end.

Definition head_of (sd : side) (yaml : bytes) : bytes :=
  match sd with OnlyHead => yaml | OnlyBase => None end.

(** The request computeDiff hands to the diff library. *)
Definition diff_request {P : Platform} (path : string) (old new : bytes)
  : UnifiedDiff :=
  {| A := difflib_SplitLines (string_of_bytes old);
     B := difflib_SplitLines (string_of_bytes new);
     FromFile := (path ++ " (base)")%string;
     ToFile := (path ++ " (head)")%string;
     Context := 3 |}.

(** The length of the diff text of a component, as an integer. *)
Definition diff_length (cd : ComponentDiff) : Z :=
  Z.of_nat (String.length (Diff cd)).

(** The ComponentDiff buildPair leaves for a job found on one side only. *)
Definition one_sided (j : job) (sd : side) (yaml : bytes) : ComponentDiff :=
  set_BaseYAML (set_HeadYAML (FromComponentPath (cp j) (env j))
                             (head_of sd yaml))
               (base_of sd yaml).
(* ================================================================== *)
(** ** Test doubles *)
(* ================================================================== *)

Module Double.

(** strings.SplitAfter(s, "\n"). *)
Fixpoint split_after_nl (s : string) : list string :=
  match s with
  | EmptyString => [EmptyString]
  | String c rest =>
      if Ascii.eqb c nl_char then String c EmptyString :: split_after_nl rest
      else match split_after_nl rest with
           | piece :: pieces => String c piece :: pieces
           | [] => [String c EmptyString]
           end
  end.

(** SplitLines as go-difflib has it: split after each newline, then a
    newline is appended to the last piece. *)
Definition SplitLines (s : string) : list string :=
  let lines := split_after_nl s in
  removelast lines ++ [(last lines EmptyString ++ nl)%string].

Fixpoint common_prefix (a b : list string) : nat :=
  match a, b with
  | x :: a', y :: b' =>
      if String.eqb x y then S (common_prefix a' b') else O
  | _, _ => O
  end.

Definition decimal (n : nat) : string :=
  DecimalString.NilEmpty.string_of_uint (Nat.to_uint n).

Definition format_range (start stop : nat) : string :=
  let len := (stop - start)%nat in
  if Nat.eqb len 1 then decimal (start + 1)
  else if Nat.eqb len 0 then (decimal start ++ "," ++ decimal len)%string
  else (decimal (start + 1) ++ "," ++ decimal len)%string.

Definition prefixed (mark : string) (lines : list string) : string :=
  String.concat EmptyString (map (fun l => (mark ++ l)%string) lines).

(** A line differ: the common first and last lines are set aside, and
    what is left is printed as one hunk with the requested context.  For
    inputs that differ in one run of lines this is the text go-difflib
    prints. *)
Definition GetUnifiedDiffString (ud : UnifiedDiff) : string * option error :=
  let a := A ud in
  let b := B ud in
  let ctx := Z.to_nat (Context ud) in
  let p := common_prefix a b in
  let s := common_prefix (rev (skipn p a)) (rev (skipn p b)) in
  let na := List.length a in
  let nb := List.length b in
  if Nat.eqb p na && Nat.eqb p nb then (EmptyString, None)
  else
    let lo := (p - ctx)%nat in
    let hi_a := Nat.min na (na - s + ctx) in
    let hi_b := Nat.min nb (nb - s + ctx) in
    ((("--- " ++ FromFile ud ++ nl)
      ++ ("+++ " ++ ToFile ud ++ nl)
      ++ ("@@ -" ++ format_range lo hi_a ++ " +" ++ format_range lo hi_b
                 ++ " @@" ++ nl)
      ++ prefixed " " (firstn (p - lo) (skipn lo a))
      ++ prefixed "-" (firstn (na - s - p) (skipn p a))
      ++ prefixed "+" (firstn (nb - s - p) (skipn p b))
      ++ prefixed " " (firstn (hi_a - (na - s)) (skipn (na - s) a)))%string,
     None).

Definition platform : Platform :=
  {| difflib_SplitLines := SplitLines;
     difflib_GetUnifiedDiffString := GetUnifiedDiffString;
     runtime_NumCPU := 4%positive |}.

(** A platform whose differ always fails. *)
Definition broken_platform : Platform :=
  {| difflib_SplitLines := SplitLines;
     difflib_GetUnifiedDiffString :=
       fun _ => (EmptyString, Some (New "short write"));
     runtime_NumCPU := 4%positive |}.

(** An in-memory RepoBuilder keyed by relative path. *)
Definition snapshot : Type := list (string * (bytes * option error)).

Fixpoint lookup (files : snapshot) (rel : string)
  : option (bytes * option error) :=
  match files with
  | [] => None
  | (k, x) :: files' => if String.eqb k rel then Some x else lookup files' rel
  end.

Definition repo (files : snapshot) : RepoBuilder :=
  {| DirExists := fun rel =>
       match lookup files rel with Some _ => true | None => false end;
     BuildKustomization := fun rel =>
       match lookup files rel with
       | Some x => x
       | None => (None, Some (New "no such directory"))
       end |}.

Definition yaml (s : string) : bytes := Some (list_byte_of_string s).

Definition head_files : snapshot :=
  [ ("components/foo", (yaml ("a: 1" ++ nl), None));
    ("components/bar", (yaml ("x: y" ++ nl), None));
    ("components/same", (yaml ("k: v" ++ nl), None));
    ("components/blank", (Some [], None));
    ("components/broken", (None, Some (New "kustomize: no such file"))) ]%string.

Definition base_files : snapshot :=
  [ ("components/foo", (yaml ("a: 2" ++ nl), None));
    ("components/same", (yaml ("k: v" ++ nl), None));
    ("components/gone", (yaml ("old: 1" ++ nl), None));
    ("components/broken", (yaml ("b: 1" ++ nl), None)) ]%string.

Definition engine (limit : Z) : Engine :=
  @NewEngine platform (repo head_files) (repo base_files) limit.

Definition comp (path : string) : ComponentPath :=
  {| cp_Path := path; cp_ClusterDir := EmptyString |}.

Definition staging (paths : list string) : affected_map :=
  [("staging", map comp paths)].

Definition bar_diff : string :=
  (("--- components/bar (base)" ++ nl)
   ++ ("+++ components/bar (head)" ++ nl)
   ++ ("@@ -1 +1,2 @@" ++ nl)
   ++ ("+x: y" ++ nl)
   ++ (" " ++ nl))%string.

Definition gone_diff : string :=
  (("--- components/gone (base)" ++ nl)
   ++ ("+++ components/gone (head)" ++ nl)
   ++ ("@@ -1,2 +1 @@" ++ nl)
   ++ ("-old: 1" ++ nl)
   ++ (" " ++ nl))%string.

(** A manifest of two documents at base, of which HEAD keeps the first. *)
Definition docs_base : string :=
  ("a: 1" ++ nl ++ "---" ++ nl ++ "b: 2" ++ nl)%string.

Definition docs_head : string := ("a: 1" ++ nl)%string.

Definition docs_diff : string :=
  (("--- components/docs (base)" ++ nl)
   ++ ("+++ components/docs (head)" ++ nl)
   ++ ("@@ -1,4 +1,2 @@" ++ nl)
   ++ (" a: 1" ++ nl)
   ++ ("----" ++ nl)
   ++ ("-b: 2" ++ nl)
   ++ (" " ++ nl))%string.

(** The same change the other way round: HEAD gains the second document. *)
Definition docs_gained_diff : string :=
  (("--- components/docs (base)" ++ nl)
   ++ ("+++ components/docs (head)" ++ nl)
   ++ ("@@ -1,2 +1,4 @@" ++ nl)
   ++ (" a: 1" ++ nl)
   ++ ("+---" ++ nl)
   ++ ("+b: 2" ++ nl)
   ++ (" " ++ nl))%string.

Definition docs_component : ComponentDiff :=
  {| Path := "components/docs"; ClusterDir := EmptyString;
     Env := "staging";
     BaseYAML := yaml docs_base; HeadYAML := yaml docs_head;
     Diff := EmptyString; Added := 0; Removed := 0 |}.

Definition foo_diff : string :=
  (("--- components/foo (base)" ++ nl)
   ++ ("+++ components/foo (head)" ++ nl)
   ++ ("@@ -1,2 +1,2 @@" ++ nl)
   ++ ("-a: 2" ++ nl)
   ++ ("+a: 1" ++ nl)
   ++ (" " ++ nl))%string.

End Double.


(** Scenarios run on the test doubles. *)
Module Scenario.
Import Double.

Definition force (r : option behaviour) : behaviour :=
  match r with
  | Some b => b
  | None => mkBehaviour (None, None) [] []
  end.

Definition job_of (path : string) : job := mkJob (comp path) "staging".

(** One component of every kind. *)
Definition mixed : affected_map :=
  staging ["components/foo"; "components/bar"; "components/same";
           "components/blank"; "components/broken"; "components/ghost";
           "components/gone"].

Definition mixed_fifo : list move := @fifo platform Batch (engine 2) mixed.

Definition mixed_run : behaviour :=
  Eval vm_compute in force (@Run platform (engine 2) mixed mixed_fifo).

(** Two goroutines at a time, interleaved. *)
Definition pair : affected_map :=
  staging ["components/foo"; "components/gone"].

Definition pair_sched : list move :=
  [Launch; Launch; Advance 1; Advance 0; Advance 1; Advance 0; Advance 0;
   Advance 1; Advance 1; Advance 1; Advance 0; Advance 0].

Definition pair_run : behaviour :=
  Eval vm_compute in
    force (@RunProgressive platform (engine 2) pair pair_sched).

(** A component whose build fails at HEAD. *)
Definition broken : affected_map := staging ["components/broken"].

Definition broken_run : behaviour :=
  Eval vm_compute in
    force (@Run platform (engine 2) broken
                (@fifo platform Batch (engine 2) broken)).

Definition broken_error : error :=
  Wrap "building components/broken on HEAD: kustomize: no such file"
       (New "kustomize: no such file").

(** A component that is on neither ref. *)
Definition ghost : affected_map := staging ["components/ghost"].

Definition ghost_run : behaviour :=
  Eval vm_compute in
    force (@RunProgressive platform (engine 2) ghost
                           (@fifo platform Progressive (engine 2) ghost)).

(** A component new at HEAD whose build gives a non-nil slice of length
    zero. *)
Definition blank : affected_map := staging ["components/blank"].

Definition blank_run : behaviour :=
  Eval vm_compute in
    force (@Run platform (engine 2) blank
                (@fifo platform Batch (engine 2) blank)).

(** A changed component and one on neither ref. *)
Definition foo_ghost : affected_map :=
  staging ["components/foo"; "components/ghost"].

Definition foo_ghost_run : behaviour :=
  Eval vm_compute in
    force (@Run platform (engine 2) foo_ghost
                (@fifo platform Batch (engine 2) foo_ghost)).

(** The differ fails. *)
Definition broken_engine : Engine :=
  @NewEngine broken_platform (repo head_files) (repo base_files) 0.

Definition foo_only : affected_map := staging ["components/foo"].

Definition failed_run : behaviour :=
  Eval vm_compute in
    force (@Run broken_platform broken_engine foo_only
                (@fifo broken_platform Batch broken_engine foo_only)).

(** The pool of the mixed run after two jobs were started and the second
    has built: both slots are taken. *)
Definition two_started : list move := [Launch; Launch; Advance 1].

Definition two_started_pool : pool :=
  Eval vm_compute in
    match @exec platform Batch (engine 2) two_started
                (init_pool (collect_jobs mixed)) with
    | Some s => s
    | None => init_pool []
    end.

(** A component new at HEAD. *)
Definition bar : affected_map := staging ["components/bar"].

Definition bar_run : behaviour :=
  Eval vm_compute in
    force (@Run platform (engine 2) bar
                (@fifo platform Batch (engine 2) bar)).
End Scenario.

(* ================================================================== *)
(** ** More of the engine: what the proofs below speak about *)
(* ================================================================== *)

(** The error an errgroup keeps: that of the first goroutine, in the order
    in which they return, whose closure returned one. *)
Fixpoint first_fatal {P : Platform} (e : Engine) (returned_jobs : list job)
  : option error :=
  match returned_jobs with
  | [] => None
  | j :: rest =>
      match fatal e j with
      | Some err => Some err
      | None => first_fatal e rest
      end
  end.

(** What one side of buildPair gets from a snapshot: the build of the
    directory when it is there, nothing otherwise. *)
Definition built_on (b : RepoBuilder) (path : string) : bytes * option error :=
  if DirExists b path then BuildKustomization b path else (None, None).

Definition build_failed_job {P : Platform} (e : Engine) (j : job) : bool :=
  match job_outcome e j with
  | BuildFailed _ => true
  | _ => false
  end.

(** A run in which the goroutines hold the order of the job list: what has
    been appended, sent and logged is what the jobs give, in job order. *)
Record InOrder {P : Platform} (v : variant) (e : Engine) (jobs : list job)
       (s : pool) : Prop := mkInOrder {
  ord_jobs : jobs = finished s ++ map fst (active s) ++ pending s;
  ord_diffs :
    Diffs (acc s)
    = flat_map (emitted e) (finished s) ++ flat_map (appended_by e) (active s);
  ord_sent : sent_values (out s) = sent_so_far v e s;
  ord_log :
    log s
    = flat_map (warned e) (finished s) ++ flat_map (logged_by e) (active s)
}.

(* ================================================================== *)
(** ** main.go: the callers of the engine *)
(* ================================================================== *)

(** "Count total jobs" in main: the lengths of the path lists, summed in
    an int. *)
Definition total_jobs (affected : affected_map) : Z :=
  fold_left (fun n entry => int_add n (Z.of_nat (List.length (snd entry))))
            affected 0.

(** RunProgressive: the values that have been sent on out by goroutines
    that have not yet appended them to the result. *)
Definition awaiting_append (s : pool) : list ComponentDiff :=
  flat_map (fun a => match snd a with
                     | AtAppend cd => [cd]
                     | _ => []
                     end) (active s).

(** [strings.ReplaceAll(s, old, new)] for a one-byte [old]. *)
Fixpoint strings_ReplaceAll (s : string) (old : ascii) (new : string)
  : string :=
  match s with
  | EmptyString => EmptyString
  | String c rest =>
      if Ascii.eqb c old then (new ++ strings_ReplaceAll rest old new)%string
      else String c (strings_ReplaceAll rest old new)
  end.

(** diffFileName: "%s__%s.diff" of the path with its slashes replaced, and
    the environment. *)
Definition diffFileName (componentPath env : string) : string :=
  let safe := strings_ReplaceAll componentPath "/"%char "__" in
  (safe ++ "__" ++ env ++ ".diff")%string.

(** Whether a byte occurs in a string. *)
Fixpoint has_byte (c : ascii) (s : string) : bool :=
  match s with
  | EmptyString => false
  | String d rest => Ascii.eqb d c || has_byte c rest
  end.

(** The function sortDiffs hands to sort.Slice: by environment, then by
    path; Go compares strings byte by byte. *)
Definition sortDiffs_less (a b : ComponentDiff) : bool :=
  if negb (String.eqb (Env a) (Env b)) then String.ltb (Env a) (Env b)
  else String.ltb (Path a) (Path b).

(** What sort.Slice leaves behind: no element is less than one before it. *)
Definition sorted_by_less (l : list ComponentDiff) : Prop :=
  forall (l1 l2 l3 : list ComponentDiff) (x y : ComponentDiff),
    l = l1 ++ x :: l2 ++ y :: l3 -> sortDiffs_less y x = false.

(** colorDiff: the case the switch takes for a line, and what is printed
    for it. *)
Inductive style : Type := Blank | Bold | Cyan | Green | Red | Plain.

Definition lineStyle (line : string) : style :=
  match line with
  | EmptyString => Blank
  | String c _ =>
      if strings_HasPrefix line "+++" || strings_HasPrefix line "---" then Bold
      else if strings_HasPrefix line "@@" then Cyan
      else if Ascii.eqb c "+"%char then Green
      else if Ascii.eqb c "-"%char then Red
      else Plain
  end.

Definition esc : ascii := "027"%char.

(** Printf("\033[<code>m%s\033[0m\n", line). *)
Definition sgr (code line : string) : string :=
  (String esc ("[" ++ code ++ "m") ++ line ++ String esc "[0m" ++ nl)%string.

Definition printLine (st : style) (line : string) : string :=
  match st with
  | Blank => nl
  | Bold => sgr "1" line
  | Cyan => sgr "36" line
  | Green => sgr "32" line
  | Red => sgr "31" line
  | Plain => (line ++ nl)%string
  end.

(** What a sequence of prints leaves on standard output. *)
Definition printed (pieces : list string) : string :=
  fold_right String.append EmptyString pieces.

Definition colorDiff (diff : string) : string :=
  printed (map (fun line => printLine (lineStyle line) line)
               (strings_Split diff nl_char)).

(** A reader of the terminal output that drops the colour sequences: from
    an escape byte up to the next 'm'. *)
Fixpoint drop_sgr (inside : bool) (s : string) : string :=
  match s with
  | EmptyString => EmptyString
  | String c rest =>
      if inside then drop_sgr (negb (Ascii.eqb c "m"%char)) rest
      else if Ascii.eqb c esc then drop_sgr true rest
      else String c (drop_sgr false rest)
  end.

(** parseOutputModes. *)
Definition OutputMode : Type := string.
Definition OutputModeLocal : OutputMode := "local".
Definition OutputModeCISummary : OutputMode := "ci-summary".
Definition OutputModeCIComment : OutputMode := "ci-comment".
Definition OutputModeCIArtifact : OutputMode := "ci-artifact-dir".

Definition known_mode (m : OutputMode) : bool :=
  String.eqb m OutputModeLocal || String.eqb m OutputModeCISummary
  || String.eqb m OutputModeCIComment || String.eqb m OutputModeCIArtifact.

(** The map seen, as the list of the keys set to true. *)
Definition seen_has (seen : list OutputMode) (m : OutputMode) : bool :=
  existsb (String.eqb m) seen.

Section ParseModes.
(** strings.TrimSpace, of the Go library. *)
Variable strings_TrimSpace : string -> string.

(** The loop of parseOutputModes over the pieces still to be read; the
    empty list stands for the nil slice. *)
Fixpoint parse_pieces (pieces : list string) (seen modes : list OutputMode)
  : list OutputMode :=
  match pieces with
  | [] => modes
  | s :: rest =>
      let s := strings_TrimSpace s in
      if String.eqb s EmptyString then parse_pieces rest seen modes
      else if known_mode s then
        if negb (seen_has seen s)
        then parse_pieces rest (s :: seen) (modes ++ [s])
        else parse_pieces rest seen modes
      else []
  end.

Definition parseOutputModes (raw : string) : list OutputMode :=
  parse_pieces (strings_Split raw ","%char) [] [].

(** The trimmed pieces that are not empty, in order. *)
Definition named_modes (raw : string) : list string :=
  filter (fun s => negb (String.eqb s EmptyString))
         (map strings_TrimSpace (strings_Split raw ","%char)).
End ParseModes.

(** multiHandler.  A handler is what it answers to Enabled and to Handle,
    for a context and a level or a record. *)
Record LogEntry : Type := mkLogEntry {
  entry_level : Z;
  entry_msg : string
}.

Section MultiHandler.
(** context.Context and context.Background(), of the Go library. *)
Variable context_Context : Type.
Variable context_Background : context_Context.

Record Handler : Type := mkHandler {
  h_Enabled : context_Context -> Z -> bool;
  h_Handle : context_Context -> LogEntry -> option error
}.

(** Enabled does not look at its context: it asks every handler with the
    background context. *)
Definition multi_Enabled (handlers : list Handler) (level : Z) : bool :=
  existsb (fun h => h_Enabled h context_Background level) handlers.

(** Handle: the handlers that were given the record, by their position,
    and the error returned.  [i] is the position of the first handler of
    the list.  The handlers are asked with the context of the call. *)
Fixpoint multi_Handle (handlers : list Handler) (i : nat)
         (ctx : context_Context) (r : LogEntry) : list nat * option error :=
  match handlers with
  | [] => ([], None)
  | h :: rest =>
      if h_Enabled h ctx (entry_level r) then
        match h_Handle h ctx r with
        | Some err => ([i], Some err)
        | None =>
            let '(served, err) := multi_Handle rest (S i) ctx r in
            (i :: served, err)
        end
      else multi_Handle rest (S i) ctx r
  end.

(** The handlers a record of level [level] is meant for under [ctx], by
    position. *)
Fixpoint enabled_positions (handlers : list Handler) (i : nat)
         (ctx : context_Context) (level : Z) : list nat :=
  match handlers with
  | [] => []
  | h :: rest =>
      if h_Enabled h ctx level then i :: enabled_positions rest (S i) ctx level
      else enabled_positions rest (S i) ctx level
  end.

(** What the handler at position [i] of a list whose first handler has
    position [off] answers to Handle; nil where there is none. *)
Definition answer (handlers : list Handler) (off i : nat)
           (ctx : context_Context) (r : LogEntry) : option error :=
  match nth_error handlers (i - off) with
  | Some h => h_Handle h ctx r
  | None => None
  end.
End MultiHandler.

Arguments mkHandler {context_Context}.
Arguments h_Enabled {context_Context}.
Arguments h_Handle {context_Context}.
Arguments multi_Enabled {context_Context}.
Arguments multi_Handle {context_Context}.
Arguments enabled_positions {context_Context}.
Arguments answer {context_Context}.

(** "The deduplicated list" of the comment on parseOutputModes: every value
    once, at its first place. *)
Fixpoint dedup (l : list string) : list string :=
  match l with
  | [] => []
  | x :: rest => x :: filter (fun y => negb (String.eqb y x)) (dedup rest)
  end.

(** runCISummary: the text printed between the fences for a diff, and
    whether the truncation notice follows it. *)
Definition truncateThreshold : Z := 50 * 1024.

Definition summary_body (diff : string) : string * bool :=
  if Z.of_nat (String.length diff) >? truncateThreshold
  then (substring 0 (Z.to_nat truncateThreshold) diff, true)
  else (diff, false).

(** writeDiffFiles.  The calls it makes to os.WriteFile, as the path and
    the content of each in order, and the error it returns. *)
Definition is_element (name : string) : bool :=
  negb (has_byte "/" name) && negb (String.eqb name "")
  && negb (String.eqb name ".") && negb (String.eqb name "..").

Section WriteDiffFiles.
(** filepath.Join, os.MkdirAll and os.WriteFile, of the Go library.  What
    a call to os.WriteFile answers may depend on the calls made before
    it. *)
Variable filepath_Join : string -> string -> string.
Variable os_MkdirAll : string -> option error.
Variable os_WriteFile : list (string * string) -> string -> string -> option error.

Fixpoint write_each (diffs : list ComponentDiff) (dir : string)
         (made : list (string * string))
  : list (string * string) * option error :=
  match diffs with
  | [] => (made, None)
  | d :: rest =>
      let name := diffFileName (Path d) (Env d) in
      let path := filepath_Join dir name in
      match os_WriteFile made path (Diff d) with
      | Some err =>
          (made ++ [(path, Diff d)],
           Some (Wrap ("writing " ++ path ++ ": " ++ Error err)%string err))
      | None => write_each rest dir (made ++ [(path, Diff d)])
      end
  end.

Definition writeDiffFiles (result : DiffResult) (dir : string)
  : list (string * string) * option error :=
  match os_MkdirAll dir with
  | Some err =>
      ([], Some (Wrap ("creating output dir: " ++ Error err)%string err))
  | None => write_each (Diffs result) dir []
  end.

(** The files of a result: the path and the content for each entry. *)
Definition diff_files (result : DiffResult) (dir : string)
  : list (string * string) :=
  map (fun d => (filepath_Join dir (diffFileName (Path d) (Env d)), Diff d))
      (Diffs result).
End WriteDiffFiles.

(** More scenarios on the test doubles. *)
Module MoreScenario.
Import Double.

Definition prod_component : ComponentDiff :=
  {| Path := "components/zzz"; ClusterDir := EmptyString;
     Env := "production";
     BaseYAML := None; HeadYAML := None;
     Diff := EmptyString; Added := 0; Removed := 0 |}.

Definition result_of (b : behaviour) : DiffResult :=
  match fst (returned b) with
  | Some dr => dr
  | None => empty_DiffResult
  end.

(** The pair of Scenario, one goroutine after the other. *)
Definition pair_batch_run : behaviour :=
  Eval vm_compute in
    Scenario.force (@Run platform (engine 2) Scenario.pair
                         (@fifo platform Batch (engine 2) Scenario.pair)).

(** strings.TrimSpace on ASCII text. *)
Definition is_space (c : ascii) : bool :=
  (c =? " ")%char || (c =? "009")%char || (c =? "010")%char
  || (c =? "011")%char || (c =? "012")%char || (c =? "013")%char.

Fixpoint trim_left (s : string) : string :=
  match s with
  | EmptyString => EmptyString
  | String c rest => if is_space c then trim_left rest else s
  end.

Definition rev_string (s : string) : string :=
  string_of_list_ascii (rev (list_ascii_of_string s)).

Definition trim_space (s : string) : string :=
  rev_string (trim_left (rev_string (trim_left s))).

(** Contexts that carry one flag, and a handler that takes every record
    from [min] up, whatever the context, and fails on the message [bad]. *)
Definition handler_from (min : Z) (bad : string) : Handler bool :=
  {| h_Enabled := fun _ level => min <=? level;
     h_Handle := fun _ r =>
       if String.eqb (entry_msg r) bad
       then Some (New "write: broken pipe") else None |}.

(** The two handlers of setupLogging: Info and up to the terminal, Debug
    and up to the file. *)
Definition two_handlers : list (Handler bool) :=
  [handler_from 0 "boom"; handler_from (-4) "never"].

(** A handler that takes Info and up, and every record when the flag of
    the context is set. *)
Definition flagged_handler : Handler bool :=
  {| h_Enabled := fun ctx level => ctx || (0 <=? level);
     h_Handle := fun _ _ => None |}.

(** filepath.Join for a clean directory and a single element, and an
    operating system on which no call fails. *)
Definition join (dir name : string) : string := (dir ++ "/" ++ name)%string.
Definition mkdir_ok (dir : string) : option error := None.
Definition write_ok (made : list (string * string)) (path data : string)
  : option error := None.
End MoreScenario.
(* ================================================================== *)
(** ** Go integers *)
(* ================================================================== *)

Lemma int_wrap_small (z : Z) : int_min <= z <= int_max -> int_wrap z = z.
Proof.
  unfold int_min, int_max, int_wrap. intros H.
  rewrite Z.mod_small by lia. lia.
Qed.

Lemma int_wrap_add_l (a b : Z) : int_wrap (int_wrap a + b) = int_wrap (a + b).
Proof.
  unfold int_wrap. f_equal.
  replace ((a + 2 ^ 63) mod 2 ^ 64 - 2 ^ 63 + b + 2 ^ 63)
    with ((a + 2 ^ 63) mod 2 ^ 64 + b) by lia.
  rewrite Zplus_mod_idemp_l. f_equal. lia.
Qed.

Lemma int_wrap_add_r (a b : Z) : int_wrap (a + int_wrap b) = int_wrap (a + b).
Proof.
  rewrite (Z.add_comm a), int_wrap_add_l. f_equal. lia.
Qed.

Lemma int_succ (a : Z) : 0 <= a < int_max -> int_add a 1 = a + 1.
Proof.
  intros H. unfold int_add. apply int_wrap_small.
  unfold int_min, int_max in *. lia.
Qed.

(* ================================================================== *)
(** ** countStats *)
(* ================================================================== *)

Lemma prefix_one (c : ascii) (line : string) :
  String.prefix (String c EmptyString) line
  = match line with
    | EmptyString => false
    | String d _ => Ascii.eqb d c
    end.
Proof.
  destruct line as [|d rest]; simpl; [reflexivity|].
  destruct (ascii_dec c d) as [->|Hne].
  - rewrite Ascii.eqb_refl. destruct rest; reflexivity.
  - symmetry. apply Ascii.eqb_neq. congruence.
Qed.

(** The loop body agrees with the two predicates of the specification. *)
Lemma countStats_line_spec (a r : Z) (line : string) :
  countStats_line (a, r) line
  = (if is_added_line line then int_add a 1 else a,
     if is_removed_line line then int_add r 1 else r).
Proof.
  unfold countStats_line, is_added_line, is_removed_line, strings_HasPrefix.
  change "+" with (String "+"%char EmptyString).
  change "-" with (String "-"%char EmptyString).
  rewrite !prefix_one.
  destruct line as [|c rest]; [reflexivity|].
  destruct (Ascii.eqb c "+") eqn:Hp.
  - apply Ascii.eqb_eq in Hp. subst c.
    change (Ascii.eqb "+" "-") with false. cbn [andb].
    destruct (String.prefix "+++" (String "+" rest)); reflexivity.
  - cbn [andb]. destruct (Ascii.eqb c "-"); cbn [andb]; [|reflexivity].
    destruct (String.prefix "---" (String c rest)); reflexivity.
Qed.

Lemma added_removed_disjoint (line : string) :
  is_added_line line = true -> is_removed_line line = false.
Proof.
  unfold is_added_line, is_removed_line.
  change "+" with (String "+"%char EmptyString).
  change "-" with (String "-"%char EmptyString).
  rewrite !prefix_one. destruct line as [|c rest]; [discriminate|].
  destruct (Ascii.eqb c "+") eqn:Hp; [|discriminate].
  apply Ascii.eqb_eq in Hp. subst c. reflexivity.
Qed.

Lemma added_nonempty (line : string) :
  is_added_line line = true -> line <> EmptyString.
Proof. destruct line; [discriminate | congruence]. Qed.

Lemma removed_nonempty (line : string) :
  is_removed_line line = true -> line <> EmptyString.
Proof. destruct line; [discriminate | congruence]. Qed.

Lemma countStats_fold (lines : list string) (a r : Z) :
  0 <= a -> 0 <= r ->
  a + Z.of_nat (List.length (filter is_added_line lines)) <= int_max ->
  r + Z.of_nat (List.length (filter is_removed_line lines)) <= int_max ->
  fold_left countStats_line lines (a, r)
  = (a + Z.of_nat (List.length (filter is_added_line lines)),
     r + Z.of_nat (List.length (filter is_removed_line lines))).
Proof.
  revert a r. induction lines as [|line lines IH]; intros a r Ha Hr Hba Hbr.
  - simpl. f_equal; lia.
  - cbn [fold_left filter] in *. rewrite countStats_line_spec.
    destruct (is_added_line line) eqn:Hadd.
    + rewrite (added_removed_disjoint _ Hadd) in *.
      cbn [List.length] in *.
      rewrite int_succ by lia. rewrite IH by lia. f_equal; lia.
    + destruct (is_removed_line line) eqn:Hrem; cbn [List.length] in *.
      * rewrite int_succ by lia. rewrite IH by lia. f_equal; lia.
      * apply IH; lia.
Qed.

(** The pieces of a split are no longer, taken together, than the text. *)
Definition total_length (lines : list string) : nat :=
  fold_right (fun l n => (String.length l + n)%nat) O lines.

Lemma strings_Split_length (s : string) (sep : ascii) :
  (total_length (strings_Split s sep) <= String.length s)%nat.
Proof.
  induction s as [|c rest IH]; simpl; [lia|].
  destruct (Ascii.eqb c sep); simpl; [lia|].
  destruct (strings_Split rest sep) as [|piece pieces]; simpl in *; lia.
Qed.

Lemma filter_nonempty_length (f : string -> bool) (lines : list string) :
  (forall l, f l = true -> l <> EmptyString) ->
  (List.length (filter f lines) <= total_length lines)%nat.
Proof.
  intros Hf. induction lines as [|l lines IH]; simpl; [lia|].
  destruct (f l) eqn:Hl; simpl; [|lia].
  destruct l as [|c l']; [exfalso; exact (Hf _ Hl eq_refl)|]. simpl. lia.
Qed.

Lemma added_removed_bound (lines : list string) :
  (List.length (filter is_added_line lines)
   + List.length (filter is_removed_line lines) <= total_length lines)%nat.
Proof.
  induction lines as [|l lines IH]; simpl; [lia|].
  destruct (is_added_line l) eqn:Ha.
  - rewrite (added_removed_disjoint _ Ha). simpl.
    destruct l as [|c l']; [discriminate|]. simpl. lia.
  - destruct (is_removed_line l) eqn:Hr; simpl; [|lia].
    destruct l as [|c l']; [discriminate|]. simpl. lia.
Qed.

Lemma count_bound (text : string) :
  (count_added text + count_removed text <= String.length text)%nat.
Proof.
  unfold count_added, count_removed, lines_of.
  pose proof (added_removed_bound (strings_Split text nl_char)).
  pose proof (strings_Split_length text nl_char). lia.
Qed.

Lemma countStats_counts (text : string) :
  Z.of_nat (String.length text) <= int_max ->
  countStats text = (Z.of_nat (count_added text), Z.of_nat (count_removed text)).
Proof.
  intros Hlen. unfold countStats. pose proof (count_bound text) as Hb.
  unfold count_added, count_removed, lines_of in *.
  rewrite countStats_fold by lia. reflexivity.
Qed.

Lemma countStats_nonneg (text : string) :
  Z.of_nat (String.length text) <= int_max ->
  0 <= fst (countStats text) /\ 0 <= snd (countStats text).
Proof.
  intros Hlen. rewrite (countStats_counts text Hlen). cbn [fst snd]. lia.
Qed.

Lemma header_not_added (line : string) :
  String.prefix "---" line = true -> is_added_line line = false.
Proof.
  unfold is_added_line. change "+" with (String "+"%char EmptyString).
  rewrite prefix_one. destruct line as [|c rest]; [discriminate|].
  cbn [String.prefix]. destruct (ascii_dec "-" c) as [<-|]; [|discriminate].
  reflexivity.
Qed.

Lemma header_not_removed (line : string) :
  String.prefix "+++" line = true -> is_removed_line line = false.
Proof.
  unfold is_removed_line. change "-" with (String "-"%char EmptyString).
  rewrite prefix_one. destruct line as [|c rest]; [discriminate|].
  cbn [String.prefix]. destruct (ascii_dec "+" c) as [<-|]; [|discriminate].
  reflexivity.
Qed.

Lemma filter_agree {X : Type} (f g : X -> bool) (l : list X) :
  Forall (fun x => f x = g x) l -> filter f l = filter g l.
Proof.
  induction 1 as [|x l Hx _ IH]; cbn; [reflexivity|]. rewrite Hx, IH.
  reflexivity.
Qed.

(** Where countStats is right: on a diff text whose first two lines are the
    file header and whose other lines do not begin like a header line, its
    counts are the numbers of lines below the header that start with the
    insertion and with the deletion marker. *)
Lemma countStats_plain_hunks (text h1 h2 : string) (rest : list string) :
  Z.of_nat (String.length text) <= int_max ->
  lines_of text = h1 :: h2 :: rest ->
  String.prefix "---" h1 = true ->
  String.prefix "+++" h2 = true ->
  Forall (fun l => String.prefix "+++" l = false /\
                   String.prefix "---" l = false) rest ->
  countStats text
  = (Z.of_nat (added_lines text), Z.of_nat (removed_lines text)).
Proof.
  intros Hlen Hlines H1 H2 Hrest. rewrite (countStats_counts text Hlen).
  unfold count_added, count_removed, added_lines, removed_lines, hunk_lines.
  rewrite Hlines. cbn [filter skipn].
  rewrite (header_not_added h1 H1).
  assert (Ha2 : is_added_line h2 = false)
    by (unfold is_added_line; rewrite H2; apply andb_false_r).
  assert (Hr1 : is_removed_line h1 = false)
    by (unfold is_removed_line; rewrite H1; apply andb_false_r).
  rewrite Ha2, Hr1, (header_not_removed h2 H2).
  rewrite (filter_agree is_added_line (String.prefix "+") rest),
          (filter_agree is_removed_line (String.prefix "-") rest).
  - reflexivity.
  - eapply Forall_impl; [|exact Hrest]. intros l [_ Hl]. cbv beta.
    unfold is_removed_line. rewrite Hl. apply andb_true_r.
  - eapply Forall_impl; [|exact Hrest]. intros l [Hl _]. cbv beta.
    unfold is_added_line. rewrite Hl. apply andb_true_r.
Qed.

(** C4 does not hold of the code.  A manifest of two documents loses its
    second one: the diff text has, below the file header, no line that
    starts with '+' and two that start with '-' (the separator line and
    the line of the second document), neither of them the '---' header
    line.  countStats takes the removed separator line for a header line,
    because it begins with three dashes, and counts one removed line.  The
    same two lines added are counted as two. *)
Theorem countStats_separator_undercount :
  @computeDiff Double.platform Double.docs_component
  = (set_Diff Double.docs_component Double.docs_diff 0 1, None) /\
  hunk_lines Double.docs_diff
  = [("@@ -1,4 +1,2 @@"); (" a: 1"); ("----"); ("-b: 2"); (" ");
     EmptyString]%string /\
  added_lines Double.docs_diff = 0%nat /\
  removed_lines Double.docs_diff = 2%nat /\
  countStats Double.docs_diff = (0, 1) /\
  added_lines Double.docs_gained_diff = 2%nat /\
  countStats Double.docs_gained_diff = (2, 0).
Proof. repeat split; vm_compute; reflexivity. Qed.

(* ================================================================== *)
(** ** computeDiff *)
(* ================================================================== *)

Section DiffFacts.
Context {P : Platform}.

Lemma computeDiff_same (cd : ComponentDiff) :
  string_of_bytes (BaseYAML cd) = string_of_bytes (HeadYAML cd) ->
  computeDiff cd = (cd, None).
Proof.
  intros H. unfold computeDiff. rewrite H, String.eqb_refl. reflexivity.
Qed.

Lemma computeDiff_meta (cd cd' : ComponentDiff) (r : option error) :
  computeDiff cd = (cd', r) ->
  Path cd' = Path cd /\ ClusterDir cd' = ClusterDir cd /\ Env cd' = Env cd /\
  BaseYAML cd' = BaseYAML cd /\ HeadYAML cd' = HeadYAML cd.
Proof.
  unfold computeDiff.
  destruct (String.eqb _ _).
  - intros [= <- <-]. repeat split.
  - destruct (difflib_GetUnifiedDiffString _) as [text [err|]].
    + intros [= <- <-]. repeat split.
    + destruct (countStats text). intros [= <- <-]. repeat split.
Qed.
End DiffFacts.

(** C3.  Whatever the diff library is, when BaseYAML and HeadYAML of a
    component are the same bytes (both absent, both empty, or equal
    content), computeDiff returns no error and leaves the component as it
    was made: Diff empty, Added and Removed zero.  The statement holds for
    every platform, so the diff algorithm has no part in the result. *)
Theorem computeDiff_identical (P : Platform) (c : ComponentPath)
        (en : Environment) (yaml : bytes) :
  let cd := set_BaseYAML (set_HeadYAML (FromComponentPath c en) yaml) yaml in
  @computeDiff P cd = (cd, None) /\
  Diff cd = EmptyString /\ Added cd = 0 /\ Removed cd = 0 /\ HasDiff cd = false.
Proof.
  cbv zeta. split; [|repeat split].
  apply computeDiff_same. reflexivity.
Qed.

(** The totals of the specification's first scenario: HEAD builds "a: 1",
    base builds "a: 2". *)
Example countStats_foo : countStats Double.foo_diff = (1, 1).
Proof. vm_compute. reflexivity. Qed.

(** A header-like line inside a hunk is not counted: this is how the code
    tells header lines, by their prefix. *)
Example countStats_header_like :
  countStats ("+++x" ++ nl ++ "+y" ++ nl ++ "--- z" ++ nl)%string = (1, 0).
Proof. vm_compute. reflexivity. Qed.

(* ================================================================== *)
(** ** Lists *)
(* ================================================================== *)

Lemma nth_error_decompose {X : Type} (l : list X) (i : nat) (x : X) :
  nth_error l i = Some x ->
  exists l1 l2,
    l = l1 ++ x :: l2 /\
    (forall y, replace_nth i y l = l1 ++ y :: l2) /\
    remove_nth i l = l1 ++ l2.
Proof.
  intros H. destruct (nth_error_split l i H) as (l1 & l2 & -> & <-).
  exists l1, l2. unfold replace_nth, remove_nth.
  assert (Hf : firstn (List.length l1) (l1 ++ x :: l2) = l1).
  { rewrite firstn_app, Nat.sub_diag, firstn_all. simpl. apply app_nil_r. }
  assert (Hs : skipn (S (List.length l1)) (l1 ++ x :: l2) = l2).
  { change (x :: l2) with ([x] ++ l2). rewrite app_assoc.
    replace (S (List.length l1)) with (List.length (l1 ++ [x]))
      by (rewrite length_app; simpl; lia).
    rewrite skipn_app, Nat.sub_diag, skipn_all. reflexivity. }
  rewrite Hf, Hs. repeat split; reflexivity.
Qed.

Lemma perm_insert {X : Type} (d f a1 a2 : list X) (x : X) :
  Permutation d (f ++ a1 ++ a2) ->
  Permutation (d ++ [x]) (f ++ a1 ++ x :: a2).
Proof.
  intros H. rewrite H, !app_assoc. rewrite <- Permutation_middle.
  rewrite app_nil_r. rewrite Permutation_middle. reflexivity.
Qed.

Lemma perm_move {X : Type} (d f a1 a2 x : list X) :
  Permutation d (f ++ a1 ++ x ++ a2) ->
  Permutation d ((f ++ x) ++ a1 ++ a2).
Proof.
  intros H. rewrite H, <- !app_assoc. apply Permutation_app_head.
  rewrite !app_assoc. apply Permutation_app_tail. apply Permutation_app_comm.
Qed.

Lemma Zsum_app (l1 l2 : list Z) : Zsum (l1 ++ l2) = Zsum l1 + Zsum l2.
Proof. induction l1 as [|x l1 IH]; simpl; [reflexivity|]. rewrite IH. lia. Qed.

Lemma Zsum_perm (l1 l2 : list Z) : Permutation l1 l2 -> Zsum l1 = Zsum l2.
Proof. induction 1; simpl; lia. Qed.

(* ================================================================== *)
(** ** The job closure *)
(* ================================================================== *)

Section OutcomeFacts.
Context {P : Platform}.
Variable e : Engine.

Lemma outcome_build_failed j cd err :
  buildPair e (FromComponentPath (cp j) (env j)) = (cd, Some err) ->
  job_outcome e j = BuildFailed err.
Proof. intros H. unfold job_outcome. rewrite H. reflexivity. Qed.

Lemma outcome_diff_failed j cd cd' err :
  buildPair e (FromComponentPath (cp j) (env j)) = (cd, None) ->
  computeDiff cd = (cd', Some err) ->
  job_outcome e j = DiffFailed err.
Proof. intros H1 H2. unfold job_outcome. rewrite H1, H2. reflexivity. Qed.

Lemma outcome_unchanged j cd cd' :
  buildPair e (FromComponentPath (cp j) (env j)) = (cd, None) ->
  computeDiff cd = (cd', None) -> HasDiff cd' = false ->
  job_outcome e j = Unchanged.
Proof.
  intros H1 H2 H3. unfold job_outcome. rewrite H1, H2, H3. reflexivity.
Qed.

Lemma outcome_differs j cd cd' :
  buildPair e (FromComponentPath (cp j) (env j)) = (cd, None) ->
  computeDiff cd = (cd', None) -> HasDiff cd' = true ->
  job_outcome e j = Differs cd'.
Proof.
  intros H1 H2 H3. unfold job_outcome. rewrite H1, H2, H3. reflexivity.
Qed.

Lemma built_not_warned j cd :
  buildPair e (FromComponentPath (cp j) (env j)) = (cd, None) ->
  warned e j = [].
Proof.
  intros H. unfold warned, job_outcome. rewrite H.
  destruct (computeDiff cd) as [cd' [err|]]; [reflexivity|].
  destruct (HasDiff cd'); reflexivity.
Qed.

Lemma differs_built j cd :
  job_outcome e j = Differs cd ->
  exists cd0, buildPair e (FromComponentPath (cp j) (env j)) = (cd0, None)
              /\ computeDiff cd0 = (cd, None) /\ HasDiff cd = true.
Proof.
  unfold job_outcome.
  destruct (buildPair e _) as [cd0 [err|]]; [discriminate|].
  destruct (computeDiff cd0) as [cd' [err|]] eqn:Hd; [discriminate|].
  destruct (HasDiff cd') eqn:Hh; [|discriminate].
  intros [= <-]. exists cd0. auto.
Qed.
End OutcomeFacts.

(* ================================================================== *)
(** ** Moves are transitions *)
(* ================================================================== *)

Section StepFacts.
Context {P : Platform}.
Variable v : variant.
Variable e : Engine.

Lemma step_trans (m : move) (s s' : pool) :
  step v e m s = Some s' -> trans v e s s'.
Proof.
  destruct s as [pend a f r g o l]. destruct m as [|i]; simpl.
  - destruct pend as [|j rest]; [discriminate|].
    destruct (slot_free _ _) eqn:Hfree; [|discriminate].
    intros [= <-]. constructor. exact Hfree.
  - destruct (nth_error a i) as [[j p]|] eqn:Hnth; [|discriminate].
    intros [= <-].
    destruct (nth_error_decompose _ _ _ Hnth) as (a1 & a2 & -> & Hrep & Hrem).
    unfold advance, set_active. cbn [pending active finished acc g_err out log].
    destruct p as [|cd|cd|cd|ret].
    + destruct (buildPair e _) as [cd [err|]] eqn:Hb; rewrite Hrep.
      * eapply t_build_failed; eassumption.
      * eapply t_built; eassumption.
    + destruct (computeDiff cd) as [cd' [err|]] eqn:Hd.
      * rewrite Hrep. eapply t_diff_failed; eassumption.
      * destruct (HasDiff cd') eqn:Hh.
        -- replace (match v with
                    | Batch => _
                    | Progressive => _
                    end)
             with (mkPool pend
                          (a1 ++ (j, match v with
                                     | Progressive => AtSend cd'
                                     | Batch => AtAppend cd'
                                     end) :: a2) f r g o l)
             by (destruct v; rewrite Hrep; reflexivity).
           eapply t_diff_found; eassumption.
        -- rewrite Hrep. eapply t_diff_empty; eassumption.
    + rewrite Hrep. apply t_send.
    + rewrite Hrep. apply t_append.
    + rewrite Hrem. apply t_return.
Qed.
End StepFacts.

(* ================================================================== *)
(** ** The invariant holds along every run *)
(* ================================================================== *)

Section InvFacts.
Context {P : Platform}.
Variable v : variant.
Variable e : Engine.

Lemma Inv_init (jobs : list job) : Inv v e jobs (init_pool jobs).
Proof.
  constructor; simpl.
  - reflexivity.
  - constructor.
  - reflexivity.
  - unfold totals_ok. destruct v; simpl; split; reflexivity.
  - unfold sent_so_far. destruct v; reflexivity.
  - reflexivity.
  - intros j [].
  - reflexivity.
  - lia.
Qed.

Lemma pc_ok_middle a1 x a2 :
  Forall (pc_ok v e) (a1 ++ x :: a2) ->
  Forall (pc_ok v e) a1 /\ pc_ok v e x /\ Forall (pc_ok v e) a2.
Proof.
  intros H. apply Forall_app in H. destruct H as [H1 H2].
  inversion H2; subst. auto.
Qed.

Lemma pc_ok_replace a1 y a2 :
  Forall (pc_ok v e) a1 -> pc_ok v e y -> Forall (pc_ok v e) a2 ->
  Forall (pc_ok v e) (a1 ++ y :: a2).
Proof. intros H1 Hy H2. apply Forall_app. split; [|constructor]; assumption. Qed.

Ltac norm :=
  unfold sent_so_far, appended_by, sent_by, logged_by in *;
  cbn [pending active finished acc g_err out log] in *;
  rewrite ?flat_map_app, ?map_app in *;
  cbn [flat_map map fst snd has_appended has_sent has_built app] in *.

Ltac same_len H :=
  rewrite length_app in *; cbn [List.length] in *; exact H.

Lemma Inv_trans (jobs : list job) (s s' : pool) :
  Inv v e jobs s -> trans v e s s' -> Inv v e jobs s'.
Proof.
  intros [Hjobs Hpc Hdiffs Htot Hsent Hopen Herr Hlog Hlim] Ht.
  destruct Ht; cbn [pending active finished acc g_err out log] in *.
  - (* launch *)
    constructor; norm.
    + rewrite <- !app_assoc. exact Hjobs.
    + apply Forall_app. split; [assumption|]. repeat constructor.
    + rewrite !app_nil_r. exact Hdiffs.
    + exact Htot.
    + destruct v; [exact Hsent|]. rewrite !app_nil_r. exact Hsent.
    + exact Hopen.
    + exact Herr.
    + rewrite !app_nil_r. exact Hlog.
    + intros Hk. rewrite length_app. cbn [List.length].
      unfold slot_free in H. apply orb_true_iff in H.
      destruct H as [H|H]; [apply Z.ltb_lt in H; lia|].
      apply Z.ltb_lt in H. lia.
  - (* buildPair failed *)
    destruct (pc_ok_middle _ _ _ Hpc) as (Hp1 & _ & Hp2).
    pose proof (outcome_build_failed e _ _ _ H) as Ho.
    assert (Hem : emitted e j = []) by (unfold emitted; rewrite Ho; reflexivity).
    assert (Hw : warned e j = [warn_skipping j err])
      by (unfold warned; rewrite Ho; reflexivity).
    constructor; norm; rewrite ?Hem, ?Hw in *; cbn [app] in *.
    + exact Hjobs.
    + apply pc_ok_replace; try assumption.
      unfold pc_ok, fatal. cbn [fst snd]. rewrite Ho. reflexivity.
    + exact Hdiffs.
    + exact Htot.
    + destruct v; norm; rewrite ?Hem; exact Hsent.
    + exact Hopen.
    + exact Herr.
    + apply perm_insert. exact Hlog.
    + same_len Hlim.
  - (* buildPair succeeded *)
    destruct (pc_ok_middle _ _ _ Hpc) as (Hp1 & _ & Hp2).
    pose proof (built_not_warned e _ _ H) as Hw.
    constructor; norm; rewrite ?Hw in *; cbn [app] in *.
    + exact Hjobs.
    + apply pc_ok_replace; assumption.
    + exact Hdiffs.
    + exact Htot.
    + destruct v; norm; exact Hsent.
    + exact Hopen.
    + exact Herr.
    + exact Hlog.
    + same_len Hlim.
  - (* computeDiff failed *)
    destruct (pc_ok_middle _ _ _ Hpc) as (Hp1 & Hx & Hp2).
    unfold pc_ok in Hx. cbn [fst snd] in Hx.
    pose proof (outcome_diff_failed e _ _ _ _ Hx H) as Ho.
    assert (Hem : emitted e j = []) by (unfold emitted; rewrite Ho; reflexivity).
    constructor; norm; rewrite ?Hem in *; cbn [app] in *.
    + exact Hjobs.
    + apply pc_ok_replace; try assumption.
      unfold pc_ok, fatal. cbn [fst snd]. rewrite Ho. reflexivity.
    + exact Hdiffs.
    + exact Htot.
    + destruct v; norm; rewrite ?Hem; exact Hsent.
    + exact Hopen.
    + exact Herr.
    + exact Hlog.
    + same_len Hlim.
  - (* computeDiff found no difference *)
    destruct (pc_ok_middle _ _ _ Hpc) as (Hp1 & Hx & Hp2).
    unfold pc_ok in Hx. cbn [fst snd] in Hx.
    pose proof (outcome_unchanged e _ _ _ Hx H H0) as Ho.
    assert (Hem : emitted e j = []) by (unfold emitted; rewrite Ho; reflexivity).
    constructor; norm; rewrite ?Hem in *; cbn [app] in *.
    + exact Hjobs.
    + apply pc_ok_replace; try assumption.
      unfold pc_ok, fatal. cbn [fst snd]. rewrite Ho. reflexivity.
    + exact Hdiffs.
    + exact Htot.
    + destruct v; norm; rewrite ?Hem; exact Hsent.
    + exact Hopen.
    + exact Herr.
    + exact Hlog.
    + same_len Hlim.
  - (* computeDiff found a difference *)
    destruct (pc_ok_middle _ _ _ Hpc) as (Hp1 & Hx & Hp2).
    unfold pc_ok in Hx. cbn [fst snd] in Hx.
    pose proof (outcome_differs e _ _ _ Hx H H0) as Ho.
    constructor; norm.
    + exact Hjobs.
    + apply pc_ok_replace; try assumption.
      unfold pc_ok. destruct v; cbn [fst snd]; auto.
    + destruct v; exact Hdiffs.
    + exact Htot.
    + destruct v; norm; exact Hsent.
    + exact Hopen.
    + exact Herr.
    + destruct v; exact Hlog.
    + same_len Hlim.
  - (* send on the channel *)
    destruct (pc_ok_middle _ _ _ Hpc) as (Hp1 & Hx & Hp2).
    unfold pc_ok in Hx. cbn [fst snd] in Hx. destruct Hx as [Hv Ho].
    assert (Hem : emitted e j = [cd]) by (unfold emitted; rewrite Ho; reflexivity).
    constructor; norm.
    + exact Hjobs.
    + apply pc_ok_replace; assumption.
    + exact Hdiffs.
    + exact Htot.
    + unfold sent_values in *. rewrite flat_map_app. cbn [flat_map app].
      subst v. norm. rewrite Hem. cbn [app].
      apply perm_insert. exact Hsent.
    + unfold closes in *. rewrite filter_app, length_app. cbn. lia.
    + exact Herr.
    + exact Hlog.
    + same_len Hlim.
  - (* append under the mutex *)
    destruct (pc_ok_middle _ _ _ Hpc) as (Hp1 & Hx & Hp2).
    unfold pc_ok in Hx. cbn [fst snd] in Hx.
    assert (Hem : emitted e j = [cd]) by (unfold emitted; rewrite Hx; reflexivity).
    assert (Hfa : fatal e j = None) by (unfold fatal; rewrite Hx; reflexivity).
    constructor; norm; rewrite ?Hem in *; cbn [app] in *.
    + exact Hjobs.
    + apply pc_ok_replace; try assumption.
      unfold pc_ok. cbn [fst snd]. symmetry. exact Hfa.
    + replace (Diffs (append_result v r cd)) with (Diffs r ++ [cd])
        by (destruct v; reflexivity).
      apply perm_insert. exact Hdiffs.
    + unfold totals_ok, append_result in *. destruct v; cbn in *.
      * exact Htot.
      * destruct Htot as [-> ->]. unfold int_add.
        rewrite !map_app, !Zsum_app, !int_wrap_add_l. cbn.
        split; f_equal; lia.
    + destruct v; norm; rewrite ?Hem; exact Hsent.
    + exact Hopen.
    + exact Herr.
    + exact Hlog.
    + same_len Hlim.
  - (* the closure returns *)
    destruct (pc_ok_middle _ _ _ Hpc) as (Hp1 & Hx & Hp2).
    unfold pc_ok in Hx. cbn [fst snd] in Hx.
    constructor; norm; rewrite ?app_nil_r.
    + rewrite <- (app_assoc (map fst a1) (map fst a2) pend).
      apply perm_move. rewrite Hjobs, <- app_assoc. reflexivity.
    + apply Forall_app. split; assumption.
    + apply perm_move. exact Hdiffs.
    + exact Htot.
    + destruct v; norm; rewrite ?app_nil_r; [exact Hsent|].
      apply perm_move. exact Hsent.
    + exact Hopen.
    + destruct g as [first|].
      * destruct Herr as (j0 & Hin & Hf). exists j0. split; [|exact Hf].
        apply in_or_app. left. exact Hin.
      * destruct ret as [err|].
        -- exists j. split; [apply in_or_app; right; left; reflexivity|].
           symmetry. exact Hx.
        -- intros j0 Hin. apply in_app_or in Hin.
           destruct Hin as [Hin|[<-|[]]]; [apply Herr; exact Hin|].
           symmetry. exact Hx.
    + apply perm_move. exact Hlog.
    + intros Hk. specialize (Hlim Hk). rewrite length_app in *.
      cbn [List.length] in *. lia.
Qed.
End InvFacts.

(* ================================================================== *)
(** ** Runs: safety and completion *)
(* ================================================================== *)

Section RunFacts.
Context {P : Platform}.
Variable v : variant.
Variable e : Engine.

Lemma exec_Inv (jobs : list job) (sched : list move) (s0 s : pool) :
  Inv v e jobs s0 -> exec v e sched s0 = Some s -> Inv v e jobs s.
Proof.
  revert s0. induction sched as [|m sched IH]; intros s0 Hinv; simpl.
  - intros [= <-]. exact Hinv.
  - destruct (step v e m s0) as [s1|] eqn:Hstep; [|discriminate].
    apply IH. eapply Inv_trans; [exact Hinv|]. apply step_trans with m.
    exact Hstep.
Qed.

Lemma exec_app (sched1 sched2 : list move) (s : pool) :
  exec v e (sched1 ++ sched2) s
  = match exec v e sched1 s with
    | Some s1 => exec v e sched2 s1
    | None => None
    end.
Proof.
  revert s. induction sched1 as [|m sched1 IH]; intros s; simpl.
  - reflexivity.
  - destruct (step v e m s); [apply IH | reflexivity].
Qed.

Lemma all_done_nil (s : pool) :
  all_done s = true -> pending s = [] /\ active s = [].
Proof.
  unfold all_done. destruct (pending s); [|discriminate].
  destruct (active s); [auto | discriminate].
Qed.

Lemma active_weight_app (a1 a2 : list (job * pc)) :
  active_weight (a1 ++ a2) = (active_weight a1 + active_weight a2)%nat.
Proof.
  induction a1 as [|x a1 IH]; simpl; [reflexivity|]. rewrite IH. lia.
Qed.

Lemma active_weight_cons (x : job * pc) (a : list (job * pc)) :
  active_weight (x :: a) = (pc_weight (snd x) + active_weight a)%nat.
Proof. reflexivity. Qed.

(** Every move uses up some of the work that is left: no interleaving
    goes on for ever. *)
Lemma trans_weight (s s' : pool) :
  trans v e s s' -> (pool_weight s' < pool_weight s)%nat.
Proof.
  unfold pool_weight.
  destruct 1; cbn [pending active];
    rewrite ?active_weight_app, ?active_weight_cons;
    cbn [active_weight fold_right snd pc_weight List.length];
    try lia.
  destruct v; cbn [pc_weight]; lia.
Qed.

Lemma weight_zero_done (s : pool) :
  pool_weight s = O -> all_done s = true.
Proof.
  unfold pool_weight, all_done.
  destruct (pending s); simpl; [|lia].
  destruct (active s) as [|[j p] a]; [reflexivity|].
  simpl. destruct p; simpl; lia.
Qed.

(** With a limit other than zero the pool never gets stuck: the schedule
    that runs one goroutine at a time reaches the end of the run. *)
Lemma fifo_from_done (fuel : nat) (s : pool) :
  concurrency e <> 0 ->
  (pool_weight s <= fuel)%nat ->
  exists s', exec v e (fifo_from v e fuel s) s = Some s' /\ all_done s' = true.
Proof.
  intros Hlimit. revert s. induction fuel as [|fuel IH]; intros s Hw.
  - exists s. split; [reflexivity|]. apply weight_zero_done. lia.
  - cbn [fifo_from]. unfold next_move.
    destruct (active s) as [|[j p] a] eqn:Ha.
    + destruct (pending s) as [|j rest] eqn:Hp.
      * exists s. split; [reflexivity|]. unfold all_done.
        rewrite Hp, Ha. reflexivity.
      * assert (Hstep : exists s1, step v e Launch s = Some s1).
        { cbn [step]. rewrite Hp, Ha. unfold slot_free. cbn [List.length].
          destruct (concurrency e <? 0) eqn:Hneg; cbn [orb].
          - eexists. reflexivity.
          - apply Z.ltb_ge in Hneg.
            destruct (Z.of_nat 0 <? concurrency e) eqn:Hpos.
            + eexists. reflexivity.
            + apply Z.ltb_ge in Hpos. lia. }
        destruct Hstep as [s1 Hstep]. rewrite Hstep.
        pose proof (trans_weight _ _ (step_trans v e _ _ _ Hstep)) as Hlt.
        destruct (IH s1 ltac:(lia)) as (s' & Hex & Hdone).
        exists s'. split; [|exact Hdone]. cbn [exec]. rewrite Hstep. exact Hex.
    + assert (Hstep : exists s1, step v e (Advance 0) s = Some s1).
      { cbn [step]. rewrite Ha. cbn [nth_error]. eexists. reflexivity. }
      destruct Hstep as [s1 Hstep]. rewrite Hstep.
      pose proof (trans_weight _ _ (step_trans v e _ _ _ Hstep)) as Hlt.
      destruct (IH s1 ltac:(lia)) as (s' & Hex & Hdone).
      exists s'. split; [|exact Hdone]. cbn [exec]. rewrite Hstep. exact Hex.
Qed.

(** Any interleaving, however far it has got, can be carried on to the
    end of the run. *)
Lemma exec_completes (sched : list move) (s0 s : pool) :
  concurrency e <> 0 ->
  exec v e sched s0 = Some s ->
  exists sched' s',
    exec v e (sched ++ sched') s0 = Some s' /\ all_done s' = true.
Proof.
  intros Hlimit Hex.
  destruct (fifo_from_done (pool_weight s) s Hlimit (le_n _))
    as (s' & Hex' & Hdone).
  exists (fifo_from v e (pool_weight s) s), s'.
  rewrite exec_app, Hex. auto.
Qed.

(** What the invariant says once g.Wait has returned. *)
Lemma Inv_done (jobs : list job) (s : pool) :
  Inv v e jobs s -> all_done s = true ->
  Permutation (finished s) jobs /\
  Permutation (Diffs (acc s)) (expected_diffs e jobs) /\
  Permutation (sent_values (out s))
              (match v with
               | Progressive => expected_diffs e jobs
               | Batch => []
               end) /\
  Permutation (log s) (flat_map (warned e) jobs) /\
  match g_err s with
  | Some err => exists j, In j jobs /\ fatal e j = Some err
  | None => forall j, In j jobs -> fatal e j = None
  end.
Proof.
  intros [Hjobs _ Hdiffs _ Hsent _ Herr Hlog _] Hdone.
  destruct (all_done_nil s Hdone) as [Hp Ha].
  unfold sent_so_far in Hsent.
  rewrite Hp, Ha in *. cbn [map flat_map] in *. rewrite !app_nil_r in *.
  assert (Hfin : Permutation (finished s) jobs) by (symmetry; exact Hjobs).
  unfold expected_diffs.
  split; [exact Hfin|]. split; [|split; [|split]].
  - rewrite Hdiffs. apply Permutation_flat_map. exact Hfin.
  - destruct v; [exact Hsent|]. rewrite Hsent.
    apply Permutation_flat_map. exact Hfin.
  - rewrite Hlog. apply Permutation_flat_map. exact Hfin.
  - destruct (g_err s) as [err|].
    + destruct Herr as (j & Hin & Hf). exists j. split; [|exact Hf].
      apply Permutation_in with (finished s); assumption.
    + intros j Hin. apply Herr.
      apply Permutation_in with jobs; [symmetry|]; assumption.
Qed.
End RunFacts.

Lemma sum_totals_fold (results ds : list ComponentDiff) (a r : Z) :
  fold_left (fun dr d =>
               {| Diffs := Diffs dr;
                  TotalAdded := int_add (TotalAdded dr) (Added d);
                  TotalRemoved := int_add (TotalRemoved dr) (Removed d) |})
            results
            {| Diffs := ds; TotalAdded := int_wrap a; TotalRemoved := int_wrap r |}
  = {| Diffs := ds;
       TotalAdded := int_wrap (a + Zsum (map Added results));
       TotalRemoved := int_wrap (r + Zsum (map Removed results)) |}.
Proof.
  revert a r. induction results as [|d results IH]; intros a r; cbn.
  - rewrite !Z.add_0_r. reflexivity.
  - unfold int_add. rewrite !int_wrap_add_l, IH. unfold Zsum.
    f_equal; f_equal; lia.
Qed.

Lemma sum_totals_spec (results : list ComponentDiff) :
  sum_totals results
  = {| Diffs := results;
       TotalAdded := int_wrap (Zsum (map Added results));
       TotalRemoved := int_wrap (Zsum (map Removed results)) |}.
Proof.
  unfold sum_totals.
  change 0 with (int_wrap 0) at 1 2. rewrite sum_totals_fold. reflexivity.
Qed.

(* ================================================================== *)
(** ** buildPair and the job closure *)
(* ================================================================== *)

Section EngineFacts.
Context {P : Platform}.
Variable e : Engine.

Lemma buildPair_fresh (c : ComponentPath) (en : Environment) :
  buildPair e (FromComponentPath c en)
  = let p := cp_Path c in
    let cd0 := FromComponentPath c en in
    let hd := if DirExists (head e) p then BuildKustomization (head e) p
              else (None, None) in
    let bs := if DirExists (base e) p then BuildKustomization (base e) p
              else (None, None) in
    match snd hd with
    | Some cause =>
        (set_HeadYAML cd0 (fst hd),
         Some (Wrap ("building " ++ p ++ " on HEAD: " ++ Error cause) cause))
    | None =>
        let cd1 := set_HeadYAML cd0 (fst hd) in
        match snd bs with
        | Some cause =>
            (set_BaseYAML cd1 (fst bs),
             Some (Wrap ("building " ++ p ++ " on base: " ++ Error cause)
                        cause))
        | None =>
            let cd2 := set_BaseYAML cd1 (fst bs) in
            if is_nil (fst hd) && is_nil (fst bs)
            then (cd2, Some (on_neither_ref p))
            else (cd2, None)
        end
    end%string.
Proof.
  unfold buildPair, build_side, and_then, on_neither_ref. cbn.
  destruct (DirExists (head e) (cp_Path c));
    [destruct (BuildKustomization (head e) (cp_Path c)) as [hy [herr|]]|];
    cbn; try reflexivity;
    (destruct (DirExists (base e) (cp_Path c));
     [destruct (BuildKustomization (base e) (cp_Path c)) as [by_ [berr|]]|];
     cbn; reflexivity).
Qed.

Lemma buildPair_meta (c : ComponentPath) (en : Environment) cd r :
  buildPair e (FromComponentPath c en) = (cd, r) ->
  Path cd = cp_Path c /\ ClusterDir cd = cp_ClusterDir c /\ Env cd = en /\
  Diff cd = EmptyString /\ Added cd = 0 /\ Removed cd = 0.
Proof.
  rewrite buildPair_fresh. cbv zeta.
  destruct (snd (if DirExists (head e) _ then _ else _)).
  - intros [= <- <-]. repeat split.
  - destruct (snd (if DirExists (base e) _ then _ else _)).
    + intros [= <- <-]. repeat split.
    + destruct (_ && _); intros [= <- <-]; repeat split.
Qed.

Lemma buildPair_retag (c1 c2 : ComponentPath) (en1 en2 : Environment) :
  cp_Path c1 = cp_Path c2 ->
  buildPair e (FromComponentPath c2 en2)
  = (retag (fst (buildPair e (FromComponentPath c1 en1)))
           (cp_ClusterDir c2) en2,
     snd (buildPair e (FromComponentPath c1 en1))).
Proof.
  intros Hp. rewrite !buildPair_fresh. cbv zeta. rewrite Hp.
  destruct (snd (if DirExists (head e) _ then _ else _));
    [unfold retag; cbn; rewrite Hp; reflexivity|].
  destruct (snd (if DirExists (base e) _ then _ else _));
    [unfold retag; cbn; rewrite Hp; reflexivity|].
  destruct (_ && _); unfold retag; cbn; rewrite Hp; reflexivity.
Qed.

Lemma computeDiff_retag (cd : ComponentDiff) (cl : string) (en : Environment) :
  computeDiff (retag cd cl en)
  = (retag (fst (computeDiff cd)) cl en, snd (computeDiff cd)).
Proof.
  unfold computeDiff. cbn [retag BaseYAML HeadYAML Path].
  destruct (String.eqb _ _); [reflexivity|].
  destruct (difflib_GetUnifiedDiffString _) as [text [err|]]; [reflexivity|].
  destruct (countStats text). reflexivity.
Qed.

(** Whether a job publishes a diff depends on the path alone. *)
Lemma emitted_same_path (j1 j2 : job) :
  cp_Path (cp j1) = cp_Path (cp j2) ->
  emitted e j1 = [] -> emitted e j2 = [].
Proof.
  intros Hp. unfold emitted, job_outcome.
  rewrite (buildPair_retag (cp j1) (cp j2) (env j1) (env j2) Hp).
  destruct (buildPair e (FromComponentPath (cp j1) (env j1))) as [cd1 [err|]];
    cbn [fst snd]; [reflexivity|].
  rewrite computeDiff_retag.
  destruct (computeDiff cd1) as [cd1' [err|]]; cbn [fst snd]; [reflexivity|].
  unfold HasDiff. cbn [retag Diff].
  destruct (negb _); [discriminate | reflexivity].
Qed.

(** What a published diff looks like. *)
Lemma differs_shape (j : job) (cd : ComponentDiff) :
  job_outcome e j = Differs cd ->
  key cd = job_key j /\ ClusterDir cd = cp_ClusterDir (cp j) /\
  HasDiff cd = true /\
  exists cd0,
    buildPair e (FromComponentPath (cp j) (env j)) = (cd0, None) /\
    BaseYAML cd = BaseYAML cd0 /\ HeadYAML cd = HeadYAML cd0 /\
    difflib_GetUnifiedDiffString
      (diff_request (Path cd) (BaseYAML cd) (HeadYAML cd)) = (Diff cd, None) /\
    (Added cd, Removed cd) = countStats (Diff cd).
Proof.
  intros Ho. destruct (differs_built e j cd Ho) as (cd0 & Hb & Hd & Hh).
  destruct (buildPair_meta _ _ _ _ Hb) as (Hp & Hc & He & Hdf & _ & _).
  destruct (computeDiff_meta _ _ _ Hd) as (Hp' & Hc' & He' & Hb' & Hh').
  unfold key, job_key. rewrite Hp', He', Hc', Hp, He, Hc.
  split; [reflexivity|]. split; [reflexivity|]. split; [exact Hh|].
  exists cd0. split; [exact Hb|]. split; [exact Hb'|]. split; [exact Hh'|].
  revert Hd. unfold computeDiff, diff_request.
  destruct (String.eqb _ _).
  - intros [= <-]. unfold HasDiff in Hh. rewrite Hdf in Hh. discriminate.
  - rewrite <- Hp in *. 
    destruct (difflib_GetUnifiedDiffString _) as [text [err|]] eqn:Hg;
      [discriminate|].
    destruct (countStats text) as [a r] eqn:Hc0. intros [= <-].
    cbn [set_Diff Path BaseYAML HeadYAML Diff Added Removed].
    rewrite Hg, Hc0. split; reflexivity.
Qed.

Lemma expected_diffs_in (jobs : list job) (cd : ComponentDiff) :
  In cd (expected_diffs e jobs) <->
  exists j, In j jobs /\ job_outcome e j = Differs cd.
Proof.
  unfold expected_diffs. rewrite in_flat_map. split.
  - intros (j & Hin & Hcd). exists j. split; [exact Hin|].
    unfold emitted in Hcd. destruct (job_outcome e j); try contradiction.
    destruct Hcd as [<-|[]]. reflexivity.
  - intros (j & Hin & Ho). exists j. split; [exact Hin|].
    unfold emitted. rewrite Ho. left. reflexivity.
Qed.

(** A job that publishes nothing has no entry among the expected diffs,
    whatever other jobs there are. *)
Lemma not_expected (jobs : list job) (j : job) (cd : ComponentDiff) :
  emitted e j = [] -> In cd (expected_diffs e jobs) -> key cd <> job_key j.
Proof.
  intros Hem Hin Hkey. apply expected_diffs_in in Hin.
  destruct Hin as (j' & _ & Ho).
  destruct (differs_shape j' cd Ho) as (Hk & _).
  assert (Hp : cp_Path (cp j) = cp_Path (cp j')).
  { rewrite Hk in Hkey. unfold job_key in Hkey. congruence. }
  pose proof (emitted_same_path j j' Hp Hem) as Hem'.
  unfold emitted in Hem'. rewrite Ho in Hem'. discriminate.
Qed.
End EngineFacts.

(* ================================================================== *)
(** ** What Run and RunProgressive return *)
(* ================================================================== *)

Lemma no_moves_empty {P : Platform} (v : variant) (e : Engine)
      (sched : list move) (s : pool) :
  exec v e sched (init_pool []) = Some s -> sched = [] /\ s = init_pool [].
Proof.
  destruct sched as [|m sched]; cbn.
  - intros [= <-]. auto.
  - destruct m as [|i]; cbn; [discriminate|].
    destruct i; discriminate.
Qed.

Section RunSpec.
Context {P : Platform}.
Variable v : variant.
Variable e : Engine.

(** A call that returns has driven the pool to its end; the early return
    for an empty job list agrees with the general path. *)
Lemma run_of_pool (affected : affected_map) (sched : list move)
      (b : behaviour) :
  run_of v e affected sched = Some b ->
  exists s,
    exec v e sched (init_pool (collect_jobs affected)) = Some s /\
    all_done s = true /\
    logged b = log s /\
    channel b = match v with
                | Batch => out s
                | Progressive => out s ++ [Closed]
                end /\
    returned b = match g_err s with
                 | Some err => (None, Some err)
                 | None =>
                     (Some match v with
                           | Batch => sum_totals (Diffs (acc s))
                           | Progressive => acc s
                           end, None)
                 end.
Proof.
  destruct v; unfold run_of, Run, RunProgressive; cbv zeta;
    (destruct (collect_jobs affected) as [|j jobs];
     [ destruct sched; [|discriminate]; intros [= <-];
       exists (init_pool []); repeat split
     | match goal with
       | |- context [exec ?w e sched ?s0] =>
           destruct (exec w e sched s0) as [s|]; [|discriminate]
       end;
       destruct (all_done s) eqn:Hd; [|discriminate];
       destruct (g_err s) eqn:Hg; intros [= <-]; exists s; cbn;
       rewrite ?Hg; repeat split; assumption ]).
Qed.

Lemma pool_run_of (affected : affected_map) (sched : list move) (s : pool) :
  exec v e sched (init_pool (collect_jobs affected)) = Some s ->
  all_done s = true ->
  exists b, run_of v e affected sched = Some b.
Proof.
  intros Hex Hd.
  destruct v; unfold run_of, Run, RunProgressive; cbv zeta;
    (destruct (collect_jobs affected) as [|j jobs];
     [ destruct (no_moves_empty _ _ _ _ Hex) as [-> _]; eexists; reflexivity
     | rewrite Hex, Hd; destruct (g_err s); eexists; reflexivity ]).
Qed.

(** Every interleaving of a run with a limit other than zero can be
    carried on until the call returns. *)
Lemma run_of_total (affected : affected_map) (sched : list move) (s : pool) :
  concurrency e <> 0 ->
  exec v e sched (init_pool (collect_jobs affected)) = Some s ->
  exists sched' b, run_of v e affected (sched ++ sched') = Some b.
Proof.
  intros Hlimit Hex.
  destruct (exec_completes v e _ _ _ Hlimit Hex) as (sched' & s' & Hex' & Hd).
  destruct (pool_run_of _ _ _ Hex' Hd) as [b Hb].
  exists sched', b. exact Hb.
Qed.

Lemma run_of_spec (affected : affected_map) (sched : list move)
      (b : behaviour) :
  run_of v e affected sched = Some b ->
  let jobs := collect_jobs affected in
  Permutation (logged b) (flat_map (warned e) jobs) /\
  (exists evs,
      channel b = match v with
                  | Batch => evs
                  | Progressive => evs ++ [Closed]
                  end /\
      closes evs = O /\
      Permutation (sent_values evs)
                  (match v with
                   | Progressive => expected_diffs e jobs
                   | Batch => []
                   end)) /\
  match returned b with
  | (Some dr, None) =>
      (forall j, In j jobs -> fatal e j = None) /\
      Permutation (Diffs dr) (expected_diffs e jobs) /\
      TotalAdded dr = int_wrap (Zsum (map Added (Diffs dr))) /\
      TotalRemoved dr = int_wrap (Zsum (map Removed (Diffs dr)))
  | (None, Some err) => exists j, In j jobs /\ fatal e j = Some err
  | _ => False
  end.
Proof.
  intros Hrun jobs.
  destruct (run_of_pool _ _ _ Hrun) as (s & Hex & Hd & Hlog & Hch & Hret).
  pose proof (exec_Inv v e _ _ _ _ (Inv_init v e _) Hex) as Hinv.
  destruct (Inv_done v e _ _ Hinv Hd) as (_ & Hdiffs & Hsent & Hl & Herr).
  split; [rewrite Hlog; exact Hl|]. split.
  - exists (out s). split; [exact Hch|]. split; [apply Hinv | exact Hsent].
  - rewrite Hret. destruct (g_err s) as [err|]; [exact Herr|].
    split; [exact Herr|].
    destruct v.
    + rewrite sum_totals_spec. cbn [Diffs TotalAdded TotalRemoved].
      split; [exact Hdiffs|]. split; reflexivity.
    + split; [exact Hdiffs|]. exact (inv_totals _ _ _ _ Hinv).
Qed.
End RunSpec.

Section NewEngineFacts.
Context {P : Platform}.

Lemma NewEngine_positive (h b : RepoBuilder) (c : Z) :
  0 < concurrency (NewEngine h b c).
Proof.
  unfold NewEngine. cbn. destruct (c <=? 0) eqn:Hc; [lia|].
  apply Z.leb_gt in Hc. exact Hc.
Qed.

Lemma fatal_diff_failed (e : Engine) (j : job) (err : error) :
  fatal e j = Some err ->
  exists cause, job_outcome e j = DiffFailed cause /\ err = diff_error j cause.
Proof.
  unfold fatal. destruct (job_outcome e j); try discriminate.
  intros [= <-]. eexists. split; reflexivity.
Qed.
End NewEngineFacts.

(** With a limit of zero no job can be started: a run with a job to do
    does not return. *)
Lemma zero_limit_stuck {P : Platform} (v : variant) (e : Engine)
      (affected : affected_map) (sched : list move) :
  concurrency e = 0 ->
  collect_jobs affected <> [] ->
  run_of v e affected sched = None.
Proof.
  intros Hzero Hjobs.
  destruct (run_of v e affected sched) as [b|] eqn:Hrun; [|reflexivity].
  exfalso. destruct (run_of_pool v e _ _ _ Hrun) as (s & Hex & Hdone & _).
  destruct (collect_jobs affected) as [|j jobs]; [contradiction|].
  destruct sched as [|m sched]; cbn [exec] in Hex.
  - injection Hex as <-. discriminate.
  - destruct m as [|i]; cbn in Hex.
    + rewrite Hzero in Hex. discriminate.
    + destruct i; discriminate.
Qed.

(* ================================================================== *)
(** ** Build failures *)
(* ================================================================== *)

Lemma In_sent_values (cd : ComponentDiff) (evs : list chan_event) :
  In (Sent cd) evs <-> In cd (sent_values evs).
Proof.
  unfold sent_values. rewrite in_flat_map. split.
  - intros H. exists (Sent cd). split; [exact H | left; reflexivity].
  - intros (ev & Hin & Hcd). destruct ev as [cd'|]; [|contradiction].
    destruct Hcd as [<-|[]]. exact Hin.
Qed.

Section Skipping.
Context {P : Platform}.
Variable v : variant.
Variable e : Engine.
Variable affected : affected_map.
Variable sched : list move.
Variable b : behaviour.
Hypothesis Hrun : run_of v e affected sched = Some b.

(** A job that publishes nothing shows neither in the result nor on the
    channel. *)
Lemma silent_job (j : job) :
  emitted e j = [] ->
  ~ listed j b /\ (forall cd, In (Sent cd) (channel b) -> key cd <> job_key j).
Proof.
  intros Hem.
  destruct (run_of_spec v e _ _ _ Hrun) as (_ & (evs & Hch & _ & Hsent) & Hret).
  split.
  - intros (dr & cd & Hdr & Hin & Hkey).
    destruct (returned b) as [[dr'|] [err|]]; cbn in Hdr; try contradiction;
      try discriminate.
    injection Hdr as ->. destruct Hret as (_ & Hperm & _).
    apply (not_expected e (collect_jobs affected) j cd Hem); [|exact Hkey].
    apply Permutation_in with (Diffs dr); assumption.
  - intros cd Hin.
    assert (Hin' : In (Sent cd) evs).
    { rewrite Hch in Hin. destruct v; [exact Hin|].
      apply in_app_or in Hin. destruct Hin as [Hin|[Hin|[]]];
        [exact Hin | discriminate]. }
    apply In_sent_values in Hin'.
    pose proof (Permutation_in _ Hsent Hin') as Hexp.
    destruct v; [contradiction|].
    exact (not_expected e (collect_jobs affected) j cd Hem Hexp).
Qed.

(** An error returned by the run is the error of a failed computeDiff. *)
Lemma run_error_origin (rerr : error) :
  snd (returned b) = Some rerr ->
  exists j cause,
    In j (collect_jobs affected) /\ job_outcome e j = DiffFailed cause /\
    rerr = diff_error j cause.
Proof.
  destruct (run_of_spec v e _ _ _ Hrun) as (_ & _ & Hret).
  destruct (returned b) as [[dr|] [err|]]; cbn; try contradiction;
    try discriminate.
  intros [= <-]. destruct Hret as (j & Hin & Hf).
  destruct (fatal_diff_failed e j err Hf) as (cause & Ho & ->).
  exists j, cause. auto.
Qed.

Lemma run_succeeds :
  (forall j cause, In j (collect_jobs affected) ->
                   job_outcome e j <> DiffFailed cause) ->
  exists dr, returned b = (Some dr, None).
Proof.
  intros Hno.
  destruct (run_of_spec v e _ _ _ Hrun) as (_ & _ & Hret).
  destruct (returned b) as [[dr|] [err|]]; try contradiction.
  - exists dr. reflexivity.
  - destruct Hret as (j & Hin & Hf).
    destruct (fatal_diff_failed e j err Hf) as (cause & Ho & _).
    exfalso. exact (Hno j cause Hin Ho).
Qed.

Lemma build_failure_logged (j : job) (err : error) :
  In j (collect_jobs affected) -> job_outcome e j = BuildFailed err ->
  In (warn_skipping j err) (logged b).
Proof.
  intros Hin Ho.
  destruct (run_of_spec v e _ _ _ Hrun) as (Hlog & _).
  apply Permutation_in with (flat_map (warned e) (collect_jobs affected));
    [symmetry; exact Hlog|].
  apply in_flat_map. exists j. split; [exact Hin|].
  unfold warned. rewrite Ho. left. reflexivity.
Qed.
End Skipping.

(** C1, as stated, fails.  The build of components/broken fails at HEAD;
    the run returns a result without error, and the result has no entry for
    the component. *)
Lemma build_failure_not_listed :
  @job_outcome Double.platform (Double.engine 2)
               (Scenario.job_of "components/broken")
  = BuildFailed Scenario.broken_error /\
  @Run Double.platform (Double.engine 2) Scenario.broken
       (@fifo Double.platform Batch (Double.engine 2) Scenario.broken)
  = Some Scenario.broken_run /\
  returned Scenario.broken_run = (Some empty_DiffResult, None) /\
  ~ listed (Scenario.job_of "components/broken") Scenario.broken_run.
Proof.
  split; [vm_compute; reflexivity|]. split; [vm_compute; reflexivity|].
  split; [reflexivity|].
  intros (dr & cd & Hdr & Hin & _). cbn in Hdr. injection Hdr as <-.
  exact Hin.
Qed.

(** C1, amended.  In every run of Run or RunProgressive, a job whose
    buildPair fails does not abort the run: an error returned by the run is
    always the wrapped error of a failed computeDiff, and a run in which no
    computeDiff fails returns a DiffResult and no error.  The failed
    component is reported by a warning in the log and skipped: it has no
    entry in the returned DiffResult and nothing is sent for it on the
    channel.  And the run does return: for an engine whose concurrency is
    not zero, which is every engine NewEngine makes, every interleaving can
    be carried on to the return of the call; with a concurrency of zero no
    goroutine can be started and the call does not return. *)
Theorem build_failure_skipped (P : Platform) (v : variant) (e : Engine)
        (affected : affected_map) (j : job) (err : error) :
  In j (collect_jobs affected) ->
  job_outcome e j = BuildFailed err ->
  (forall sched b,
      run_of v e affected sched = Some b ->
      (forall rerr, snd (returned b) = Some rerr ->
         exists j' cause,
           In j' (collect_jobs affected) /\
           job_outcome e j' = DiffFailed cause /\
           rerr = diff_error j' cause) /\
      ((forall j' cause, In j' (collect_jobs affected) ->
                         job_outcome e j' <> DiffFailed cause) ->
       exists dr, returned b = (Some dr, None)) /\
      In (warn_skipping j err) (logged b) /\
      ~ listed j b /\
      (forall cd, In (Sent cd) (channel b) -> key cd <> job_key j)) /\
  (concurrency e <> 0 ->
   forall sched s,
     exec v e sched (init_pool (collect_jobs affected)) = Some s ->
     exists sched' b, run_of v e affected (sched ++ sched') = Some b) /\
  (forall hd bs c, 0 < concurrency (NewEngine hd bs c)) /\
  (concurrency e = 0 -> forall sched, run_of v e affected sched = None).
Proof.
  intros Hin Ho. split; [|split; [|split]].
  - intros sched b Hrun.
    split; [exact (run_error_origin v e affected sched b Hrun)|].
    split; [exact (run_succeeds v e affected sched b Hrun)|].
    split; [exact (build_failure_logged v e affected sched b Hrun j err Hin Ho)|].
    apply (silent_job v e affected sched b Hrun).
    unfold emitted. rewrite Ho. reflexivity.
  - intros Hlimit sched s Hex.
    exact (run_of_total v e affected sched s Hlimit Hex).
  - exact NewEngine_positive.
  - intros Hzero sched. apply (zero_limit_stuck v e affected sched Hzero).
    intros Hnil. rewrite Hnil in Hin. exact Hin.
Qed.

Lemma build_failure_skipped_witness :
  In (Scenario.job_of "components/broken") (collect_jobs Scenario.mixed) /\
  @job_outcome Double.platform (Double.engine 2)
               (Scenario.job_of "components/broken")
  = BuildFailed Scenario.broken_error /\
  @run_of Double.platform Batch (Double.engine 2) Scenario.mixed
          Scenario.mixed_fifo = Some Scenario.mixed_run /\
  In (warn_skipping (Scenario.job_of "components/broken") Scenario.broken_error)
     (logged Scenario.mixed_run) /\
  ~ listed (Scenario.job_of "components/broken") Scenario.mixed_run /\
  (exists dr, returned Scenario.mixed_run = (Some dr, None)) /\
  (exists sched' b,
      @run_of Double.platform Batch (Double.engine 2) Scenario.mixed
              (Scenario.two_started ++ sched') = Some b).
Proof.
  assert (H1 : @run_of Double.platform Batch (Double.engine 2) Scenario.mixed
                       Scenario.mixed_fifo = Some Scenario.mixed_run)
    by (vm_compute; reflexivity).
  assert (H2 : In (Scenario.job_of "components/broken")
                  (collect_jobs Scenario.mixed))
    by (vm_compute; tauto).
  assert (H3 : @job_outcome Double.platform (Double.engine 2)
                            (Scenario.job_of "components/broken")
               = BuildFailed Scenario.broken_error)
    by (vm_compute; reflexivity).
  assert (H4 : concurrency (Double.engine 2) <> 0) by discriminate.
  assert (H5 : @exec Double.platform Batch (Double.engine 2)
                     Scenario.two_started
                     (init_pool (collect_jobs Scenario.mixed))
               = Some Scenario.two_started_pool)
    by (vm_compute; reflexivity).
  split; [exact H2|]. split; [exact H3|]. split; [exact H1|].
  pose proof (build_failure_skipped Double.platform Batch (Double.engine 2)
                Scenario.mixed (Scenario.job_of "components/broken")
                Scenario.broken_error H2 H3) as (Hret & Hdone & _).
  destruct (Hret _ _ H1) as (_ & _ & Hlog & Hnot & _).
  split; [exact Hlog|]. split; [exact Hnot|].
  split; [eexists; reflexivity|].
  exact (Hdone H4 _ _ H5).
Defined.

(* ================================================================== *)
(** ** The result of a successful Run *)
(* ================================================================== *)

Lemma Zsum_cons (x : Z) (l : list Z) : Zsum (x :: l) = x + Zsum l.
Proof. reflexivity. Qed.

Lemma diff_length_sum_nonneg (l : list ComponentDiff) :
  0 <= Zsum (map diff_length l).
Proof.
  induction l as [|cd l IH]; [cbn; lia|].
  rewrite map_cons, Zsum_cons. unfold diff_length at 1. lia.
Qed.

Lemma counts_bounded (l : list ComponentDiff) :
  (forall cd, In cd l -> (Added cd, Removed cd) = countStats (Diff cd)) ->
  Zsum (map diff_length l) <= int_max ->
  0 <= Zsum (map Added l) <= Zsum (map diff_length l) /\
  0 <= Zsum (map Removed l) <= Zsum (map diff_length l).
Proof.
  induction l as [|cd l IH]; intros Hc Hb; [cbn; lia|].
  rewrite !map_cons, !Zsum_cons in *.
  pose proof (diff_length_sum_nonneg l) as Hl.
  assert (Hlen : Z.of_nat (String.length (Diff cd)) <= int_max)
    by (unfold diff_length in Hb at 1; lia).
  pose proof (Hc cd (or_introl eq_refl)) as Hcd.
  rewrite (countStats_counts _ Hlen) in Hcd. injection Hcd as Ha Hr.
  pose proof (count_bound (Diff cd)) as Hcb.
  assert (Hd : diff_length cd = Z.of_nat (String.length (Diff cd)))
    by reflexivity.
  destruct IH as [IHa IHr];
    [intros cd' Hin; apply Hc; right; exact Hin | lia |].
  lia.
Qed.

Lemma expected_counts {P : Platform} (e : Engine) (jobs : list job)
      (cd : ComponentDiff) :
  In cd (expected_diffs e jobs) ->
  HasDiff cd = true /\ (Added cd, Removed cd) = countStats (Diff cd).
Proof.
  intros Hin. apply expected_diffs_in in Hin. destruct Hin as (j & _ & Ho).
  destruct (differs_shape e j cd Ho) as (_ & _ & Hh & cd0 & _ & _ & _ & _ & Hc).
  auto.
Qed.

(** C2, as stated, fails.  With one changed component and one that is on
    neither ref, a successful Run returns the changed component only: the
    component whose build failed is not among the Diffs. *)
Lemma diffs_omit_build_failures :
  @Run Double.platform (Double.engine 2) Scenario.foo_ghost
       (@fifo Double.platform Batch (Double.engine 2) Scenario.foo_ghost)
  = Some Scenario.foo_ghost_run /\
  exists dr,
    returned Scenario.foo_ghost_run = (Some dr, None) /\
    map job_key (filter (@differs_or_build_failed Double.platform
                                                  (Double.engine 2))
                        (collect_jobs Scenario.foo_ghost))
    = [("components/foo", "staging"); ("components/ghost", "staging")] /\
    map key (Diffs dr) = [("components/foo", "staging")] /\
    ~ Permutation
        (map key (Diffs dr))
        (map job_key (filter (@differs_or_build_failed Double.platform
                                                       (Double.engine 2))
                             (collect_jobs Scenario.foo_ghost))).
Proof.
  split; [vm_compute; reflexivity|].
  eexists. split; [reflexivity|].
  split; [vm_compute; reflexivity|]. split; [vm_compute; reflexivity|].
  intros Hperm. apply Permutation_length in Hperm. vm_compute in Hperm.
  discriminate.
Qed.

(** C2, amended.  For every successful Run, Diffs holds exactly the
    ComponentDiffs of the jobs that were built and diffed with a non-empty
    Diff (each once, in some order); components whose build failed are not
    among them.  TotalAdded and TotalRemoved are the sums, in Go's int, of
    Added and Removed over these components, and the exact sums whenever
    the diff texts together are no longer than the largest int. *)
Theorem Run_result (P : Platform) (e : Engine) (affected : affected_map)
        (sched : list move) (b : behaviour) (dr : DiffResult) :
  Run e affected sched = Some b ->
  returned b = (Some dr, None) ->
  let jobs := collect_jobs affected in
  Permutation (Diffs dr) (expected_diffs e jobs) /\
  (forall cd, In cd (Diffs dr) <->
              exists j, In j jobs /\ job_outcome e j = Differs cd) /\
  (forall cd, In cd (Diffs dr) -> HasDiff cd = true) /\
  (forall j err, In j jobs -> job_outcome e j = BuildFailed err ->
                 ~ listed j b) /\
  TotalAdded dr = int_wrap (Zsum (map Added (expected_diffs e jobs))) /\
  TotalRemoved dr = int_wrap (Zsum (map Removed (expected_diffs e jobs))) /\
  (Zsum (map diff_length (Diffs dr)) <= int_max ->
   TotalAdded dr = Zsum (map Added (expected_diffs e jobs)) /\
   TotalRemoved dr = Zsum (map Removed (expected_diffs e jobs))).
Proof.
  intros Hrun Hret jobs.
  destruct (run_of_spec Batch e _ _ _ Hrun) as (_ & _ & Hspec).
  rewrite Hret in Hspec. destruct Hspec as (_ & Hperm & Hta & Htr).
  fold jobs in Hperm.
  assert (Hsa : Zsum (map Added (Diffs dr))
                = Zsum (map Added (expected_diffs e jobs)))
    by (apply Zsum_perm, Permutation_map; exact Hperm).
  assert (Hsr : Zsum (map Removed (Diffs dr))
                = Zsum (map Removed (expected_diffs e jobs)))
    by (apply Zsum_perm, Permutation_map; exact Hperm).
  split; [exact Hperm|]. split; [|split; [|split; [|split; [|split]]]].
  - intros cd. rewrite <- (expected_diffs_in e jobs cd). split; intros Hin.
    + apply Permutation_in with (Diffs dr); assumption.
    + apply Permutation_in with (expected_diffs e jobs);
        [symmetry|]; assumption.
  - intros cd Hin. apply (expected_counts e jobs cd).
    apply Permutation_in with (Diffs dr); assumption.
  - intros j err _ Ho.
    apply (silent_job Batch e affected sched b Hrun).
    unfold emitted. rewrite Ho. reflexivity.
  - rewrite Hta, Hsa. reflexivity.
  - rewrite Htr, Hsr. reflexivity.
  - intros Hsize.
    destruct (counts_bounded (Diffs dr)) as [Ha Hr]; [|exact Hsize|].
    + intros cd Hin. apply (expected_counts e jobs cd).
      apply Permutation_in with (Diffs dr); assumption.
    + rewrite Hta, Htr, <- Hsa, <- Hsr.
      rewrite !int_wrap_small by (unfold int_min, int_max in *; lia).
      split; reflexivity.
Qed.

Lemma Run_result_witness :
  @Run Double.platform (Double.engine 2) Scenario.mixed Scenario.mixed_fifo
  = Some Scenario.mixed_run /\
  exists dr,
    returned Scenario.mixed_run = (Some dr, None) /\
    Zsum (map diff_length (Diffs dr)) <= int_max /\
    map key (Diffs dr)
    = [("components/foo", "staging"); ("components/bar", "staging");
       ("components/gone", "staging")] /\
    Permutation (Diffs dr)
                (@expected_diffs Double.platform (Double.engine 2)
                                 (collect_jobs Scenario.mixed)) /\
    TotalAdded dr = 2 /\ TotalRemoved dr = 2 /\
    TotalAdded dr
    = Zsum (map Added (@expected_diffs Double.platform (Double.engine 2)
                                       (collect_jobs Scenario.mixed))).
Proof.
  assert (H1 : @Run Double.platform (Double.engine 2) Scenario.mixed
                    Scenario.mixed_fifo = Some Scenario.mixed_run)
    by (vm_compute; reflexivity).
  split; [exact H1|].
  destruct (fst (returned Scenario.mixed_run)) as [dr|] eqn:Hdr;
    [|discriminate].
  assert (H2 : returned Scenario.mixed_run = (Some dr, None))
    by (injection Hdr as <-; reflexivity).
  assert (H3 : Zsum (map diff_length (Diffs dr)) <= int_max)
    by (injection Hdr as <-; vm_compute; discriminate).
  exists dr.
  pose proof (Run_result Double.platform (Double.engine 2) Scenario.mixed
                Scenario.mixed_fifo Scenario.mixed_run dr H1 H2)
    as (Hperm & _ & _ & _ & _ & _ & Hexact).
  destruct (Hexact H3) as [Hta _].
  split; [exact H2|]. split; [exact H3|].
  split; [injection Hdr as <-; reflexivity|].
  split; [exact Hperm|].
  split; [injection Hdr as <-; reflexivity|].
  split; [injection Hdr as <-; reflexivity|].
  exact Hta.
Defined.

(* ================================================================== *)
(** ** A component on neither ref *)
(* ================================================================== *)

Lemma buildPair_neither {P : Platform} (e : Engine) (j : job) :
  DirExists (head e) (cp_Path (cp j)) = false ->
  DirExists (base e) (cp_Path (cp j)) = false ->
  buildPair e (FromComponentPath (cp j) (env j))
  = (FromComponentPath (cp j) (env j), Some (on_neither_ref (cp_Path (cp j)))).
Proof.
  intros Hh Hb. rewrite buildPair_fresh. cbv zeta. rewrite Hh, Hb.
  reflexivity.
Qed.

(** C5, as stated, fails.  components/ghost is on neither ref; buildPair
    fails with its own error and the run goes on, but the run's output
    leaves the component out: the returned DiffResult is empty and the
    channel is closed with nothing sent. *)
Lemma absent_component_omitted :
  @job_outcome Double.platform (Double.engine 2)
               (Scenario.job_of "components/ghost")
  = BuildFailed (on_neither_ref "components/ghost") /\
  @RunProgressive Double.platform (Double.engine 2) Scenario.ghost
       (@fifo Double.platform Progressive (Double.engine 2) Scenario.ghost)
  = Some Scenario.ghost_run /\
  returned Scenario.ghost_run = (Some empty_DiffResult, None) /\
  channel Scenario.ghost_run = [Closed] /\
  ~ listed (Scenario.job_of "components/ghost") Scenario.ghost_run.
Proof.
  split; [vm_compute; reflexivity|]. split; [vm_compute; reflexivity|].
  split; [reflexivity|]. split; [reflexivity|].
  intros (dr & cd & Hdr & Hin & _). cbn in Hdr. injection Hdr as <-.
  exact Hin.
Qed.

(** C5, amended.  For a job whose component path is a directory neither at
    HEAD nor at base, buildPair fails with an error of its own (not one of
    the two wrapped build errors).  In every run of Run or RunProgressive
    this is a recoverable per-component failure: it is never the error the
    run returns, and a run in which no computeDiff fails returns a
    DiffResult; the component is reported by a warning in the log, and it
    is left out of the returned DiffResult and of the channel.  And the run
    does return: for an engine whose concurrency is not zero, which is
    every engine NewEngine makes, every interleaving can be carried on to
    the return of the call; with a concurrency of zero no goroutine can be
    started and the call does not return. *)
Theorem absent_component_recoverable (P : Platform) (v : variant)
        (e : Engine) (affected : affected_map) (j : job) :
  In j (collect_jobs affected) ->
  DirExists (head e) (cp_Path (cp j)) = false ->
  DirExists (base e) (cp_Path (cp j)) = false ->
  let err := on_neither_ref (cp_Path (cp j)) in
  buildPair e (FromComponentPath (cp j) (env j))
  = (FromComponentPath (cp j) (env j), Some err) /\
  Unwrap err = None /\
  (forall sched b,
      run_of v e affected sched = Some b ->
      (forall rerr, snd (returned b) = Some rerr ->
         exists j' cause,
           In j' (collect_jobs affected) /\
           job_outcome e j' = DiffFailed cause /\
           rerr = diff_error j' cause) /\
      ((forall j' cause, In j' (collect_jobs affected) ->
                         job_outcome e j' <> DiffFailed cause) ->
       exists dr, returned b = (Some dr, None)) /\
      In (warn_skipping j err) (logged b) /\
      ~ listed j b /\
      (forall cd, In (Sent cd) (channel b) -> key cd <> job_key j)) /\
  (concurrency e <> 0 ->
   forall sched s,
     exec v e sched (init_pool (collect_jobs affected)) = Some s ->
     exists sched' b, run_of v e affected (sched ++ sched') = Some b) /\
  (forall hd bs c, 0 < concurrency (NewEngine hd bs c)) /\
  (concurrency e = 0 -> forall sched, run_of v e affected sched = None).
Proof.
  intros Hin Hh Hb err.
  pose proof (buildPair_neither e j Hh Hb) as Hbp.
  pose proof (outcome_build_failed e j _ _ Hbp) as Ho. fold err in Ho.
  split; [exact Hbp|]. split; [reflexivity|]. split; [|split; [|split]].
  - intros sched b Hrun.
    split; [exact (run_error_origin v e affected sched b Hrun)|].
    split; [exact (run_succeeds v e affected sched b Hrun)|].
    split; [exact (build_failure_logged v e affected sched b Hrun j err Hin Ho)|].
    apply (silent_job v e affected sched b Hrun).
    unfold emitted. rewrite Ho. reflexivity.
  - intros Hlimit sched s Hex.
    exact (run_of_total v e affected sched s Hlimit Hex).
  - exact NewEngine_positive.
  - intros Hzero sched. apply (zero_limit_stuck v e affected sched Hzero).
    intros Hnil. rewrite Hnil in Hin. exact Hin.
Qed.

Lemma absent_component_recoverable_witness :
  In (Scenario.job_of "components/ghost") (collect_jobs Scenario.foo_ghost) /\
  DirExists (head (Double.engine 2)) "components/ghost" = false /\
  DirExists (base (Double.engine 2)) "components/ghost" = false /\
  @run_of Double.platform Batch (Double.engine 2) Scenario.foo_ghost
          (@fifo Double.platform Batch (Double.engine 2) Scenario.foo_ghost)
  = Some Scenario.foo_ghost_run /\
  In (warn_skipping (Scenario.job_of "components/ghost")
                    (on_neither_ref "components/ghost"))
     (logged Scenario.foo_ghost_run) /\
  ~ listed (Scenario.job_of "components/ghost") Scenario.foo_ghost_run /\
  (exists dr, returned Scenario.foo_ghost_run = (Some dr, None)) /\
  (exists sched' b,
      @run_of Double.platform Batch (Double.engine 2) Scenario.foo_ghost
              ([Launch; Launch; Advance 1] ++ sched') = Some b).
Proof.
  assert (H1 : @run_of Double.platform Batch (Double.engine 2)
                 Scenario.foo_ghost
                 (@fifo Double.platform Batch (Double.engine 2)
                        Scenario.foo_ghost)
               = Some Scenario.foo_ghost_run)
    by (vm_compute; reflexivity).
  assert (H2 : In (Scenario.job_of "components/ghost")
                  (collect_jobs Scenario.foo_ghost))
    by (vm_compute; tauto).
  assert (H3 : DirExists (head (Double.engine 2)) "components/ghost" = false)
    by reflexivity.
  assert (H4 : DirExists (base (Double.engine 2)) "components/ghost" = false)
    by reflexivity.
  assert (H5 : concurrency (Double.engine 2) <> 0) by discriminate.
  destruct (@exec Double.platform Batch (Double.engine 2)
                  [Launch; Launch; Advance 1]
                  (init_pool (collect_jobs Scenario.foo_ghost)))
    as [s|] eqn:H6; [|vm_compute in H6; discriminate].
  split; [exact H2|]. split; [exact H3|]. split; [exact H4|].
  split; [exact H1|].
  pose proof (absent_component_recoverable Double.platform Batch
                (Double.engine 2) Scenario.foo_ghost
                (Scenario.job_of "components/ghost") H2 H3 H4)
    as (_ & _ & Hret & Hdone & _).
  destruct (Hret _ _ H1) as (_ & _ & Hlog & Hnot & _).
  split; [exact Hlog|]. split; [exact Hnot|].
  split; [eexists; reflexivity|].
  exact (Hdone H5 _ _ H6).
Defined.

(* ================================================================== *)
(** ** A failing computeDiff *)
(* ================================================================== *)

(** C6.  If computeDiff fails for some job, then every run returns a nil
    result together with an error that wraps the computeDiff error of a
    failing job (of that job, or of another one whose computeDiff failed
    and which returned first); nothing is recorded for the component.  And
    the run does return: every interleaving can be carried on to the
    return of Run. *)
Theorem diff_failure_aborts (P : Platform) (v : variant)
        (hd bs : RepoBuilder) (c : Z) (affected : affected_map) (j : job)
        (cause : error) :
  let e := NewEngine hd bs c in
  In j (collect_jobs affected) ->
  job_outcome e j = DiffFailed cause ->
  (forall sched b,
      run_of v e affected sched = Some b ->
      exists j' cause',
        In j' (collect_jobs affected) /\
        job_outcome e j' = DiffFailed cause' /\
        returned b = (None, Some (diff_error j' cause')) /\
        Unwrap (diff_error j' cause') = Some cause') /\
  (forall sched s,
      exec v e sched (init_pool (collect_jobs affected)) = Some s ->
      exists sched' b, run_of v e affected (sched ++ sched') = Some b).
Proof.
  intros e Hin Ho. split.
  - intros sched b Hrun.
    destruct (run_of_spec v e _ _ _ Hrun) as (_ & _ & Hret).
    destruct (returned b) as [[dr|] [err|]]; try contradiction.
    + destruct Hret as (Hnone & _). specialize (Hnone j Hin).
      unfold fatal in Hnone. rewrite Ho in Hnone. discriminate.
    + destruct Hret as (j' & Hin' & Hf).
      destruct (fatal_diff_failed e j' err Hf) as (cause' & Ho' & ->).
      exists j', cause'. repeat split; assumption.
  - intros sched s Hex. apply (run_of_total v e affected sched s); [|exact Hex].
    pose proof (NewEngine_positive hd bs c). fold e in H. lia.
Qed.

Lemma diff_failure_aborts_witness :
  In (Scenario.job_of "components/foo") (collect_jobs Scenario.foo_only) /\
  @job_outcome Double.broken_platform Scenario.broken_engine
               (Scenario.job_of "components/foo")
  = DiffFailed (New "short write") /\
  @run_of Double.broken_platform Batch Scenario.broken_engine
          Scenario.foo_only
          (@fifo Double.broken_platform Batch Scenario.broken_engine
                 Scenario.foo_only)
  = Some Scenario.failed_run /\
  exists j' cause',
    returned Scenario.failed_run = (None, Some (diff_error j' cause')).
Proof.
  assert (H1 : In (Scenario.job_of "components/foo")
                  (collect_jobs Scenario.foo_only))
    by (vm_compute; tauto).
  assert (H2 : @job_outcome Double.broken_platform Scenario.broken_engine
                            (Scenario.job_of "components/foo")
               = DiffFailed (New "short write"))
    by (vm_compute; reflexivity).
  assert (H3 : @run_of Double.broken_platform Batch Scenario.broken_engine
                       Scenario.foo_only
                       (@fifo Double.broken_platform Batch
                              Scenario.broken_engine Scenario.foo_only)
               = Some Scenario.failed_run)
    by (vm_compute; reflexivity).
  split; [exact H1|]. split; [exact H2|]. split; [exact H3|].
  destruct (diff_failure_aborts Double.broken_platform Batch
              (Double.repo Double.head_files) (Double.repo Double.base_files)
              0 Scenario.foo_only (Scenario.job_of "components/foo")
              (New "short write") H1 H2) as [Hall _].
  destruct (Hall _ _ H3) as (j' & cause' & _ & _ & Hret & _).
  exists j', cause'. exact Hret.
Defined.

(* ================================================================== *)
(** ** The channel of RunProgressive *)
(* ================================================================== *)

Lemma sent_values_closed (evs : list chan_event) :
  sent_values (evs ++ [Closed]) = sent_values evs.
Proof.
  unfold sent_values. rewrite flat_map_app. cbn. apply app_nil_r.
Qed.

Lemma closes_closed (evs : list chan_event) :
  closes (evs ++ [Closed]) = S (closes evs).
Proof.
  unfold closes. rewrite filter_app, length_app. cbn. lia.
Qed.

(** C7.  When RunProgressive returns, the channel history is what the
    goroutines sent followed by one close; the close comes when the pool
    has no job left to start and none running, every job having returned;
    this holds whether the run returns a result or an error.  The values
    sent are those of the jobs that were built and diffed with a non-empty
    Diff.  When a DiffResult is returned, the values sent are exactly its
    Diffs, each as often, and so are their (path, environment) keys. *)
Theorem progressive_channel (P : Platform) (e : Engine)
        (affected : affected_map) (sched : list move) (b : behaviour) :
  RunProgressive e affected sched = Some b ->
  exists s,
    exec Progressive e sched (init_pool (collect_jobs affected)) = Some s /\
    all_done s = true /\
    Permutation (finished s) (collect_jobs affected) /\
    channel b = out s ++ [Closed] /\
    closes (out s) = O /\
    closes (channel b) = 1%nat /\
    Permutation (sent_values (channel b))
                (expected_diffs e (collect_jobs affected)) /\
    (forall dr, fst (returned b) = Some dr ->
                Permutation (sent_values (channel b)) (Diffs dr) /\
                Permutation (map key (sent_values (channel b)))
                            (map key (Diffs dr))).
Proof.
  intros Hrun.
  destruct (run_of_pool Progressive e _ _ _ Hrun)
    as (s & Hex & Hd & _ & Hch & Hret).
  pose proof (exec_Inv Progressive e _ _ _ _ (Inv_init Progressive e _) Hex)
    as Hinv.
  destruct (Inv_done Progressive e _ _ Hinv Hd) as (Hfin & Hdiffs & Hsent & _).
  exists s. split; [exact Hex|]. split; [exact Hd|]. split; [exact Hfin|].
  split; [exact Hch|]. split; [apply Hinv|].
  split; [rewrite Hch, closes_closed, (inv_open _ _ _ _ Hinv); reflexivity|].
  split; [rewrite Hch, sent_values_closed; exact Hsent|].
  intros dr Hdr. rewrite Hret in Hdr.
  destruct (g_err s); cbn in Hdr; [discriminate|]. injection Hdr as <-.
  assert (Hp : Permutation (sent_values (channel b)) (Diffs (acc s))).
  { rewrite Hch, sent_values_closed, Hsent. symmetry. exact Hdiffs. }
  split; [exact Hp|]. apply Permutation_map. exact Hp.
Qed.

Lemma progressive_channel_witness :
  @RunProgressive Double.platform (Double.engine 2) Scenario.pair
                  Scenario.pair_sched = Some Scenario.pair_run /\
  closes (channel Scenario.pair_run) = 1%nat /\
  map key (sent_values (channel Scenario.pair_run))
  = [("components/foo", "staging"); ("components/gone", "staging")] /\
  exists dr,
    fst (returned Scenario.pair_run) = Some dr /\
    map key (Diffs dr)
    = [("components/gone", "staging"); ("components/foo", "staging")] /\
    Permutation (sent_values (channel Scenario.pair_run)) (Diffs dr).
Proof.
  assert (H1 : @RunProgressive Double.platform (Double.engine 2) Scenario.pair
                               Scenario.pair_sched = Some Scenario.pair_run)
    by (vm_compute; reflexivity).
  destruct (progressive_channel Double.platform (Double.engine 2)
              Scenario.pair Scenario.pair_sched Scenario.pair_run H1)
    as (s & _ & _ & _ & _ & _ & Hone & _ & Hsame).
  split; [exact H1|]. split; [exact Hone|]. split; [reflexivity|].
  eexists. split; [reflexivity|]. split; [reflexivity|].
  apply (Hsame _ eq_refl).
Defined.

(* ================================================================== *)
(** ** The concurrency cap *)
(* ================================================================== *)

Lemma building_le_active (s : pool) :
  (building s <= List.length (active s))%nat.
Proof. unfold building. apply filter_length_le. Qed.

(** C9.  An engine made by NewEngine has as its cap the concurrency it was
    given, or the number of CPUs when that is zero or negative.  At every
    point of every interleaving of Run or RunProgressive, the goroutines
    holding a slot, and so the builds in progress, are no more than the
    cap. *)
Theorem concurrency_cap (P : Platform) (v : variant) (hd bs : RepoBuilder)
        (c : Z) (affected : affected_map) (sched : list move) (s : pool) :
  let e := NewEngine hd bs c in
  exec v e sched (init_pool (collect_jobs affected)) = Some s ->
  concurrency e = (if c <=? 0 then Z.pos runtime_NumCPU else c) /\
  (c <= 0 -> concurrency e = Z.pos runtime_NumCPU) /\
  (0 < c -> concurrency e = c) /\
  Z.of_nat (building s) <= concurrency e /\
  Z.of_nat (List.length (active s)) <= concurrency e.
Proof.
  intros e Hex.
  pose proof (exec_Inv v e _ _ _ _ (Inv_init v e _) Hex) as Hinv.
  pose proof (NewEngine_positive hd bs c) as Hpos. fold e in Hpos.
  pose proof (inv_limit _ _ _ _ Hinv ltac:(lia)) as Hlim.
  pose proof (building_le_active s) as Hb.
  split; [reflexivity|]. split; [|split; [|split]].
  - intros Hc. cbn. apply Z.leb_le in Hc. rewrite Hc. reflexivity.
  - intros Hc. cbn. apply Z.leb_gt in Hc. rewrite Hc. reflexivity.
  - lia.
  - exact Hlim.
Qed.

Lemma concurrency_cap_witness :
  @exec Double.platform Batch (Double.engine 2) Scenario.two_started
        (init_pool (collect_jobs Scenario.mixed))
  = Some Scenario.two_started_pool /\
  List.length (active Scenario.two_started_pool) = 2%nat /\
  @step Double.platform Batch (Double.engine 2) Launch
        Scenario.two_started_pool = None /\
  concurrency (Double.engine 2) = 2 /\
  Z.of_nat (building Scenario.two_started_pool) <= concurrency (Double.engine 2).
Proof.
  assert (H1 : @exec Double.platform Batch (Double.engine 2)
                     Scenario.two_started
                     (init_pool (collect_jobs Scenario.mixed))
               = Some Scenario.two_started_pool)
    by (vm_compute; reflexivity).
  split; [exact H1|]. split; [reflexivity|]. split; [vm_compute; reflexivity|].
  destruct (concurrency_cap Double.platform Batch
              (Double.repo Double.head_files) (Double.repo Double.base_files)
              2 Scenario.mixed Scenario.two_started Scenario.two_started_pool
              H1) as (_ & _ & Hk & Hb & _).
  split; [apply Hk; lia | exact Hb].
Defined.

(* ================================================================== *)
(** ** Components on one ref only *)
(* ================================================================== *)

Section OneSided.
Context {P : Platform}.
Variable e : Engine.
Variable j : job.
Variable sd : side.
Variable yaml : bytes.
Hypothesis Hpresent : DirExists (present e sd) (cp_Path (cp j)) = true.
Hypothesis Hmissing : DirExists (missing e sd) (cp_Path (cp j)) = false.
Hypothesis Hbuild :
  BuildKustomization (present e sd) (cp_Path (cp j)) = (yaml, None).

Lemma buildPair_one_sided :
  buildPair e (FromComponentPath (cp j) (env j))
  = (one_sided j sd yaml,
     if is_nil yaml then Some (on_neither_ref (cp_Path (cp j))) else None).
Proof.
  rewrite buildPair_fresh. cbv zeta.
  destruct sd; cbn [present missing] in *;
    rewrite Hpresent, Hmissing, Hbuild; cbn [fst snd is_nil andb];
    unfold one_sided; cbn [head_of base_of].
  - rewrite andb_true_r. destruct (is_nil yaml); reflexivity.
  - destruct (is_nil yaml); reflexivity.
Qed.

Lemma one_sided_strings :
  (string_of_bytes (BaseYAML (one_sided j sd yaml)) = EmptyString /\
   string_of_bytes (HeadYAML (one_sided j sd yaml)) = string_of_bytes yaml)
  \/
  (string_of_bytes (BaseYAML (one_sided j sd yaml)) = string_of_bytes yaml /\
   string_of_bytes (HeadYAML (one_sided j sd yaml)) = EmptyString).
Proof. destruct sd; [left | right]; split; reflexivity. Qed.

(** An empty build output on the one side: nothing to publish. *)
Lemma one_sided_empty :
  string_of_bytes yaml = EmptyString ->
  computeDiff (one_sided j sd yaml) = (one_sided j sd yaml, None) /\
  emitted e j = [].
Proof.
  intros Hempty.
  assert (Hsame : computeDiff (one_sided j sd yaml)
                  = (one_sided j sd yaml, None)).
  { apply computeDiff_same.
    destruct one_sided_strings as [[-> ->]|[-> ->]]; rewrite Hempty;
      reflexivity. }
  split; [exact Hsame|].
  unfold emitted, job_outcome. rewrite buildPair_one_sided.
  destruct (is_nil yaml); [reflexivity|]. rewrite Hsame. reflexivity.
Qed.
End OneSided.

Lemma string_of_bytes_nonempty (ys : list byte) :
  ys <> [] -> string_of_bytes (Some ys) <> EmptyString.
Proof.
  intros Hne Hs. apply Hne. cbn in Hs.
  rewrite <- (list_byte_of_string_of_list_byte ys), Hs. reflexivity.
Qed.

(** C10.  For a component that is a directory on exactly one ref and whose
    build there returns no bytes (a nil or an empty slice) and no error:
    if buildPair succeeds (it does when the slice is not nil), computeDiff
    sees two equal strings, returns no error and leaves Diff empty, so
    HasDiff is false; in either case the job publishes nothing, and the
    component has no entry in the returned DiffResult and none on the
    channel. *)
Theorem empty_output_excluded (P : Platform) (v : variant) (e : Engine)
        (affected : affected_map) (sched : list move) (b : behaviour)
        (j : job) (sd : side) (yaml : bytes) :
  run_of v e affected sched = Some b ->
  DirExists (present e sd) (cp_Path (cp j)) = true ->
  DirExists (missing e sd) (cp_Path (cp j)) = false ->
  BuildKustomization (present e sd) (cp_Path (cp j)) = (yaml, None) ->
  string_of_bytes yaml = EmptyString ->
  (forall cd, buildPair e (FromComponentPath (cp j) (env j)) = (cd, None) ->
              BaseYAML cd = base_of sd yaml /\ HeadYAML cd = head_of sd yaml /\
              computeDiff cd = (cd, None) /\
              Diff cd = EmptyString /\ HasDiff cd = false) /\
  (yaml <> None ->
   exists cd, buildPair e (FromComponentPath (cp j) (env j)) = (cd, None)) /\
  emitted e j = [] /\
  ~ listed j b /\
  (forall cd, In (Sent cd) (channel b) -> key cd <> job_key j).
Proof.
  intros Hrun Hp Hm Hb Hempty.
  pose proof (buildPair_one_sided e j sd yaml Hp Hm Hb) as Hbp.
  destruct (one_sided_empty e j sd yaml Hp Hm Hb Hempty) as [Hsame Hem].
  split; [|split; [|split; [exact Hem|]]].
  - intros cd Hcd. rewrite Hbp in Hcd. injection Hcd as <- _.
    split; [reflexivity|]. split; [reflexivity|]. split; [exact Hsame|].
    split; reflexivity.
  - intros Hnn. exists (one_sided j sd yaml). rewrite Hbp.
    destruct yaml; [reflexivity | contradiction].
  - exact (silent_job v e affected sched b Hrun j Hem).
Qed.

Lemma empty_output_excluded_witness :
  @run_of Double.platform Batch (Double.engine 2) Scenario.mixed
          Scenario.mixed_fifo = Some Scenario.mixed_run /\
  DirExists (present (Double.engine 2) OnlyHead) "components/blank" = true /\
  DirExists (missing (Double.engine 2) OnlyHead) "components/blank" = false /\
  BuildKustomization (present (Double.engine 2) OnlyHead) "components/blank"
  = (Some [], None) /\
  string_of_bytes (Some []) = EmptyString /\
  @emitted Double.platform (Double.engine 2)
           (Scenario.job_of "components/blank") = [] /\
  ~ listed (Scenario.job_of "components/blank") Scenario.mixed_run.
Proof.
  assert (H1 : @run_of Double.platform Batch (Double.engine 2) Scenario.mixed
                       Scenario.mixed_fifo = Some Scenario.mixed_run)
    by (vm_compute; reflexivity).
  assert (H2 : DirExists (present (Double.engine 2) OnlyHead)
                         (cp_Path (cp (Scenario.job_of "components/blank")))
               = true) by reflexivity.
  assert (H3 : DirExists (missing (Double.engine 2) OnlyHead)
                         (cp_Path (cp (Scenario.job_of "components/blank")))
               = false) by reflexivity.
  assert (H4 : BuildKustomization (present (Double.engine 2) OnlyHead)
                 (cp_Path (cp (Scenario.job_of "components/blank")))
               = (Some [], None)) by reflexivity.
  assert (H5 : string_of_bytes (Some []) = EmptyString) by reflexivity.
  destruct (empty_output_excluded Double.platform Batch (Double.engine 2)
              Scenario.mixed Scenario.mixed_fifo Scenario.mixed_run
              (Scenario.job_of "components/blank") OnlyHead (Some [])
              H1 H2 H3 H4 H5) as (_ & _ & Hem & Hnot & _).
  repeat (split; [assumption|]). exact Hnot.
Defined.

(** C8, as stated, fails.  components/blank is a directory at HEAD only and
    its build returns a non-nil slice of length zero: BaseYAML is absent
    and HeadYAML is populated, yet the result of the run does not contain
    the component. *)
Lemma empty_head_not_listed :
  @buildPair (Double.engine 2)
             (FromComponentPath (Double.comp "components/blank") "staging")
  = ({| Path := "components/blank"; ClusterDir := EmptyString;
        Env := "staging"; BaseYAML := None; HeadYAML := Some [];
        Diff := EmptyString; Added := 0; Removed := 0 |}, None) /\
  @Run Double.platform (Double.engine 2) Scenario.blank
       (@fifo Double.platform Batch (Double.engine 2) Scenario.blank)
  = Some Scenario.blank_run /\
  returned Scenario.blank_run = (Some empty_DiffResult, None) /\
  ~ listed (Scenario.job_of "components/blank") Scenario.blank_run.
Proof.
  split; [vm_compute; reflexivity|]. split; [vm_compute; reflexivity|].
  split; [reflexivity|].
  intros (dr & cd & Hdr & Hin & _). cbn in Hdr. injection Hdr as <-.
  exact Hin.
Qed.

(** C8, amended.  For a component that is a directory on one ref only,
    whose build there returns at least one byte and for which the diff
    library returns a non-empty text, every run that returns a DiffResult
    has the component among its Diffs: the YAML of the missing side absent,
    the other side as built, Diff the text the library returned for the
    empty text against the built one (or the reverse, for a removal), and
    Added and Removed the counts of countStats on that text.  For the text
    go-difflib prints for components/bar (new at HEAD, built as "x: y"
    and a newline) the counts are 1 and 0. *)
Theorem one_sided_component_listed (P : Platform) (v : variant) (e : Engine)
        (affected : affected_map) (sched : list move) (b : behaviour)
        (dr : DiffResult) (j : job) (sd : side) (ys : list byte)
        (text : string) :
  run_of v e affected sched = Some b ->
  returned b = (Some dr, None) ->
  In j (collect_jobs affected) ->
  DirExists (present e sd) (cp_Path (cp j)) = true ->
  DirExists (missing e sd) (cp_Path (cp j)) = false ->
  BuildKustomization (present e sd) (cp_Path (cp j)) = (Some ys, None) ->
  ys <> [] ->
  difflib_GetUnifiedDiffString
    (diff_request (cp_Path (cp j)) (base_of sd (Some ys)) (head_of sd (Some ys)))
  = (text, None) ->
  text <> EmptyString ->
  In {| Path := cp_Path (cp j); ClusterDir := cp_ClusterDir (cp j);
        Env := env j;
        BaseYAML := base_of sd (Some ys); HeadYAML := head_of sd (Some ys);
        Diff := text;
        Added := fst (countStats text); Removed := snd (countStats text) |}
     (Diffs dr) /\
  countStats Double.bar_diff = (1, 0).
Proof.
  intros Hrun Hret Hin Hp Hm Hb Hne Hdiff Htext.
  split; [|vm_compute; reflexivity].
  destruct (run_of_spec v e _ _ _ Hrun) as (_ & _ & Hspec).
  rewrite Hret in Hspec. destruct Hspec as (_ & Hperm & _).
  apply Permutation_in with (expected_diffs e (collect_jobs affected));
    [symmetry; exact Hperm|].
  apply expected_diffs_in. exists j. split; [exact Hin|].
  unfold job_outcome.
  rewrite (buildPair_one_sided e j sd (Some ys) Hp Hm Hb). cbn [is_nil].
  pose proof (string_of_bytes_nonempty ys Hne) as Hs.
  unfold computeDiff.
  assert (Hneq : String.eqb
                   (string_of_bytes (BaseYAML (one_sided j sd (Some ys))))
                   (string_of_bytes (HeadYAML (one_sided j sd (Some ys))))
                 = false).
  { apply String.eqb_neq.
    destruct sd; cbn [one_sided set_BaseYAML set_HeadYAML BaseYAML HeadYAML
                      base_of head_of FromComponentPath];
      cbn [string_of_bytes]; cbn [string_of_bytes] in Hs; congruence. }
  rewrite Hneq.
  change (difflib_GetUnifiedDiffString _)
    with (difflib_GetUnifiedDiffString
            (diff_request (cp_Path (cp j)) (base_of sd (Some ys))
                          (head_of sd (Some ys)))).
  rewrite Hdiff. destruct (countStats text) as [a r].
  unfold HasDiff. cbn [set_Diff Diff].
  apply String.eqb_neq in Htext. rewrite Htext. cbn [negb].
  reflexivity.
Qed.

Lemma one_sided_component_listed_witness :
  @run_of Double.platform Batch (Double.engine 2) Scenario.bar
          (@fifo Double.platform Batch (Double.engine 2) Scenario.bar)
  = Some Scenario.bar_run /\
  BuildKustomization (present (Double.engine 2) OnlyHead) "components/bar"
  = (Double.yaml ("x: y" ++ nl), None) /\
  @difflib_GetUnifiedDiffString Double.platform
    (@diff_request Double.platform "components/bar" None
                   (Double.yaml ("x: y" ++ nl)))
  = (Double.bar_diff, None) /\
  exists dr,
    returned Scenario.bar_run = (Some dr, None) /\
    In {| Path := "components/bar"; ClusterDir := EmptyString;
          Env := "staging";
          BaseYAML := None; HeadYAML := Double.yaml ("x: y" ++ nl);
          Diff := Double.bar_diff; Added := 1; Removed := 0 |}
       (Diffs dr).
Proof.
  assert (H1 : @run_of Double.platform Batch (Double.engine 2) Scenario.bar
                 (@fifo Double.platform Batch (Double.engine 2) Scenario.bar)
               = Some Scenario.bar_run) by (vm_compute; reflexivity).
  assert (H2 : returned Scenario.bar_run
               = (fst (returned Scenario.bar_run), None)) by reflexivity.
  assert (H3 : In (Scenario.job_of "components/bar")
                  (collect_jobs Scenario.bar)) by (vm_compute; tauto).
  assert (H4 : DirExists (present (Double.engine 2) OnlyHead)
                 (cp_Path (cp (Scenario.job_of "components/bar"))) = true)
    by reflexivity.
  assert (H5 : DirExists (missing (Double.engine 2) OnlyHead)
                 (cp_Path (cp (Scenario.job_of "components/bar"))) = false)
    by reflexivity.
  assert (H6 : BuildKustomization (present (Double.engine 2) OnlyHead)
                 (cp_Path (cp (Scenario.job_of "components/bar")))
               = (Some (list_byte_of_string ("x: y" ++ nl)), None))
    by reflexivity.
  assert (H7 : list_byte_of_string ("x: y" ++ nl) <> [])
    by (vm_compute; discriminate).
  assert (H8 : @difflib_GetUnifiedDiffString Double.platform
                 (@diff_request Double.platform
                    (cp_Path (cp (Scenario.job_of "components/bar")))
                    (base_of OnlyHead
                             (Some (list_byte_of_string ("x: y" ++ nl))))
                    (head_of OnlyHead
                             (Some (list_byte_of_string ("x: y" ++ nl)))))
               = (Double.bar_diff, None)) by (vm_compute; reflexivity).
  assert (H9 : Double.bar_diff <> EmptyString) by (vm_compute; discriminate).
  split; [exact H1|]. split; [exact H6|]. split; [exact H8|].
  destruct (fst (returned Scenario.bar_run)) as [dr|] eqn:Hdr;
    [|discriminate].
  exists dr. split; [exact H2|].
  destruct (one_sided_component_listed Double.platform Batch (Double.engine 2)
              Scenario.bar _ Scenario.bar_run dr
              (Scenario.job_of "components/bar") OnlyHead
              (list_byte_of_string ("x: y" ++ nl)) Double.bar_diff
              H1 H2 H3 H4 H5 H6 H7 H8 H9) as [Hin Hcount].
  rewrite Hcount in Hin. exact Hin.
Defined.

(* ================================================================== *)
(** ** The scenarios of the specification, on the test doubles *)
(* ================================================================== *)

(** An empty affected mapping: an empty result, no error, no move of the
    pool, nothing logged. *)
Example Run_empty (P : Platform) (e : Engine) :
  Run e [] [] = Some (mkBehaviour (Some empty_DiffResult, None) [] []).
Proof. reflexivity. Qed.

(** HEAD builds "a: 1", base builds "a: 2": one ComponentDiff, one line
    added and one removed. *)
Example Run_foo :
  exists cd,
    option_map returned
      (@Run Double.platform (Double.engine 2) Scenario.foo_only
            (@fifo Double.platform Batch (Double.engine 2) Scenario.foo_only))
    = Some (Some {| Diffs := [cd]; TotalAdded := 1; TotalRemoved := 1 |}, None)
    /\ Diff cd = Double.foo_diff /\ Added cd = 1 /\ Removed cd = 1.
Proof. eexists. split; [vm_compute; reflexivity|]. repeat split. Qed.

(* ================================================================== *)
(** ** buildPair, case by case *)
(* ================================================================== *)

(** X1.  buildPair on a fresh component succeeds exactly when neither
    build that was made returned an error and at least one of the two
    slices is not nil; HeadYAML and BaseYAML are then the slices built, and
    nil for a directory that is not there.  So a directory that exists but
    builds to a nil slice counts as absent. *)
Theorem buildPair_succeeds_iff (e : Engine) (c : ComponentPath)
        (en : Environment) :
  let hd := built_on (head e) (cp_Path c) in
  let bs := built_on (base e) (cp_Path c) in
  (snd (buildPair e (FromComponentPath c en)) = None <->
   snd hd = None /\ snd bs = None /\ (fst hd <> None \/ fst bs <> None)) /\
  (snd (buildPair e (FromComponentPath c en)) = None ->
   HeadYAML (fst (buildPair e (FromComponentPath c en))) = fst hd /\
   BaseYAML (fst (buildPair e (FromComponentPath c en))) = fst bs).
Proof.
  cbv zeta. unfold built_on. rewrite buildPair_fresh. cbv zeta.
  destruct (if DirExists (head e) (cp_Path c) then _ else _) as [hy herr].
  destruct (if DirExists (base e) (cp_Path c) then _ else _) as [by_ berr].
  cbn [fst snd].
  destruct herr as [herr|]; cbn [fst snd].
  - split; [split; [discriminate | intros ([=] & _)] | discriminate].
  - destruct berr as [berr|]; cbn [fst snd].
    + split; [split; [discriminate | intros (_ & [=] & _)] | discriminate].
    + destruct hy as [hy|], by_ as [by_|]; cbn [is_nil andb fst snd].
      4: { split; [split; [discriminate|] | discriminate].
           intros (_ & _ & [H|H]); contradiction. }
      all: split; [split; [intros _ | reflexivity] | intros _; split; reflexivity].
      all: split; [reflexivity|]; split; [reflexivity|].
      all: first [left; discriminate | right; discriminate].
Qed.

(** X2.  When the build at HEAD fails, buildPair returns that error,
    wrapped and marked "on HEAD", whatever the base snapshot is: base is
    not looked at, BaseYAML stays nil and HeadYAML holds what the failed
    build returned.  A failure at base is reported, marked "on base", only
    when HEAD did not fail. *)
Theorem buildPair_head_first (e : Engine) (c : ComponentPath)
        (en : Environment) (yaml : bytes) (cause : error) :
  built_on (head e) (cp_Path c) = (yaml, Some cause) ->
  (forall (other : RepoBuilder) (limit : Z),
      buildPair (mkEngine (head e) other limit) (FromComponentPath c en)
      = (set_HeadYAML (FromComponentPath c en) yaml,
         Some (Wrap ("building " ++ cp_Path c ++ " on HEAD: " ++ Error cause)
                    cause))) /\
  (forall (other : RepoBuilder) (limit : Z) (oyaml : bytes) (ocause : error),
      built_on other (cp_Path c) = (oyaml, Some ocause) ->
      snd (built_on (base e) (cp_Path c)) = None ->
      buildPair (mkEngine (base e) other limit) (FromComponentPath c en)
      = (set_BaseYAML (set_HeadYAML (FromComponentPath c en)
                                    (fst (built_on (base e) (cp_Path c))))
                      oyaml,
         Some (Wrap ("building " ++ cp_Path c ++ " on base: " ++ Error ocause)
                    ocause)))%string.
Proof.
  unfold built_on. intros Hh. split.
  - intros other limit. rewrite buildPair_fresh. cbv zeta. cbn [head base].
    rewrite Hh. reflexivity.
  - intros other limit oyaml ocause Ho Hb. rewrite buildPair_fresh. cbv zeta.
    cbn [head base]. rewrite Ho.
    destruct (if DirExists (base e) (cp_Path c) then _ else _) as [by_ berr].
    cbn [fst snd] in *. subst berr. reflexivity.
Qed.

Lemma buildPair_head_first_witness :
  built_on (head (Double.engine 2)) "components/broken"
  = (None, Some (New "kustomize: no such file")) /\
  buildPair (mkEngine (head (Double.engine 2)) (Double.repo []) 7)
            (FromComponentPath (Double.comp "components/broken") "staging")
  = (FromComponentPath (Double.comp "components/broken") "staging",
     Some Scenario.broken_error).
Proof.
  assert (H : built_on (head (Double.engine 2))
                       (cp_Path (Double.comp "components/broken"))
              = (None, Some (New "kustomize: no such file"))) by reflexivity.
  split; [exact H|].
  exact (proj1 (buildPair_head_first (Double.engine 2)
                  (Double.comp "components/broken") "staging" None
                  (New "kustomize: no such file") H) (Double.repo []) 7).
Defined.

Lemma buildPair_succeeds_iff_witness :
  snd (buildPair (Double.engine 2)
                 (FromComponentPath (Double.comp "components/bar") "staging"))
  = None /\
  fst (built_on (base (Double.engine 2)) "components/bar") = None /\
  BaseYAML (fst (buildPair (Double.engine 2)
                   (FromComponentPath (Double.comp "components/bar")
                                      "staging"))) = None.
Proof.
  assert (H : snd (buildPair (Double.engine 2)
                     (FromComponentPath (Double.comp "components/bar")
                                        "staging")) = None) by reflexivity.
  split; [exact H|]. split; [reflexivity|].
  destruct (proj2 (buildPair_succeeds_iff (Double.engine 2)
                     (Double.comp "components/bar") "staging") H) as [_ Hb].
  rewrite Hb. reflexivity.
Defined.

(* ================================================================== *)
(** ** What the entries of a result are *)
(* ================================================================== *)

Lemma buildPair_ok_fields (e : Engine) (c : ComponentPath) (en : Environment)
      (cd : ComponentDiff) :
  buildPair e (FromComponentPath c en) = (cd, None) ->
  HeadYAML cd = fst (built_on (head e) (cp_Path c)) /\
  BaseYAML cd = fst (built_on (base e) (cp_Path c)) /\
  (HeadYAML cd <> None \/ BaseYAML cd <> None).
Proof.
  unfold built_on. rewrite buildPair_fresh. cbv zeta.
  destruct (if DirExists (head e) (cp_Path c) then _ else _) as [hy [herr|]];
    cbn [fst snd]; [discriminate|].
  destruct (if DirExists (base e) (cp_Path c) then _ else _) as [by_ [berr|]];
    cbn [fst snd]; [discriminate|].
  destruct hy as [hy|], by_ as [by_|]; cbn [is_nil andb]; try discriminate;
    intros [= <-]; cbn; (split; [reflexivity|]); (split; [reflexivity|]);
    first [left; discriminate | right; discriminate].
Qed.

Lemma computeDiff_found_differs {P : Platform} (cd0 cd : ComponentDiff) :
  computeDiff cd0 = (cd, None) -> Diff cd0 = EmptyString -> HasDiff cd = true ->
  string_of_bytes (BaseYAML cd0) <> string_of_bytes (HeadYAML cd0).
Proof.
  intros Hd H0 Hh Heq. rewrite (computeDiff_same cd0 Heq) in Hd.
  injection Hd as <-. unfold HasDiff in Hh. rewrite H0 in Hh. discriminate.
Qed.

Lemma expected_diffs_length {P : Platform} (e : Engine) (jobs : list job) :
  (List.length (expected_diffs e jobs) <= List.length jobs)%nat.
Proof.
  unfold expected_diffs. induction jobs as [|j jobs IH]; cbn; [lia|].
  rewrite length_app. unfold emitted at 1.
  destruct (job_outcome e j); cbn; lia.
Qed.

Lemma returned_result {P : Platform} (v : variant) (e : Engine)
      (affected : affected_map) (sched : list move) (b : behaviour)
      (dr : DiffResult) :
  run_of v e affected sched = Some b -> fst (returned b) = Some dr ->
  returned b = (Some dr, None) /\
  Permutation (Diffs dr) (expected_diffs e (collect_jobs affected)).
Proof.
  intros Hrun Hdr.
  destruct (run_of_spec v e _ _ _ Hrun) as (_ & _ & Hret).
  destruct (returned b) as [[dr'|] [err|]]; cbn in Hdr; try contradiction;
    try discriminate.
  injection Hdr as ->. split; [reflexivity|]. apply Hret.
Qed.

(** X3.  Every entry of a returned DiffResult, of Run or RunProgressive,
    belongs to a job that was asked for (path, cluster directory and
    environment are the job's); its two YAML fields are what the two
    snapshots build for that path (nil where the directory is missing), not
    both nil, and their renderings differ; its Diff is the non-empty text
    the diff library returned for them and Added/Removed are countStats of
    that text.  There are no more entries than jobs. *)
Theorem result_entries_sound (P : Platform) (v : variant) (e : Engine)
        (affected : affected_map) (sched : list move) (b : behaviour)
        (dr : DiffResult) :
  run_of v e affected sched = Some b ->
  fst (returned b) = Some dr ->
  (List.length (Diffs dr) <= List.length (collect_jobs affected))%nat /\
  forall cd, In cd (Diffs dr) ->
    exists j,
      In j (collect_jobs affected) /\
      Path cd = cp_Path (cp j) /\ ClusterDir cd = cp_ClusterDir (cp j) /\
      Env cd = env j /\
      HeadYAML cd = fst (built_on (head e) (Path cd)) /\
      BaseYAML cd = fst (built_on (base e) (Path cd)) /\
      (HeadYAML cd <> None \/ BaseYAML cd <> None) /\
      string_of_bytes (BaseYAML cd) <> string_of_bytes (HeadYAML cd) /\
      Diff cd <> EmptyString /\
      difflib_GetUnifiedDiffString
        (diff_request (Path cd) (BaseYAML cd) (HeadYAML cd)) = (Diff cd, None) /\
      (Added cd, Removed cd) = countStats (Diff cd).
Proof.
  intros Hrun Hdr.
  destruct (returned_result v e _ _ _ _ Hrun Hdr) as [_ Hperm].
  split.
  - rewrite (Permutation_length Hperm). apply expected_diffs_length.
  - intros cd Hin.
    apply (Permutation_in _ Hperm), expected_diffs_in in Hin.
    destruct Hin as (j & Hj & Ho). exists j. split; [exact Hj|].
    destruct (differs_shape e j cd Ho)
      as (Hkey & Hcl & Hh & cd0 & Hb & Hby & Hhy & Hlib & Hcnt).
    unfold key, job_key in Hkey. injection Hkey as Hp He.
    destruct (buildPair_ok_fields e _ _ _ Hb) as (Hhd & Hbs & Hnn).
    destruct (buildPair_meta e _ _ _ _ Hb) as (_ & _ & _ & Hd0 & _ & _).
    destruct (differs_built e j cd Ho) as (cd1 & Hb1 & Hd1 & _).
    rewrite Hb in Hb1. injection Hb1 as <-.
    pose proof (computeDiff_found_differs cd0 cd Hd1 Hd0 Hh) as Hne.
    rewrite Hp, Hby, Hhy. repeat split; try assumption.
    + unfold HasDiff in Hh. intros Hempty. rewrite Hempty in Hh. discriminate.
    + rewrite <- Hby, <- Hhy, <- Hp. exact Hlib.
Qed.

Lemma result_entries_sound_witness :
  @run_of Double.platform Batch (Double.engine 2) Scenario.mixed
          Scenario.mixed_fifo = Some Scenario.mixed_run /\
  exists dr,
    fst (returned Scenario.mixed_run) = Some dr /\
    List.length (Diffs dr) = 3%nat /\
    (List.length (Diffs dr) <= List.length (collect_jobs Scenario.mixed))%nat.
Proof.
  assert (H1 : @run_of Double.platform Batch (Double.engine 2) Scenario.mixed
                       Scenario.mixed_fifo = Some Scenario.mixed_run)
    by (vm_compute; reflexivity).
  split; [exact H1|]. eexists. split; [reflexivity|]. split; [reflexivity|].
  exact (proj1 (result_entries_sound Double.platform Batch (Double.engine 2)
                  Scenario.mixed Scenario.mixed_fifo Scenario.mixed_run _
                  H1 eq_refl)).
Defined.

(* ================================================================== *)
(** ** Runs of the same input agree *)
(* ================================================================== *)

(** X4.  Two calls on the same engine and the same affected mapping, each
    Run or RunProgressive and under whatever interleaving, either both
    return an error or both return a DiffResult; the two results then have
    the same entries up to their order and the same TotalAdded and
    TotalRemoved; and the two calls log the same warnings up to order. *)
Theorem runs_agree (P : Platform) (v1 v2 : variant) (e : Engine)
        (affected : affected_map) (sched1 sched2 : list move)
        (b1 b2 : behaviour) :
  run_of v1 e affected sched1 = Some b1 ->
  run_of v2 e affected sched2 = Some b2 ->
  Permutation (logged b1) (logged b2) /\
  match returned b1, returned b2 with
  | (Some dr1, None), (Some dr2, None) =>
      Permutation (Diffs dr1) (Diffs dr2) /\
      TotalAdded dr1 = TotalAdded dr2 /\ TotalRemoved dr1 = TotalRemoved dr2
  | (None, Some _), (None, Some _) => True
  | _, _ => False
  end.
Proof.
  intros H1 H2.
  destruct (run_of_spec v1 e _ _ _ H1) as (Hl1 & _ & Hr1).
  destruct (run_of_spec v2 e _ _ _ H2) as (Hl2 & _ & Hr2).
  split; [rewrite Hl1, Hl2; reflexivity|].
  destruct (returned b1) as [[dr1|] [err1|]]; try contradiction;
    destruct (returned b2) as [[dr2|] [err2|]]; try contradiction.
  - destruct Hr1 as (_ & Hp1 & Ha1 & Hd1), Hr2 as (_ & Hp2 & Ha2 & Hd2).
    assert (Hp : Permutation (Diffs dr1) (Diffs dr2))
      by (rewrite Hp1, Hp2; reflexivity).
    split; [exact Hp|].
    rewrite Ha1, Ha2, Hd1, Hd2.
    rewrite (Zsum_perm _ _ (Permutation_map Added Hp)),
            (Zsum_perm _ _ (Permutation_map Removed Hp)).
    split; reflexivity.
  - destruct Hr1 as (Hnone & _), Hr2 as (j & Hin & Hf).
    rewrite (Hnone j Hin) in Hf. discriminate.
  - destruct Hr2 as (Hnone & _), Hr1 as (j & Hin & Hf).
    rewrite (Hnone j Hin) in Hf. discriminate.
  - exact I.
Qed.

Lemma runs_agree_witness :
  @run_of Double.platform Progressive (Double.engine 2) Scenario.pair
          Scenario.pair_sched = Some Scenario.pair_run /\
  (exists b2,
      @run_of Double.platform Batch (Double.engine 2) Scenario.pair
              (@fifo Double.platform Batch (Double.engine 2) Scenario.pair)
      = Some b2 /\
      match returned Scenario.pair_run, returned b2 with
      | (Some dr1, None), (Some dr2, None) =>
          map key (Diffs dr1)
          = [("components/gone", "staging"); ("components/foo", "staging")] /\
          map key (Diffs dr2)
          = [("components/foo", "staging"); ("components/gone", "staging")] /\
          Permutation (Diffs dr1) (Diffs dr2) /\
          TotalAdded dr1 = TotalAdded dr2
      | _, _ => False
      end).
Proof.
  assert (H1 : @run_of Double.platform Progressive (Double.engine 2)
                 Scenario.pair Scenario.pair_sched = Some Scenario.pair_run)
    by (vm_compute; reflexivity).
  split; [exact H1|].
  destruct (@run_of Double.platform Batch (Double.engine 2) Scenario.pair
              (@fifo Double.platform Batch (Double.engine 2) Scenario.pair))
    as [b2|] eqn:H2; [|vm_compute in H2; discriminate].
  exists b2. split; [reflexivity|].
  pose proof (runs_agree Double.platform Progressive Batch (Double.engine 2)
                Scenario.pair _ _ _ _ H1 H2) as [_ Hagree].
  vm_compute in H2. injection H2 as <-.
  cbn [returned Scenario.pair_run] in *.
  destruct Hagree as (Hp & Ha & _).
  split; [reflexivity|]. split; [reflexivity|]. split; assumption.
Defined.

(* ================================================================== *)
(** ** How long a run takes, and when it cannot go on *)
(* ================================================================== *)

Lemma exec_weight {P : Platform} (v : variant) (e : Engine)
      (sched : list move) (s0 s : pool) :
  exec v e sched s0 = Some s ->
  (List.length sched + pool_weight s <= pool_weight s0)%nat.
Proof.
  revert s0. induction sched as [|m sched IH]; intros s0; cbn [exec].
  - intros [= <-]. cbn. lia.
  - destruct (step v e m s0) as [s1|] eqn:Hstep; [|discriminate].
    intros Hex. specialize (IH s1 Hex).
    pose proof (trans_weight v e _ _ (step_trans v e _ _ _ Hstep)).
    cbn [List.length]. lia.
Qed.

(** X5.  No interleaving of a run is longer than six moves for each job
    (start, build, diff, send, append, return); the pool makes no move that
    does not bring the run nearer to its end. *)
Theorem schedule_bounded (P : Platform) (v : variant) (e : Engine)
        (affected : affected_map) (sched : list move) (s : pool) :
  exec v e sched (init_pool (collect_jobs affected)) = Some s ->
  (List.length sched <= 6 * List.length (collect_jobs affected))%nat.
Proof.
  intros Hex. pose proof (exec_weight v e _ _ _ Hex) as H.
  unfold pool_weight at 2 in H. cbn [init_pool pending active active_weight
                                     fold_right] in H. lia.
Qed.

Lemma schedule_bounded_witness :
  @exec Double.platform Progressive (Double.engine 2) Scenario.pair_sched
        (init_pool (collect_jobs Scenario.pair)) <> None /\
  List.length Scenario.pair_sched = 12%nat /\
  (List.length Scenario.pair_sched
   <= 6 * List.length (collect_jobs Scenario.pair))%nat.
Proof.
  split; [vm_compute; discriminate|]. split; [reflexivity|].
  destruct (@exec Double.platform Progressive (Double.engine 2)
                  Scenario.pair_sched
                  (init_pool (collect_jobs Scenario.pair))) as [s|] eqn:Hex;
    [|vm_compute in Hex; discriminate].
  exact (schedule_bounded Double.platform Progressive (Double.engine 2)
           Scenario.pair Scenario.pair_sched s Hex).
Defined.

(** X6.  An Engine whose concurrency is zero (the zero value of the
    struct, which NewEngine never makes) cannot start a job: SetLimit(0)
    refuses every g.Go, and with at least one job neither Run nor
    RunProgressive returns. *)
Theorem zero_limit_never_returns (P : Platform) (v : variant) (e : Engine)
        (affected : affected_map) (sched : list move) :
  concurrency e = 0 ->
  collect_jobs affected <> [] ->
  run_of v e affected sched = None.
Proof.
  intros Hzero Hjobs.
  destruct (run_of v e affected sched) as [b|] eqn:Hrun; [|reflexivity].
  exfalso. destruct (run_of_pool v e _ _ _ Hrun) as (s & Hex & Hdone & _).
  destruct (collect_jobs affected) as [|j jobs]; [contradiction|].
  destruct sched as [|m sched]; cbn [exec] in Hex.
  - injection Hex as <-. discriminate.
  - destruct m as [|i]; cbn in Hex.
    + rewrite Hzero in Hex. discriminate.
    + destruct i; discriminate.
Qed.

Lemma zero_limit_never_returns_witness :
  concurrency (mkEngine (Double.repo Double.head_files)
                        (Double.repo Double.base_files) 0) = 0 /\
  collect_jobs Scenario.foo_only <> [] /\
  @run_of Double.platform Batch
          (mkEngine (Double.repo Double.head_files)
                    (Double.repo Double.base_files) 0)
          Scenario.foo_only [Launch] = None.
Proof.
  assert (H1 : concurrency (mkEngine (Double.repo Double.head_files)
                                     (Double.repo Double.base_files) 0) = 0)
    by reflexivity.
  assert (H2 : collect_jobs Scenario.foo_only <> [])
    by (vm_compute; discriminate).
  split; [exact H1|]. split; [exact H2|].
  exact (zero_limit_never_returns Double.platform Batch _ Scenario.foo_only
           [Launch] H1 H2).
Defined.

(* ================================================================== *)
(** ** Which error a run returns *)
(* ================================================================== *)

Lemma first_fatal_app {P : Platform} (e : Engine) (l1 l2 : list job) :
  first_fatal e (l1 ++ l2)
  = match first_fatal e l1 with
    | Some err => Some err
    | None => first_fatal e l2
    end.
Proof.
  induction l1 as [|j l1 IH]; cbn; [reflexivity|].
  destruct (fatal e j); [reflexivity | exact IH].
Qed.

Lemma first_error_trans {P : Platform} (v : variant) (e : Engine)
      (s s' : pool) :
  trans v e s s' ->
  Forall (pc_ok v e) (active s) ->
  g_err s = first_fatal e (finished s) ->
  g_err s' = first_fatal e (finished s').
Proof.
  intros Ht Hpc Hg.
  destruct Ht; cbn [active finished g_err] in *; try exact Hg.
  destruct (pc_ok_middle v e _ _ _ Hpc) as (_ & Hx & _).
  unfold pc_ok in Hx. cbn [fst snd] in Hx.
  rewrite first_fatal_app, <- Hg. cbn [first_fatal].
  destruct g; [reflexivity|]. rewrite Hx. destruct (fatal e j); reflexivity.
Qed.

Lemma first_error_exec {P : Platform} (v : variant) (e : Engine)
      (jobs : list job) (sched : list move) (s0 s : pool) :
  exec v e sched s0 = Some s ->
  Inv v e jobs s0 ->
  g_err s0 = first_fatal e (finished s0) ->
  g_err s = first_fatal e (finished s).
Proof.
  revert s0. induction sched as [|m sched IH]; intros s0; cbn [exec].
  - intros [= <-] _ H. exact H.
  - destruct (step v e m s0) as [s1|] eqn:Hstep; [|discriminate].
    intros Hex Hinv Hg.
    pose proof (step_trans v e _ _ _ Hstep) as Ht.
    apply (IH s1 Hex); [exact (Inv_trans v e _ _ _ Hinv Ht)|].
    exact (first_error_trans v e _ _ Ht (inv_pc _ _ _ _ Hinv) Hg).
Qed.

(** X7.  The error a run returns is the error of the failing job whose
    goroutine returned first: in the order in which the goroutines of the
    run returned, it is the wrapped computeDiff error of the first job that
    has one (and there is no error when there is no such job). *)
Theorem first_error_returned (P : Platform) (v : variant) (e : Engine)
        (affected : affected_map) (sched : list move) (b : behaviour) :
  run_of v e affected sched = Some b ->
  exists s,
    exec v e sched (init_pool (collect_jobs affected)) = Some s /\
    Permutation (finished s) (collect_jobs affected) /\
    snd (returned b) = first_fatal e (finished s).
Proof.
  intros Hrun.
  destruct (run_of_pool v e _ _ _ Hrun) as (s & Hex & Hdone & _ & _ & Hret).
  pose proof (Inv_init v e (collect_jobs affected)) as Hinit.
  pose proof (exec_Inv v e _ _ _ _ Hinit Hex) as Hinv.
  destruct (Inv_done v e _ _ Hinv Hdone) as (Hfin & _).
  exists s. split; [exact Hex|]. split; [exact Hfin|].
  rewrite <- (first_error_exec v e _ _ _ _ Hex Hinit eq_refl), Hret.
  destruct (g_err s); reflexivity.
Qed.

Lemma first_error_returned_witness :
  @run_of Double.broken_platform Batch Scenario.broken_engine
          Scenario.foo_only
          (@fifo Double.broken_platform Batch Scenario.broken_engine
                 Scenario.foo_only)
  = Some Scenario.failed_run /\
  snd (returned Scenario.failed_run)
  = @first_fatal Double.broken_platform Scenario.broken_engine
                 (collect_jobs Scenario.foo_only).
Proof.
  assert (H1 : @run_of Double.broken_platform Batch Scenario.broken_engine
                 Scenario.foo_only
                 (@fifo Double.broken_platform Batch Scenario.broken_engine
                        Scenario.foo_only)
               = Some Scenario.failed_run) by (vm_compute; reflexivity).
  split; [exact H1|].
  destruct (first_error_returned Double.broken_platform Batch
              Scenario.broken_engine Scenario.foo_only _ _ H1)
    as (s & _ & _ & _).
  vm_compute. reflexivity.
Defined.

(* ================================================================== *)
(** ** A pool as large as the job list *)
(* ================================================================== *)

Lemma collect_jobs_length (entry : Environment * list ComponentPath)
      (affected : affected_map) :
  List.length (collect_jobs (entry :: affected))
  = (List.length (snd entry) + List.length (collect_jobs affected))%nat.
Proof.
  unfold collect_jobs. cbn [flat_map]. rewrite length_app, length_map.
  reflexivity.
Qed.

Lemma total_jobs_from (affected : affected_map) (n : Z) :
  0 <= n ->
  n + Z.of_nat (List.length (collect_jobs affected)) <= int_max ->
  fold_left (fun n entry => int_add n (Z.of_nat (List.length (snd entry))))
            affected n
  = n + Z.of_nat (List.length (collect_jobs affected)).
Proof.
  revert n. induction affected as [|entry affected IH]; intros n Hn Hb.
  - cbn. lia.
  - rewrite collect_jobs_length in *. cbn [fold_left].
    unfold int_add at 2. rewrite int_wrap_small
      by (unfold int_min, int_max in *; lia).
    rewrite IH by lia. lia.
Qed.

Lemma total_jobs_length (affected : affected_map) :
  Z.of_nat (List.length (collect_jobs affected)) <= int_max ->
  total_jobs affected = Z.of_nat (List.length (collect_jobs affected)).
Proof.
  intros Hb. unfold total_jobs. rewrite total_jobs_from by lia. lia.
Qed.

(** X8.  main counts the jobs exactly as Run collects them, so the count is
    zero precisely when Run would return at once; and an engine made with
    that count as its concurrency never makes g.Go wait: whenever a job is
    still to be started, a slot is free. *)
Theorem sized_pool_never_blocks (P : Platform) (v : variant)
        (hd bs : RepoBuilder) (affected : affected_map)
        (sched : list move) (s : pool) :
  let e := NewEngine hd bs (total_jobs affected) in
  Z.of_nat (List.length (collect_jobs affected)) <= int_max ->
  collect_jobs affected <> [] ->
  exec v e sched (init_pool (collect_jobs affected)) = Some s ->
  total_jobs affected = Z.of_nat (List.length (collect_jobs affected)) /\
  concurrency e = Z.of_nat (List.length (collect_jobs affected)) /\
  (pending s <> [] -> exists s', step v e Launch s = Some s').
Proof.
  intros e Hb Hjobs Hex.
  pose proof (total_jobs_length affected Hb) as Htot.
  assert (Hpos : 0 < Z.of_nat (List.length (collect_jobs affected))).
  { destruct (collect_jobs affected); [contradiction | cbn; lia]. }
  assert (Hc : concurrency e = Z.of_nat (List.length (collect_jobs affected))).
  { unfold e, NewEngine. cbn [concurrency]. rewrite Htot.
    destruct (Z.leb_spec (Z.of_nat (List.length (collect_jobs affected))) 0);
      [lia | reflexivity]. }
  split; [exact Htot|]. split; [exact Hc|].
  intros Hpend.
  pose proof (exec_Inv v e _ _ _ _ (Inv_init v e _) Hex) as Hinv.
  pose proof (Permutation_length (inv_jobs _ _ _ _ Hinv)) as Hlen.
  rewrite !length_app, length_map in Hlen.
  cbn [step]. destruct (pending s) as [|j rest]; [contradiction|].
  cbn [List.length] in Hlen.
  assert (Hfree : slot_free (concurrency e) (List.length (active s)) = true).
  { unfold slot_free. rewrite Hc. apply orb_true_iff. right.
    apply Z.ltb_lt. lia. }
  rewrite Hfree. eexists. reflexivity.
Qed.

Lemma sized_pool_never_blocks_witness :
  Z.of_nat (List.length (collect_jobs Scenario.mixed)) <= int_max /\
  collect_jobs Scenario.mixed <> [] /\
  total_jobs Scenario.mixed = 7 /\
  exists s,
    @exec Double.platform Batch
          (@NewEngine Double.platform (Double.repo Double.head_files)
                      (Double.repo Double.base_files)
                      (total_jobs Scenario.mixed))
          [Launch; Launch; Launch; Launch; Launch; Launch]
          (init_pool (collect_jobs Scenario.mixed)) = Some s /\
    List.length (active s) = 6%nat /\
    exists s',
      @step Double.platform Batch
            (@NewEngine Double.platform (Double.repo Double.head_files)
                        (Double.repo Double.base_files)
                        (total_jobs Scenario.mixed))
            Launch s = Some s'.
Proof.
  assert (H1 : Z.of_nat (List.length (collect_jobs Scenario.mixed)) <= int_max)
    by (vm_compute; discriminate).
  assert (H2 : collect_jobs Scenario.mixed <> [])
    by (vm_compute; discriminate).
  split; [exact H1|]. split; [exact H2|]. split; [reflexivity|].
  destruct (@exec Double.platform Batch
              (@NewEngine Double.platform (Double.repo Double.head_files)
                          (Double.repo Double.base_files)
                          (total_jobs Scenario.mixed))
              [Launch; Launch; Launch; Launch; Launch; Launch]
              (init_pool (collect_jobs Scenario.mixed))) as [s|] eqn:Hex;
    [|vm_compute in Hex; discriminate].
  exists s. split; [reflexivity|].
  destruct (sized_pool_never_blocks Double.platform Batch
              (Double.repo Double.head_files) (Double.repo Double.base_files)
              Scenario.mixed _ s H1 H2 Hex) as (_ & _ & Hgo).
  vm_compute in Hex. injection Hex as <-.
  split; [reflexivity|]. apply Hgo. cbn. discriminate.
Defined.

(* ================================================================== *)
(** ** The log of a run *)
(* ================================================================== *)

Lemma warned_length {P : Platform} (e : Engine) (jobs : list job) :
  List.length (flat_map (warned e) jobs)
  = List.length (filter (build_failed_job e) jobs).
Proof.
  induction jobs as [|j jobs IH]; cbn [flat_map filter]; [reflexivity|].
  rewrite length_app, IH. unfold warned, build_failed_job.
  destruct (job_outcome e j); reflexivity.
Qed.

(** X9.  A run logs one warning for each job whose build failed and nothing
    else: every record it writes is the "skipping component" warning of
    such a job, with that job's path and environment and the error
    buildPair returned, and the number of records is the number of such
    jobs. *)
Theorem log_is_the_build_failures (P : Platform) (v : variant) (e : Engine)
        (affected : affected_map) (sched : list move) (b : behaviour) :
  run_of v e affected sched = Some b ->
  List.length (logged b)
  = List.length (filter (build_failed_job e) (collect_jobs affected)) /\
  forall r, In r (logged b) ->
    exists j err,
      In j (collect_jobs affected) /\
      job_outcome e j = BuildFailed err /\
      snd (buildPair e (FromComponentPath (cp j) (env j))) = Some err /\
      r = warn_skipping j err.
Proof.
  intros Hrun. destruct (run_of_spec v e _ _ _ Hrun) as (Hlog & _).
  split.
  - rewrite (Permutation_length Hlog). apply warned_length.
  - intros r Hin. apply (Permutation_in _ Hlog), in_flat_map in Hin.
    destruct Hin as (j & Hj & Hr). exists j.
    unfold warned in Hr. destruct (job_outcome e j) as [err| | |] eqn:Ho;
      try contradiction.
    destruct Hr as [<-|[]]. exists err.
    split; [exact Hj|]. split; [reflexivity|]. split; [|reflexivity].
    unfold job_outcome in Ho.
    destruct (buildPair e _) as [cd [berr|]]; cbn [snd].
    + congruence.
    + destruct (computeDiff cd) as [cd' [derr|]]; [discriminate|].
      destruct (HasDiff cd'); discriminate.
Qed.

Lemma log_is_the_build_failures_witness :
  @run_of Double.platform Batch (Double.engine 2) Scenario.mixed
          Scenario.mixed_fifo = Some Scenario.mixed_run /\
  List.length (logged Scenario.mixed_run) = 2%nat /\
  List.length (filter (@build_failed_job Double.platform (Double.engine 2))
                      (collect_jobs Scenario.mixed)) = 2%nat.
Proof.
  assert (H1 : @run_of Double.platform Batch (Double.engine 2) Scenario.mixed
                       Scenario.mixed_fifo = Some Scenario.mixed_run)
    by (vm_compute; reflexivity).
  split; [exact H1|]. split; [reflexivity|].
  rewrite <- (proj1 (log_is_the_build_failures Double.platform Batch
                       (Double.engine 2) Scenario.mixed Scenario.mixed_fifo
                       Scenario.mixed_run H1)).
  reflexivity.
Defined.

(* ================================================================== *)
(** ** Jobs start in the order of the job list *)
(* ================================================================== *)

Lemma pending_suffix_trans {P : Platform} (v : variant) (e : Engine)
      (jobs : list job) (s s' : pool) :
  trans v e s s' ->
  (exists started, jobs = started ++ pending s) ->
  exists started, jobs = started ++ pending s'.
Proof.
  intros Ht [started Hs]. destruct Ht; cbn [pending] in *;
    try (exists started; exact Hs).
  exists (started ++ [j]). rewrite <- app_assoc. exact Hs.
Qed.

Lemma pending_suffix_exec {P : Platform} (v : variant) (e : Engine)
      (jobs : list job) (sched : list move) (s0 s : pool) :
  exec v e sched s0 = Some s ->
  (exists started, jobs = started ++ pending s0) ->
  exists started, jobs = started ++ pending s.
Proof.
  revert s0. induction sched as [|m sched IH]; intros s0; cbn [exec].
  - intros [= <-] H. exact H.
  - destruct (step v e m s0) as [s1|] eqn:Hstep; [|discriminate].
    intros Hex Hs. apply (IH s1 Hex).
    exact (pending_suffix_trans v e jobs _ _ (step_trans v e _ _ _ Hstep) Hs).
Qed.

(** X10.  Goroutines are started in the order of the job list: at every
    point of a run the jobs not yet started are a tail of the job list, and
    the jobs before that tail are the ones running or returned. *)
Theorem jobs_start_in_order (P : Platform) (v : variant) (e : Engine)
        (affected : affected_map) (sched : list move) (s : pool) :
  exec v e sched (init_pool (collect_jobs affected)) = Some s ->
  exists started,
    collect_jobs affected = started ++ pending s /\
    Permutation started (finished s ++ map fst (active s)).
Proof.
  intros Hex.
  destruct (pending_suffix_exec v e (collect_jobs affected) _ _ _ Hex)
    as [started Hs]; [exists []; reflexivity|].
  exists started. split; [exact Hs|].
  pose proof (inv_jobs _ _ _ _ (exec_Inv v e _ _ _ _ (Inv_init v e _) Hex))
    as Hperm.
  rewrite Hs, (app_assoc (finished s)) in Hperm.
  exact (Permutation_app_inv_r _ _ _ Hperm).
Qed.

Lemma jobs_start_in_order_witness :
  @exec Double.platform Batch (Double.engine 2) Scenario.two_started
        (init_pool (collect_jobs Scenario.mixed))
  = Some Scenario.two_started_pool /\
  collect_jobs Scenario.mixed
  = [Scenario.job_of "components/foo"; Scenario.job_of "components/bar"]
      ++ pending Scenario.two_started_pool /\
  map fst (active Scenario.two_started_pool)
  = [Scenario.job_of "components/foo"; Scenario.job_of "components/bar"].
Proof.
  assert (H1 : @exec Double.platform Batch (Double.engine 2)
                     Scenario.two_started
                     (init_pool (collect_jobs Scenario.mixed))
               = Some Scenario.two_started_pool)
    by (vm_compute; reflexivity).
  destruct (jobs_start_in_order Double.platform Batch (Double.engine 2)
              Scenario.mixed Scenario.two_started Scenario.two_started_pool H1)
    as (started & _ & _).
  split; [exact H1|]. split; reflexivity.
Defined.

(* ================================================================== *)
(** ** RunProgressive while it runs *)
(* ================================================================== *)

Lemma sent_covers_appended {P : Platform} (e : Engine)
      (a : list (job * pc)) :
  Forall (pc_ok Progressive e) a ->
  Permutation (flat_map (sent_by Progressive e) a)
              (flat_map (appended_by e) a
               ++ flat_map (fun x => match snd x with
                                     | AtAppend cd => [cd]
                                     | _ => []
                                     end) a).
Proof.
  induction 1 as [|[j p] a Hx _ IH]; cbn [flat_map]; [reflexivity|].
  unfold sent_by at 1, appended_by at 1. cbn [fst snd].
  unfold pc_ok in Hx. cbn [fst snd] in Hx.
  destruct p as [|cd|cd|cd|r]; cbn [has_sent has_appended app].
  - exact IH.
  - exact IH.
  - exact IH.
  - unfold emitted. rewrite Hx. cbn [app]. rewrite IH.
    apply Permutation_middle.
  - rewrite <- app_assoc. apply Permutation_app_head. exact IH.
Qed.

(** X11.  At every point of RunProgressive: each entry already in the
    result has been sent on the channel before; the values sent and not yet
    in the result are those of the goroutines that are about to take the
    mutex; the two counters of the result are the sums (in Go's int) over
    the entries it holds; and the channel has not been closed. *)
Theorem progressive_result_follows_channel (P : Platform) (e : Engine)
        (affected : affected_map) (sched : list move) (s : pool) :
  exec Progressive e sched (init_pool (collect_jobs affected)) = Some s ->
  Permutation (sent_values (out s)) (Diffs (acc s) ++ awaiting_append s) /\
  (List.length (Diffs (acc s)) <= List.length (sent_values (out s)))%nat /\
  TotalAdded (acc s) = int_wrap (Zsum (map Added (Diffs (acc s)))) /\
  TotalRemoved (acc s) = int_wrap (Zsum (map Removed (Diffs (acc s)))) /\
  closes (out s) = O.
Proof.
  intros Hex.
  pose proof (exec_Inv Progressive e _ _ _ _ (Inv_init Progressive e _) Hex)
    as [_ Hpc Hdiffs Htot Hsent Hopen _ _ _].
  assert (Hp : Permutation (sent_values (out s))
                           (Diffs (acc s) ++ awaiting_append s)).
  { rewrite Hsent, Hdiffs. unfold sent_so_far, awaiting_append.
    rewrite <- app_assoc. apply Permutation_app_head.
    apply sent_covers_appended. exact Hpc. }
  split; [exact Hp|]. split.
  - rewrite (Permutation_length Hp), length_app. lia.
  - destruct Htot as [Ha Hr]. auto.
Qed.

Lemma progressive_result_follows_channel_witness :
  exists s,
    @exec Double.platform Progressive (Double.engine 2)
          [Launch; Launch; Advance 1; Advance 0; Advance 1; Advance 0;
           Advance 0]
          (init_pool (collect_jobs Scenario.pair)) = Some s /\
    map key (sent_values (out s)) = [("components/foo", "staging")] /\
    Diffs (acc s) = [] /\
    map key (awaiting_append s) = [("components/foo", "staging")].
Proof.
  destruct (@exec Double.platform Progressive (Double.engine 2)
              [Launch; Launch; Advance 1; Advance 0; Advance 1; Advance 0;
               Advance 0]
              (init_pool (collect_jobs Scenario.pair))) as [s|] eqn:Hex;
    [|vm_compute in Hex; discriminate].
  exists s. split; [reflexivity|].
  pose proof (progressive_result_follows_channel Double.platform
                (Double.engine 2) Scenario.pair _ s Hex) as (Hp & _).
  vm_compute in Hex. injection Hex as <-.
  repeat split.
Defined.

(* ================================================================== *)
(** ** One goroutine at a time *)
(* ================================================================== *)

Section InOrderFacts.
Context {P : Platform}.
Variable v : variant.
Variable e : Engine.

Lemma single_middle {X : Type} (a1 a2 : list X) (x : X) :
  (List.length (a1 ++ x :: a2) <= 1)%nat -> a1 = [] /\ a2 = [].
Proof.
  rewrite length_app. cbn [List.length].
  destruct a1, a2; cbn [List.length]; intros H; try lia. auto.
Qed.

Ltac alone H :=
  match type of H with
  | (List.length (?a1 ++ _ :: ?a2) <= 1)%nat =>
      destruct (single_middle _ _ _ H) as [-> ->]
  end.

Ltac flat :=
  unfold sent_so_far, appended_by, sent_by, logged_by in *;
  cbn [pending active finished acc g_err out log] in *;
  rewrite ?flat_map_app in *;
  cbn [flat_map map fst snd has_appended has_sent has_built app] in *;
  rewrite ?app_nil_r in *.

Lemma InOrder_trans (jobs : list job) (s s' : pool) :
  Inv v e jobs s -> InOrder v e jobs s -> trans v e s s' ->
  (List.length (active s) <= 1)%nat -> (List.length (active s') <= 1)%nat ->
  InOrder v e jobs s'.
Proof.
  intros Hinv [Hjobs Hdiffs Hsent Hlog] Ht Hone Hone'.
  pose proof (inv_pc _ _ _ _ Hinv) as Hpc.
  destruct Ht; cbn [pending active finished acc g_err out log] in *.
  - (* launch *)
    destruct a as [|x a]; [|rewrite length_app in Hone'; cbn in Hone'; lia].
    constructor; flat.
    + exact Hjobs.
    + exact Hdiffs.
    + destruct v; flat; exact Hsent.
    + exact Hlog.
  - (* buildPair failed *)
    alone Hone. pose proof (outcome_build_failed e _ _ _ H) as Ho.
    constructor; flat; unfold emitted, warned in *; rewrite ?Ho; flat.
    + exact Hjobs.
    + exact Hdiffs.
    + destruct v; flat; rewrite ?Ho; flat; exact Hsent.
    + rewrite Hlog. reflexivity.
  - (* buildPair succeeded *)
    alone Hone. pose proof (built_not_warned e _ _ H) as Hw.
    constructor; flat; rewrite ?Hw; flat.
    + exact Hjobs.
    + exact Hdiffs.
    + destruct v; flat; exact Hsent.
    + exact Hlog.
  - (* computeDiff failed *)
    alone Hone. pose proof (Forall_inv Hpc) as Hx.
    unfold pc_ok in Hx. cbn [fst snd] in Hx.
    pose proof (outcome_diff_failed e _ _ _ _ Hx H) as Ho.
    constructor; flat; unfold emitted in *; rewrite ?Ho; flat.
    + exact Hjobs.
    + exact Hdiffs.
    + destruct v; flat; rewrite ?Ho; flat; exact Hsent.
    + exact Hlog.
  - (* computeDiff found no difference *)
    alone Hone. pose proof (Forall_inv Hpc) as Hx.
    unfold pc_ok in Hx. cbn [fst snd] in Hx.
    pose proof (outcome_unchanged e _ _ _ Hx H H0) as Ho.
    constructor; flat; unfold emitted in *; rewrite ?Ho; flat.
    + exact Hjobs.
    + exact Hdiffs.
    + destruct v; flat; rewrite ?Ho; flat; exact Hsent.
    + exact Hlog.
  - (* computeDiff found a difference *)
    alone Hone.
    constructor; flat.
    + exact Hjobs.
    + destruct v; flat; exact Hdiffs.
    + destruct v; flat; exact Hsent.
    + destruct v; flat; exact Hlog.
  - (* send *)
    alone Hone. pose proof (Forall_inv Hpc) as Hx.
    unfold pc_ok in Hx. cbn [fst snd] in Hx. destruct Hx as [Hv Ho].
    constructor; flat.
    + exact Hjobs.
    + exact Hdiffs.
    + subst v. flat. unfold sent_values in *. rewrite flat_map_app.
      cbn [flat_map app]. rewrite Hsent. unfold emitted. rewrite Ho.
      reflexivity.
    + exact Hlog.
  - (* append *)
    alone Hone. pose proof (Forall_inv Hpc) as Hx.
    unfold pc_ok in Hx. cbn [fst snd] in Hx.
    constructor; flat; unfold emitted in *; rewrite ?Hx in *; flat.
    + exact Hjobs.
    + replace (Diffs (append_result v r cd)) with (Diffs r ++ [cd])
        by (destruct v; reflexivity).
      rewrite Hdiffs. reflexivity.
    + destruct v; flat; rewrite ?Hx in *; exact Hsent.
    + exact Hlog.
  - (* return *)
    alone Hone.
    constructor; flat.
    + rewrite Hjobs, <- app_assoc. reflexivity.
    + exact Hdiffs.
    + destruct v; flat; exact Hsent.
    + exact Hlog.
Qed.

Lemma InOrder_exec (jobs : list job) (sched : list move) (s0 s : pool) :
  concurrency e = 1 ->
  exec v e sched s0 = Some s ->
  Inv v e jobs s0 -> InOrder v e jobs s0 -> InOrder v e jobs s.
Proof.
  intros Hone. revert s0. induction sched as [|m sched IH]; intros s0;
    cbn [exec].
  - intros [= <-] _ H. exact H.
  - destruct (step v e m s0) as [s1|] eqn:Hstep; [|discriminate].
    intros Hex Hinv Hord.
    pose proof (step_trans v e _ _ _ Hstep) as Ht.
    pose proof (Inv_trans v e _ _ _ Hinv Ht) as Hinv1.
    apply (IH s1 Hex Hinv1).
    apply (InOrder_trans jobs s0 s1 Hinv Hord Ht).
    + pose proof (inv_limit _ _ _ _ Hinv). lia.
    + pose proof (inv_limit _ _ _ _ Hinv1). lia.
Qed.
End InOrderFacts.

(** X12.  With a concurrency of one the engine works through the job list
    in order: a returned DiffResult has its entries in the order of the
    jobs, the warnings are logged in that order, and RunProgressive sends
    the entries in that order before it closes the channel. *)
Theorem one_at_a_time_in_order (P : Platform) (v : variant) (e : Engine)
        (affected : affected_map) (sched : list move) (b : behaviour) :
  concurrency e = 1 ->
  run_of v e affected sched = Some b ->
  let jobs := collect_jobs affected in
  (forall dr, fst (returned b) = Some dr -> Diffs dr = expected_diffs e jobs) /\
  logged b = flat_map (warned e) jobs /\
  sent_values (channel b) = match v with
                            | Progressive => expected_diffs e jobs
                            | Batch => []
                            end.
Proof.
  intros Hone Hrun jobs.
  destruct (run_of_pool v e _ _ _ Hrun) as (s & Hex & Hdone & Hlog & Hch & Hret).
  pose proof (Inv_init v e jobs) as Hinit.
  assert (Hord0 : InOrder v e jobs (init_pool jobs)).
  { constructor; cbn; try reflexivity. unfold sent_so_far.
    destruct v; reflexivity. }
  destruct (InOrder_exec v e jobs _ _ _ Hone Hex Hinit Hord0)
    as [Hj Hd Hs Hl].
  destruct (all_done_nil s Hdone) as [Hp Ha].
  unfold sent_so_far in Hs. rewrite Hp, Ha in *.
  cbn [map flat_map app] in *. rewrite !app_nil_r in *.
  unfold expected_diffs. rewrite Hj.
  split; [|split].
  - intros dr Hdr. rewrite Hret in Hdr.
    destruct (g_err s); cbn in Hdr; [discriminate|]. injection Hdr as <-.
    destruct v; [rewrite sum_totals_spec|]; exact Hd.
  - rewrite Hlog. exact Hl.
  - rewrite Hch. destruct v; [exact Hs|].
    rewrite sent_values_closed. exact Hs.
Qed.

Lemma one_at_a_time_in_order_witness :
  concurrency (Double.engine 1) = 1 /\
  (exists b,
      @run_of Double.platform Progressive (Double.engine 1) Scenario.mixed
              (@fifo Double.platform Progressive (Double.engine 1)
                     Scenario.mixed) = Some b /\
      map key (sent_values (channel b))
      = [("components/foo", "staging"); ("components/bar", "staging");
         ("components/gone", "staging")]) /\
  @step Double.platform Progressive (Double.engine 1) Launch
        (mkPool [Scenario.job_of "components/bar"]
                [(Scenario.job_of "components/foo", AtBuild)]
                [] empty_DiffResult None [] []) = None.
Proof.
  assert (H1 : concurrency (Double.engine 1) = 1) by reflexivity.
  split; [exact H1|]. split; [|vm_compute; reflexivity].
  destruct (@run_of Double.platform Progressive (Double.engine 1)
              Scenario.mixed
              (@fifo Double.platform Progressive (Double.engine 1)
                     Scenario.mixed)) as [b|] eqn:Hrun;
    [|vm_compute in Hrun; discriminate].
  exists b. split; [reflexivity|].
  destruct (one_at_a_time_in_order Double.platform Progressive
              (Double.engine 1) Scenario.mixed _ b H1 Hrun) as (_ & _ & Hs).
  rewrite Hs. vm_compute. reflexivity.
Defined.

(* ================================================================== *)
(** ** More on countStats and computeDiff *)
(* ================================================================== *)

Lemma strings_Split_nonempty (s : string) (sep : ascii) :
  strings_Split s sep <> [].
Proof.
  destruct s as [|c rest]; cbn; [discriminate|].
  destruct (Ascii.eqb c sep); [discriminate|].
  destruct (strings_Split rest sep); discriminate.
Qed.

Lemma strings_Split_app (a b : string) (sep : ascii) :
  strings_Split (a ++ String sep b) sep
  = strings_Split a sep ++ strings_Split b sep.
Proof.
  induction a as [|c a IH]; cbn.
  - rewrite Ascii.eqb_refl. reflexivity.
  - destruct (Ascii.eqb c sep); [rewrite IH; reflexivity|].
    rewrite IH. pose proof (strings_Split_nonempty a sep) as Hne.
    destruct (strings_Split a sep) as [|piece pieces]; [contradiction|].
    reflexivity.
Qed.

Lemma length_append (a b : string) :
  String.length (a ++ b) = (String.length a + String.length b)%nat.
Proof. induction a as [|c a IH]; cbn; [reflexivity|]. rewrite IH. reflexivity. Qed.

(** X13.  The counts of countStats add up over texts put one after the
    other on separate lines: for two texts joined by a newline, Added and
    Removed are the sums of the counts of the two. *)
Theorem countStats_additive (a b : string) :
  Z.of_nat (String.length (a ++ nl ++ b)) <= int_max ->
  countStats (a ++ nl ++ b)
  = (fst (countStats a) + fst (countStats b),
     snd (countStats a) + snd (countStats b)).
Proof.
  intros Hlen. rewrite length_append in Hlen. cbn [nl append] in *.
  cbn [String.length] in Hlen.
  rewrite !countStats_counts; [| lia | lia |].
  - unfold count_added, count_removed, lines_of.
    rewrite strings_Split_app, !filter_app, !length_app. cbn [fst snd].
    f_equal; lia.
  - rewrite length_append. cbn [String.length]. lia.
Qed.

Lemma countStats_additive_witness :
  Z.of_nat (String.length (Double.foo_diff ++ nl ++ Double.bar_diff))
  <= int_max /\
  countStats (Double.foo_diff ++ nl ++ Double.bar_diff) = (2, 1).
Proof.
  assert (H : Z.of_nat (String.length
                          (Double.foo_diff ++ nl ++ Double.bar_diff))
              <= int_max) by (vm_compute; discriminate).
  split; [exact H|].
  rewrite (countStats_additive Double.foo_diff Double.bar_diff H).
  reflexivity.
Defined.

Lemma filter_both_length {X : Type} (f g : X -> bool) (l : list X) :
  (forall x, f x = true -> g x = false) ->
  (List.length (filter f l) + List.length (filter g l) <= List.length l)%nat.
Proof.
  intros Hfg. induction l as [|x l IH]; cbn; [lia|].
  destruct (f x) eqn:Hf; [rewrite (Hfg x Hf)|destruct (g x)];
    cbn [List.length]; lia.
Qed.

(** X14.  For every text a Go string can hold, the counts of countStats are
    exact (the int never wraps): Added is the number of lines that start
    with "+" but not with "+++", Removed the number of lines that start
    with "-" but not with "---".  So they are not negative, and together
    no more than the number of lines of the text and than its length; a
    line is never counted both as added and as removed. *)
Theorem countStats_bounds (text : string) :
  Z.of_nat (String.length text) <= int_max ->
  countStats text
  = (Z.of_nat (count_added text), Z.of_nat (count_removed text)) /\
  (forall line, is_added_line line = true -> is_removed_line line = false) /\
  0 <= fst (countStats text) /\ 0 <= snd (countStats text) /\
  fst (countStats text) + snd (countStats text)
  <= Z.of_nat (List.length (lines_of text)) /\
  fst (countStats text) + snd (countStats text)
  <= Z.of_nat (String.length text).
Proof.
  intros Hlen. split; [exact (countStats_counts text Hlen)|].
  split; [exact added_removed_disjoint|].
  rewrite (countStats_counts text Hlen). cbn [fst snd].
  pose proof (count_bound text) as Hb.
  pose proof (filter_both_length is_added_line is_removed_line
                (lines_of text) added_removed_disjoint) as Hl.
  unfold count_added, count_removed in *. lia.
Qed.

Lemma countStats_bounds_witness :
  Z.of_nat (String.length Double.docs_diff) <= int_max /\
  countStats Double.docs_diff = (0, 1) /\
  count_removed Double.docs_diff = 1%nat /\
  fst (countStats Double.docs_diff) + snd (countStats Double.docs_diff)
  <= Z.of_nat (List.length (lines_of Double.docs_diff)).
Proof.
  assert (H : Z.of_nat (String.length Double.docs_diff) <= int_max)
    by (vm_compute; discriminate).
  split; [exact H|].
  destruct (countStats_bounds Double.docs_diff H) as (Heq & _ & _ & _ & Hl & _).
  split; [rewrite Heq; reflexivity|]. split; [reflexivity|]. exact Hl.
Defined.

(** X15.  computeDiff can be called again without harm: a second call on
    the receiver left by the first returns the same error and leaves the
    same receiver. *)
Theorem computeDiff_idempotent (P : Platform) (cd : ComponentDiff) :
  computeDiff (fst (computeDiff cd)) = computeDiff cd.
Proof.
  unfold computeDiff at 2.
  destruct (String.eqb _ _) eqn:Heq.
  - cbn [fst]. unfold computeDiff. rewrite Heq. reflexivity.
  - destruct (difflib_GetUnifiedDiffString _) as [text [err|]] eqn:Hlib.
    + cbn [fst]. unfold computeDiff. rewrite Heq, Hlib. reflexivity.
    + destruct (countStats text) as [a r] eqn:Hc. cbn [fst].
      unfold computeDiff.
      cbn [set_Diff BaseYAML HeadYAML Path].
      rewrite Heq, Hlib, Hc. reflexivity.
Qed.

(* ================================================================== *)
(** ** colorDiff *)
(* ================================================================== *)

Lemma prefix_first (p line : string) (c d : ascii) (rest : string) :
  String.prefix (String c p) (String d rest) = true -> d = c.
Proof.
  cbn. destruct (ascii_dec c d) as [->|]; [reflexivity | discriminate].
Qed.

Lemma green_is_added (line : string) :
  match lineStyle line with Green => true | _ => false end
  = is_added_line line.
Proof.
  unfold lineStyle, is_added_line, strings_HasPrefix.
  change "+" with (String "+"%char EmptyString). rewrite prefix_one.
  destruct line as [|c rest]; [reflexivity|].
  destruct (String.prefix "+++" (String c rest)) eqn:Hp3; cbn [orb negb].
  - rewrite andb_false_r. reflexivity.
  - destruct (String.prefix "---" (String c rest)) eqn:Hm3.
    + rewrite (prefix_first _ EmptyString _ _ _ Hm3). reflexivity.
    + destruct (String.prefix "@@" (String c rest)) eqn:Hat.
      * rewrite (prefix_first _ EmptyString _ _ _ Hat). reflexivity.
      * rewrite andb_true_r. destruct (Ascii.eqb c "+"); [reflexivity|].
        destruct (Ascii.eqb c "-"); reflexivity.
Qed.

Lemma red_is_removed (line : string) :
  match lineStyle line with Red => true | _ => false end
  = is_removed_line line.
Proof.
  unfold lineStyle, is_removed_line, strings_HasPrefix.
  change "-" with (String "-"%char EmptyString). rewrite prefix_one.
  destruct line as [|c rest]; [reflexivity|].
  destruct (String.prefix "---" (String c rest)) eqn:Hm3; cbn [orb negb].
  - rewrite andb_false_r, orb_true_r. reflexivity.
  - rewrite orb_false_r.
    destruct (String.prefix "+++" (String c rest)) eqn:Hp3.
    + rewrite (prefix_first _ EmptyString _ _ _ Hp3). reflexivity.
    + destruct (String.prefix "@@" (String c rest)) eqn:Hat.
      * rewrite (prefix_first _ EmptyString _ _ _ Hat). reflexivity.
      * rewrite andb_true_r. destruct (Ascii.eqb c "+") eqn:Hplus.
        -- apply Ascii.eqb_eq in Hplus. subst c. reflexivity.
        -- destruct (Ascii.eqb c "-"); reflexivity.
Qed.

(** X16.  colorDiff and countStats read a diff text alike: the lines
    colorDiff prints in green are the lines countStats counts as added and
    the lines it prints in red are those counted as removed, so Added and
    Removed are the numbers of green and of red lines. *)
Theorem colours_match_counts (diff : string) :
  Z.of_nat (String.length diff) <= int_max ->
  countStats diff
  = (Z.of_nat (List.length
                 (filter (fun l => match lineStyle l with
                                   | Green => true
                                   | _ => false
                                   end) (lines_of diff))),
     Z.of_nat (List.length
                 (filter (fun l => match lineStyle l with
                                   | Red => true
                                   | _ => false
                                   end) (lines_of diff)))).
Proof.
  intros Hlen. rewrite (countStats_counts diff Hlen).
  unfold count_added, count_removed.
  f_equal; f_equal; f_equal; symmetry; apply filter_agree;
    apply Forall_forall; intros l _;
    [apply green_is_added | apply red_is_removed].
Qed.

Lemma colours_match_counts_witness :
  Z.of_nat (String.length Double.docs_diff) <= int_max /\
  map lineStyle (lines_of Double.docs_diff)
  = [Bold; Bold; Cyan; Plain; Bold; Red; Plain; Blank] /\
  countStats Double.docs_diff = (0, 1).
Proof.
  assert (H : Z.of_nat (String.length Double.docs_diff) <= int_max)
    by (vm_compute; discriminate).
  split; [exact H|]. split; [vm_compute; reflexivity|].
  rewrite (colours_match_counts Double.docs_diff H). reflexivity.
Defined.

Lemma append_assoc' (a b c : string) : ((a ++ b) ++ c = a ++ (b ++ c))%string.
Proof. induction a as [|x a IH]; cbn; [reflexivity|]. rewrite IH. reflexivity. Qed.

Lemma has_byte_append (c : ascii) (a b : string) :
  has_byte c (a ++ b) = has_byte c a || has_byte c b.
Proof.
  induction a as [|x a IH]; cbn; [reflexivity|]. rewrite IH.
  apply orb_assoc.
Qed.

Lemma drop_sgr_plain (s t : string) :
  has_byte esc s = false ->
  drop_sgr false (s ++ t) = (s ++ drop_sgr false t)%string.
Proof.
  induction s as [|c s IH]; cbn [has_byte append drop_sgr]; [reflexivity|].
  intros H. apply orb_false_iff in H. destruct H as [Hc Hs].
  rewrite Hc, IH by exact Hs. reflexivity.
Qed.

Lemma drop_sgr_line (line t : string) :
  has_byte esc line = false ->
  drop_sgr false (printLine (lineStyle line) line ++ t)
  = (line ++ nl ++ drop_sgr false t)%string.
Proof.
  intros Hline.
  assert (Hsgr : forall code,
             In code ["1"; "36"; "32"; "31"]%string ->
             drop_sgr false (sgr code line ++ t)
             = (line ++ nl ++ drop_sgr false t)%string).
  { intros code Hcode. unfold sgr.
    destruct Hcode as [<-|[<-|[<-|[<-|[]]]]];
      cbn [append drop_sgr Ascii.eqb Bool.eqb esc negb andb];
      rewrite !append_assoc', drop_sgr_plain by exact Hline; reflexivity. }
  destruct (lineStyle line) eqn:Hst; cbn [printLine].
  - destruct line as [|c rest]; [reflexivity|].
    unfold lineStyle in Hst.
    destruct (_ || _); [discriminate|]. destruct (strings_HasPrefix _ "@@");
      [discriminate|].
    destruct (Ascii.eqb c "+"); [discriminate|].
    destruct (Ascii.eqb c "-"); discriminate.
  - apply Hsgr. cbn. tauto.
  - apply Hsgr. cbn. tauto.
  - apply Hsgr. cbn. tauto.
  - apply Hsgr. cbn. tauto.
  - rewrite append_assoc', drop_sgr_plain by exact Hline. reflexivity.
Qed.

Lemma lines_without (c : ascii) (s : string) :
  has_byte c s = false ->
  Forall (fun l => has_byte c l = false) (strings_Split s nl_char).
Proof.
  induction s as [|d s IH]; cbn [has_byte strings_Split].
  - intros _. repeat constructor.
  - intros H. apply orb_false_iff in H. destruct H as [Hd Hs].
    specialize (IH Hs). destruct (Ascii.eqb d nl_char).
    + constructor; [reflexivity | exact IH].
    + destruct (strings_Split s nl_char) as [|piece pieces].
      * repeat constructor. cbn. rewrite Hd. reflexivity.
      * inversion IH as [|? ? Hp Hps]; subst. constructor; [|exact Hps].
        cbn. rewrite Hd, Hp. reflexivity.
Qed.

Lemma lines_printed (s : string) :
  printed (map (fun l => l ++ nl)%string (strings_Split s nl_char))
  = (s ++ nl)%string.
Proof.
  induction s as [|c s IH]; cbn [strings_Split]; [reflexivity|].
  destruct (Ascii.eqb c nl_char) eqn:Hc.
  - apply Ascii.eqb_eq in Hc. subst c. cbn [map printed fold_right].
    fold (printed (map (fun l => l ++ nl)%string (strings_Split s nl_char))).
    rewrite IH. reflexivity.
  - pose proof (strings_Split_nonempty s nl_char) as Hne.
    destruct (strings_Split s nl_char) as [|piece pieces]; [contradiction|].
    cbn [map printed fold_right append] in *. rewrite IH. reflexivity.
Qed.

(** X17.  Colour changes nothing of the text: for a diff without escape
    bytes, what colorDiff prints is, once the colour sequences are dropped,
    the diff itself followed by one newline. *)
Theorem colorDiff_keeps_text (diff : string) :
  has_byte esc diff = false ->
  drop_sgr false (colorDiff diff) = (diff ++ nl)%string.
Proof.
  intros Hdiff. rewrite <- (lines_printed diff). unfold colorDiff.
  pose proof (lines_without esc diff Hdiff) as Hlines.
  induction Hlines as [|line lines Hline _ IH]; [reflexivity|].
  cbn [map printed fold_right].
  fold (printed (map (fun l => printLine (lineStyle l) l) lines)).
  fold (printed (map (fun l => l ++ nl)%string lines)).
  rewrite (drop_sgr_line line _ Hline), IH, append_assoc'. reflexivity.
Qed.

Lemma colorDiff_keeps_text_witness :
  has_byte esc Double.foo_diff = false /\
  drop_sgr false (colorDiff Double.foo_diff) = (Double.foo_diff ++ nl)%string.
Proof.
  assert (H : has_byte esc Double.foo_diff = false) by (vm_compute; reflexivity).
  split; [exact H|].
  exact (colorDiff_keeps_text Double.foo_diff H).
Defined.

(* ================================================================== *)
(** ** diffFileName *)
(* ================================================================== *)

Lemma replaced_no_slash (p : string) :
  has_byte "/" (strings_ReplaceAll p "/" "__") = false.
Proof.
  induction p as [|c p IH]; cbn [strings_ReplaceAll]; [reflexivity|].
  destruct (Ascii.eqb c "/") eqn:Hc.
  - rewrite has_byte_append, IH. reflexivity.
  - cbn [has_byte]. rewrite Hc, IH. reflexivity.
Qed.

(** X18.  The name diffFileName gives has no slash from the component
    path: it has a slash exactly when the environment has one, so for an
    environment without a slash the file lies in the output directory
    itself. *)
Theorem diffFileName_slash (componentPath env : string) :
  has_byte "/" (diffFileName componentPath env) = has_byte "/" env.
Proof.
  unfold diffFileName. rewrite !has_byte_append, replaced_no_slash.
  cbn. apply orb_false_r.
Qed.

Lemma append_cancel_r (a b s : string) :
  (a ++ s = b ++ s)%string -> a = b.
Proof.
  revert b. induction a as [|c a IH]; intros [|d b] H; cbn in H.
  - reflexivity.
  - apply (f_equal String.length) in H. cbn in H. rewrite length_append in H.
    lia.
  - apply (f_equal String.length) in H. cbn in H. rewrite length_append in H.
    lia.
  - injection H as -> H. rewrite (IH b H). reflexivity.
Qed.

Lemma underscore_free_tail (e : string) :
  has_byte "_" e = false -> has_byte "_" (e ++ ".diff") = false.
Proof. intros H. rewrite has_byte_append, H. reflexivity. Qed.

Lemma underscore_in_name (q rest : string) :
  has_byte "_" (strings_ReplaceAll q "/" "__" ++ String "_" rest) = true.
Proof.
  rewrite has_byte_append. cbn. apply orb_true_r.
Qed.

Lemma names_differ (p1 p2 e1 e2 : string) :
  has_byte "_" p1 = false -> has_byte "_" p2 = false ->
  has_byte "_" e1 = false -> has_byte "_" e2 = false ->
  (strings_ReplaceAll p1 "/" "__" ++ "__" ++ e1 ++ ".diff"
   = strings_ReplaceAll p2 "/" "__" ++ "__" ++ e2 ++ ".diff")%string ->
  p1 = p2 /\ e1 = e2.
Proof.
  intros Hp1 Hp2 He1 He2. revert p2 Hp2.
  induction p1 as [|c p1 IH]; intros [|d p2] Hp2 H; cbn [strings_ReplaceAll] in H.
  - cbn in H. injection H as H. split; [reflexivity|].
    exact (append_cancel_r _ _ _ H).
  - exfalso. cbn [has_byte] in Hp2. apply orb_false_iff in Hp2.
    destruct Hp2 as [Hd Hp2]. destruct (Ascii.eqb d "/").
    + cbn in H. injection H as H.
      apply (f_equal (has_byte "_")) in H.
      rewrite (underscore_free_tail e1 He1), underscore_in_name in H.
      discriminate.
    + cbn in H. injection H as H _. subst d. discriminate.
  - exfalso. cbn [has_byte] in Hp1. apply orb_false_iff in Hp1.
    destruct Hp1 as [Hc Hp1]. destruct (Ascii.eqb c "/").
    + cbn in H. injection H as H.
      apply (f_equal (has_byte "_")) in H.
      rewrite (underscore_free_tail e2 He2), underscore_in_name in H.
      discriminate.
    + cbn in H. injection H as H _. subst c. discriminate.
  - cbn [has_byte] in Hp1, Hp2.
    apply orb_false_iff in Hp1. destruct Hp1 as [Hc Hp1].
    apply orb_false_iff in Hp2. destruct Hp2 as [Hd Hp2].
    destruct (Ascii.eqb c "/") eqn:Hcs, (Ascii.eqb d "/") eqn:Hds.
    + apply Ascii.eqb_eq in Hcs, Hds. subst c d.
      cbn in H. injection H as H.
      destruct (IH Hp1 p2 Hp2 H) as [-> ->]. auto.
    + exfalso. cbn in H. injection H as H _. subst d. discriminate.
    + exfalso. cbn in H. injection H as H _. subst c. discriminate.
    + cbn in H. injection H as -> H.
      destruct (IH Hp1 p2 Hp2 H) as [-> ->]. auto.
Qed.

(** X19.  Two components get two files: when no component path and no
    environment has an underscore, diffFileName gives different names for
    different (path, environment) pairs.  With underscores names can
    collide: the paths a/b and a__b share one. *)
Theorem diffFileName_injective (p1 e1 p2 e2 : string) :
  has_byte "_" p1 = false -> has_byte "_" p2 = false ->
  has_byte "_" e1 = false -> has_byte "_" e2 = false ->
  (diffFileName p1 e1 = diffFileName p2 e2 -> p1 = p2 /\ e1 = e2) /\
  diffFileName "a/b" "x" = diffFileName "a__b" "x".
Proof.
  intros Hp1 Hp2 He1 He2. split; [|reflexivity].
  unfold diffFileName. apply names_differ; assumption.
Qed.

Lemma diffFileName_injective_witness :
  has_byte "_" "components/foo" = false /\
  has_byte "_" "staging" = false /\
  diffFileName "components/foo" "staging" = "components__foo__staging.diff" /\
  (diffFileName "components/foo" "staging"
   = diffFileName "components/foo" "staging" ->
   "components/foo" = "components/foo" /\ "staging" = "staging").
Proof.
  assert (H1 : has_byte "_" "components/foo" = false) by reflexivity.
  assert (H2 : has_byte "_" "staging" = false) by reflexivity.
  split; [exact H1|]. split; [exact H2|]. split; [reflexivity|].
  exact (proj1 (diffFileName_injective "components/foo" "staging"
                  "components/foo" "staging" H1 H1 H2 H2)).
Defined.

(* ================================================================== *)
(** ** sortDiffs *)
(* ================================================================== *)

Lemma ascii_compare_refl (c : ascii) : Ascii.compare c c = Eq.
Proof. unfold Ascii.compare. apply N.compare_refl. Qed.

Lemma ascii_lt_trans (a b c : ascii) :
  Ascii.compare a b = Lt -> Ascii.compare b c = Lt -> Ascii.compare a c = Lt.
Proof.
  unfold Ascii.compare. rewrite !N.compare_lt_iff. apply N.lt_trans.
Qed.

Lemma string_compare_refl (s : string) : String.compare s s = Eq.
Proof.
  induction s as [|c s IH]; cbn; [reflexivity|].
  rewrite ascii_compare_refl. exact IH.
Qed.

Lemma string_lt_trans (a b c : string) :
  String.compare a b = Lt -> String.compare b c = Lt ->
  String.compare a c = Lt.
Proof.
  revert b c. induction a as [|x a IH]; intros [|y b] [|z c]; cbn;
    try discriminate; try reflexivity.
  destruct (Ascii.compare x y) eqn:Hxy; try discriminate;
    destruct (Ascii.compare y z) eqn:Hyz; try discriminate; intros H1 H2.
  - apply Ascii.compare_eq_iff in Hxy, Hyz. subst y z.
    rewrite ascii_compare_refl. exact (IH b c H1 H2).
  - apply Ascii.compare_eq_iff in Hxy. subst y. rewrite Hyz. reflexivity.
  - apply Ascii.compare_eq_iff in Hyz. subst z. rewrite Hxy. reflexivity.
  - rewrite (ascii_lt_trans x y z Hxy Hyz). reflexivity.
Qed.

Lemma ltb_lt (a b : string) : String.ltb a b = true <-> String.compare a b = Lt.
Proof. unfold String.ltb. destruct (String.compare a b); split; congruence. Qed.

Lemma ltb_irrefl (a : string) : String.ltb a a = false.
Proof. unfold String.ltb. rewrite string_compare_refl. reflexivity. Qed.

Lemma ltb_asym (a b : string) : String.ltb a b = true -> String.ltb b a = false.
Proof.
  unfold String.ltb. rewrite (String.compare_antisym b a).
  destruct (String.compare a b); cbn; congruence.
Qed.

Lemma ltb_total (a b : string) :
  String.ltb a b = false -> String.ltb b a = false -> a = b.
Proof.
  unfold String.ltb. rewrite (String.compare_antisym b a).
  destruct (String.compare a b) eqn:H; cbn; try discriminate.
  intros _ _. exact (String.compare_eq_iff _ _ H).
Qed.

Lemma less_cases (a b : ComponentDiff) :
  sortDiffs_less a b = true <->
  String.ltb (Env a) (Env b) = true \/
  (Env a = Env b /\ String.ltb (Path a) (Path b) = true).
Proof.
  unfold sortDiffs_less. destruct (String.eqb_spec (Env a) (Env b)) as [He|He];
    cbn [negb]; split.
  - intros H. right. auto.
  - intros [H|[_ H]]; [|exact H]. rewrite He, ltb_irrefl in H. discriminate.
  - intros H. left. exact H.
  - intros [H|[H _]]; [exact H | contradiction].
Qed.

Lemma less_irrefl (a : ComponentDiff) : sortDiffs_less a a = false.
Proof.
  unfold sortDiffs_less. rewrite String.eqb_refl. cbn. apply ltb_irrefl.
Qed.

Lemma less_asym (a b : ComponentDiff) :
  sortDiffs_less a b = true -> sortDiffs_less b a = false.
Proof.
  intros H. apply less_cases in H.
  destruct (sortDiffs_less b a) eqn:Hba; [|reflexivity].
  apply less_cases in Hba. exfalso.
  destruct H as [H|[He H]], Hba as [H'|[He' H']].
  - rewrite (ltb_asym _ _ H) in H'. discriminate.
  - rewrite He', ltb_irrefl in H. discriminate.
  - rewrite He, ltb_irrefl in H'. discriminate.
  - rewrite (ltb_asym _ _ H) in H'. discriminate.
Qed.

Lemma less_trans (a b c : ComponentDiff) :
  sortDiffs_less a b = true -> sortDiffs_less b c = true ->
  sortDiffs_less a c = true.
Proof.
  intros Hab Hbc. apply less_cases in Hab, Hbc. apply less_cases.
  destruct Hab as [H|[He H]], Hbc as [H'|[He' H']].
  - left. apply ltb_lt. apply ltb_lt in H, H'.
    exact (string_lt_trans _ _ _ H H').
  - left. rewrite <- He'. exact H.
  - left. rewrite He. exact H'.
  - right. split; [congruence|]. apply ltb_lt. apply ltb_lt in H, H'.
    exact (string_lt_trans _ _ _ H H').
Qed.

Lemma less_incomparable (a b : ComponentDiff) :
  sortDiffs_less a b = false /\ sortDiffs_less b a = false <-> key a = key b.
Proof.
  unfold key. split.
  - intros [Hab Hba]. unfold sortDiffs_less in *.
    destruct (String.eqb_spec (Env a) (Env b)) as [He|He]; cbn [negb] in *.
    + rewrite He, String.eqb_refl in Hba. cbn [negb] in Hba.
      rewrite (ltb_total _ _ Hab Hba), He. reflexivity.
    + assert (Hne : String.eqb (Env b) (Env a) = false)
        by (apply String.eqb_neq; congruence).
      rewrite Hne in Hba. cbn [negb] in Hba.
      exfalso. apply He. exact (ltb_total _ _ Hab Hba).
  - intros [= Hp He]. unfold sortDiffs_less.
    rewrite He, Hp, String.eqb_refl. cbn [negb].
    rewrite ltb_irrefl. auto.
Qed.

(** X20.  The order sortDiffs sorts by is one sort.Slice can work with, a
    strict weak order: no diff is less than itself, less is asymmetric and
    transitive, and two diffs neither of which is less than the other are
    those with the same environment and path.  It goes by environment
    first: a diff of a smaller environment is less, whatever the paths. *)
Theorem sortDiffs_less_order :
  (forall a, sortDiffs_less a a = false) /\
  (forall a b, sortDiffs_less a b = true -> sortDiffs_less b a = false) /\
  (forall a b c, sortDiffs_less a b = true -> sortDiffs_less b c = true ->
                 sortDiffs_less a c = true) /\
  (forall a b, sortDiffs_less a b = false /\ sortDiffs_less b a = false <->
               key a = key b) /\
  (forall a b, String.ltb (Env a) (Env b) = true -> sortDiffs_less a b = true).
Proof.
  split; [exact less_irrefl|]. split; [exact less_asym|].
  split; [exact less_trans|]. split; [exact less_incomparable|].
  intros a b H. apply less_cases. left. exact H.
Qed.

Lemma sortDiffs_less_order_witness :
  sortDiffs_less Double.docs_component MoreScenario.prod_component = false /\
  sortDiffs_less MoreScenario.prod_component Double.docs_component = true /\
  String.ltb (Path Double.docs_component)
             (Path MoreScenario.prod_component) = true.
Proof.
  destruct sortDiffs_less_order as (_ & Hasym & _ & _ & Henv).
  assert (H : sortDiffs_less MoreScenario.prod_component
                             Double.docs_component = true)
    by (apply Henv; reflexivity).
  split; [exact (Hasym _ _ H)|]. split; [exact H | reflexivity].
Defined.

Lemma sorted_nil : sorted_by_less [].
Proof. intros [|z l1] l2 l3 x y H; discriminate. Qed.

Lemma sorted_cons_iff (x : ComponentDiff) (l : list ComponentDiff) :
  sorted_by_less (x :: l) <->
  (forall y, In y l -> sortDiffs_less y x = false) /\ sorted_by_less l.
Proof.
  split.
  - intros H. split.
    + intros y Hy. apply in_split in Hy. destruct Hy as (l2 & l3 & ->).
      apply (H [] l2 l3 x y). reflexivity.
    + intros l1 l2 l3 a b ->. apply (H (x :: l1) l2 l3 a b). reflexivity.
  - intros [Hh Ht] l1 l2 l3 a b Heq.
    destruct l1 as [|z l1]; cbn in Heq; injection Heq as -> Heq.
    + apply Hh. rewrite Heq. apply in_or_app. right. left. reflexivity.
    + apply (Ht l1 l2 l3 a b Heq).
Qed.

(** A list of diffs with distinct (path, environment) keys has one sorted
    arrangement only. *)
Lemma sorted_unique (l1 l2 : list ComponentDiff) :
  NoDup (map key l1) -> Permutation l1 l2 ->
  sorted_by_less l1 -> sorted_by_less l2 -> l1 = l2.
Proof.
  revert l2. induction l1 as [|x l1 IH]; intros l2 Hnd Hp S1 S2.
  - apply Permutation_nil in Hp. symmetry. exact Hp.
  - destruct l2 as [|y l2].
    { apply Permutation_sym, Permutation_nil in Hp. discriminate. }
    apply sorted_cons_iff in S1. destruct S1 as [H1 S1].
    apply sorted_cons_iff in S2. destruct S2 as [H2 S2].
    cbn [map] in Hnd. apply NoDup_cons_iff in Hnd. destruct Hnd as [Hnotin Hnd].
    assert (Hxy : x = y).
    { destruct (Permutation_in x Hp (or_introl eq_refl)) as [Hx|Hx];
        [symmetry; exact Hx|].
      destruct (Permutation_in y (Permutation_sym Hp) (or_introl eq_refl))
        as [Hy|Hy]; [exact Hy|].
      exfalso. apply Hnotin.
      rewrite (proj1 (less_incomparable x y) (conj (H2 x Hx) (H1 y Hy))).
      apply in_map. exact Hy. }
    subst y. f_equal. apply IH; try assumption.
    exact (Permutation_cons_inv Hp).
Qed.

Lemma expected_keys_distinct {P : Platform} (e : Engine) (jobs : list job) :
  NoDup (map job_key jobs) -> NoDup (map key (expected_diffs e jobs)).
Proof.
  induction jobs as [|j jobs IH]; cbn [map]; intros Hnd.
  - constructor.
  - apply NoDup_cons_iff in Hnd. destruct Hnd as [Hnotin Hnd].
    unfold expected_diffs. cbn [flat_map]. fold (expected_diffs e jobs).
    unfold emitted at 1. destruct (job_outcome e j) eqn:Ho; cbn [app map];
      try (apply IH; exact Hnd).
    constructor; [|apply IH; exact Hnd].
    intros Hin. apply in_map_iff in Hin. destruct Hin as (cd' & Hk & Hin).
    apply expected_diffs_in in Hin. destruct Hin as (j' & Hj' & Ho').
    apply Hnotin.
    destruct (differs_shape e j _ Ho) as (Hkj & _).
    destruct (differs_shape e j' _ Ho') as (Hkj' & _).
    rewrite <- Hkj, <- Hk, Hkj'. apply in_map. exact Hj'.
Qed.

(** X21.  What is printed does not depend on the interleaving: when the
    affected components have distinct (path, environment) pairs, any two
    runs that return a result, batch or progressive and under any
    schedules, give the same list once sortDiffs has sorted it.  Of
    sort.Slice only its contract is used: the sorted list is a
    rearrangement of the diffs in which no later entry is less than an
    earlier one. *)
Theorem sorted_output_schedule_independent (P : Platform) (v1 v2 : variant)
    (e : Engine) (affected : affected_map) (sched1 sched2 : list move)
    (b1 b2 : behaviour) (dr1 dr2 : DiffResult)
    (out1 out2 : list ComponentDiff) :
  NoDup (map job_key (collect_jobs affected)) ->
  run_of v1 e affected sched1 = Some b1 ->
  run_of v2 e affected sched2 = Some b2 ->
  fst (returned b1) = Some dr1 -> fst (returned b2) = Some dr2 ->
  Permutation out1 (Diffs dr1) -> sorted_by_less out1 ->
  Permutation out2 (Diffs dr2) -> sorted_by_less out2 ->
  out1 = out2.
Proof.
  intros Hnd Hr1 Hr2 Hd1 Hd2 Hp1 Hs1 Hp2 Hs2.
  destruct (returned_result v1 e _ _ _ _ Hr1 Hd1) as [_ He1].
  destruct (returned_result v2 e _ _ _ _ Hr2 Hd2) as [_ He2].
  pose proof (expected_keys_distinct e _ Hnd) as Hk.
  assert (Hp : Permutation out1 out2).
  { rewrite Hp1, He1, Hp2, He2. reflexivity. }
  apply sorted_unique; try assumption.
  apply (Permutation_NoDup (l := map key (expected_diffs e (collect_jobs affected))));
    [|exact Hk].
  apply Permutation_map. rewrite Hp1, He1. reflexivity.
Qed.

Lemma sorted_output_schedule_independent_witness :
  NoDup (map job_key (collect_jobs Scenario.pair)) /\
  map key (Diffs (MoreScenario.result_of Scenario.pair_run))
  = [("components/gone", "staging"); ("components/foo", "staging")] /\
  map key (Diffs (MoreScenario.result_of MoreScenario.pair_batch_run))
  = [("components/foo", "staging"); ("components/gone", "staging")] /\
  (forall out1,
      Permutation out1 (Diffs (MoreScenario.result_of Scenario.pair_run)) ->
      sorted_by_less out1 ->
      out1 = Diffs (MoreScenario.result_of MoreScenario.pair_batch_run)).
Proof.
  assert (Hnd : NoDup (map job_key (collect_jobs Scenario.pair))).
  { cbn. repeat constructor; cbn; intuition discriminate. }
  assert (H1 : @run_of Double.platform Progressive (Double.engine 2)
                 Scenario.pair Scenario.pair_sched = Some Scenario.pair_run)
    by (vm_compute; reflexivity).
  assert (H2 : @run_of Double.platform Batch (Double.engine 2) Scenario.pair
                 (@fifo Double.platform Batch (Double.engine 2) Scenario.pair)
               = Some MoreScenario.pair_batch_run)
    by (vm_compute; reflexivity).
  split; [exact Hnd|]. split; [reflexivity|]. split; [reflexivity|].
  intros out1 Hp Hs.
  apply (sorted_output_schedule_independent Double.platform Progressive Batch
           (Double.engine 2) Scenario.pair _ _ _ _
           (MoreScenario.result_of Scenario.pair_run)
           (MoreScenario.result_of MoreScenario.pair_batch_run)
           out1 _ Hnd H1 H2); try reflexivity; try assumption.
  apply sorted_cons_iff. split.
  - intros y [<-|[]]. reflexivity.
  - apply sorted_cons_iff. split; [intros y []|apply sorted_nil].
Defined.

(* ================================================================== *)
(** ** parseOutputModes *)
(* ================================================================== *)

Lemma filter_filter_comm {X : Type} (p q : X -> bool) (l : list X) :
  filter p (filter q l) = filter q (filter p l).
Proof.
  induction l as [|x l IH]; cbn; [reflexivity|].
  destruct (p x) eqn:Hp, (q x) eqn:Hq; cbn; rewrite ?Hp, ?Hq, IH; reflexivity.
Qed.

Lemma filter_absorb (p : string -> bool) (x : string) (l : list string) :
  p x = false ->
  filter p (filter (fun y => negb (String.eqb y x)) l) = filter p l.
Proof.
  intros Hx. induction l as [|y l IH]; cbn; [reflexivity|].
  destruct (String.eqb_spec y x) as [->|Hne]; cbn.
  - rewrite Hx. exact IH.
  - rewrite IH. reflexivity.
Qed.

Lemma dedup_filter (p : string -> bool) (l : list string) :
  filter p (dedup l) = dedup (filter p l).
Proof.
  induction l as [|x l IH]; cbn; [reflexivity|].
  destruct (p x) eqn:Hp; cbn.
  - rewrite filter_filter_comm, IH. reflexivity.
  - rewrite filter_absorb by exact Hp. exact IH.
Qed.

Lemma dedup_in (l : list string) (m : string) : In m (dedup l) <-> In m l.
Proof.
  induction l as [|x l IH]; cbn; [tauto|].
  rewrite filter_In, IH. destruct (String.eqb_spec m x) as [->|Hne]; cbn.
  - split; auto.
  - split; [intros [H|[H _]]; auto | intros [H|H]; auto].
Qed.

Lemma dedup_NoDup (l : list string) : NoDup (dedup l).
Proof.
  induction l as [|x l IH]; cbn; constructor.
  - rewrite filter_In. intros [_ H]. rewrite String.eqb_refl in H.
    discriminate.
  - apply NoDup_filter. exact IH.
Qed.

Lemma filter_seen (t : string) (seen : list OutputMode) (l : list string) :
  filter (fun m => negb (seen_has (t :: seen) m)) l
  = filter (fun y => negb (String.eqb y t))
           (filter (fun m => negb (seen_has seen m)) l).
Proof.
  induction l as [|y l IH]; [reflexivity|]. cbn [filter]. rewrite IH.
  assert (H : seen_has (t :: seen) y = String.eqb y t || seen_has seen y)
    by reflexivity.
  rewrite H.
  destruct (String.eqb y t) eqn:E, (seen_has seen y);
    cbn [negb orb filter]; rewrite ?E; cbn [negb]; reflexivity.
Qed.

Lemma filter_unseen (l : list string) :
  filter (fun m => negb (seen_has [] m)) l = l.
Proof.
  induction l as [|y l IH]; cbn; [reflexivity|]. f_equal. exact IH.
Qed.

Section ParseModesFacts.
Variable strings_TrimSpace : string -> string.

Let named (pieces : list string) : list string :=
  filter (fun s => negb (String.eqb s EmptyString))
         (map strings_TrimSpace pieces).

Lemma parse_pieces_valid (pieces : list string) :
  forall seen modes,
    forallb known_mode (named pieces) = true ->
    parse_pieces strings_TrimSpace pieces seen modes
    = modes ++ dedup (filter (fun s => negb (seen_has seen s)) (named pieces)).
Proof.
  induction pieces as [|s pieces IH]; intros seen modes Hall.
  - cbn. rewrite app_nil_r. reflexivity.
  - cbn [parse_pieces]. unfold named in *. cbn [map filter] in *.
    destruct (String.eqb (strings_TrimSpace s) EmptyString) eqn:Hs;
      cbn [negb] in *.
    + apply IH. exact Hall.
    + cbn [forallb] in Hall. apply andb_prop in Hall.
      destruct Hall as [Hk Hall]. rewrite Hk. cbn [filter].
      destruct (seen_has seen (strings_TrimSpace s)) eqn:Hseen;
        cbn [negb dedup].
      * apply IH. exact Hall.
      * rewrite IH by exact Hall. rewrite <- app_assoc. cbn [app].
        f_equal. f_equal. rewrite dedup_filter. f_equal.
        apply filter_seen.
Qed.

Lemma parse_pieces_invalid (pieces : list string) :
  forall seen modes,
    forallb known_mode (named pieces) = false ->
    parse_pieces strings_TrimSpace pieces seen modes = [].
Proof.
  induction pieces as [|s pieces IH]; intros seen modes Hall.
  - discriminate.
  - cbn [parse_pieces]. unfold named in *. cbn [map filter] in *.
    destruct (String.eqb (strings_TrimSpace s) EmptyString) eqn:Hs;
      cbn [negb] in *.
    + apply IH. exact Hall.
    + cbn [forallb] in Hall.
      destruct (known_mode (strings_TrimSpace s)); [|reflexivity].
      cbn [andb] in Hall.
      destruct (negb (seen_has seen (strings_TrimSpace s))); apply IH;
        exact Hall.
Qed.
End ParseModesFacts.

Lemma parse_valid_eq (TrimSpace : string -> string) (raw : string) :
  forallb known_mode (named_modes TrimSpace raw) = true ->
  parseOutputModes TrimSpace raw = dedup (named_modes TrimSpace raw).
Proof.
  intros Hall. unfold parseOutputModes.
  rewrite (parse_pieces_valid TrimSpace _ [] [] Hall). cbn [app].
  rewrite filter_unseen. reflexivity.
Qed.

(** X22.  parseOutputModes on a string whose values (the pieces between
    commas, trimmed, the empty ones dropped) are all valid returns the
    deduplicated list its comment promises: the values in their order,
    each at its first place only; so no mode twice, and exactly the modes
    named. *)
Theorem parseOutputModes_valid (TrimSpace : string -> string) (raw : string) :
  forallb known_mode (named_modes TrimSpace raw) = true ->
  parseOutputModes TrimSpace raw = dedup (named_modes TrimSpace raw) /\
  NoDup (parseOutputModes TrimSpace raw) /\
  (forall m, In m (parseOutputModes TrimSpace raw)
             <-> In m (named_modes TrimSpace raw)).
Proof.
  intros Hall.
  pose proof (parse_valid_eq TrimSpace raw Hall) as Heq.
  split; [exact Heq|]. rewrite Heq. split; [apply dedup_NoDup|].
  intros m. apply dedup_in.
Qed.

Lemma parseOutputModes_valid_witness :
  named_modes MoreScenario.trim_space "ci-summary, local,,ci-summary "
  = ["ci-summary"; "local"; "ci-summary"] /\
  parseOutputModes MoreScenario.trim_space "ci-summary, local,,ci-summary "
  = ["ci-summary"; "local"].
Proof.
  split; [reflexivity|].
  rewrite (proj1 (parseOutputModes_valid MoreScenario.trim_space
                    "ci-summary, local,,ci-summary " eq_refl)).
  reflexivity.
Defined.

(** X23.  parseOutputModes returns nil in two cases only, which its caller
    cannot tell apart: a value is invalid, wherever it stands and whatever
    valid values come before it, or the string names no value at all. *)
Theorem parseOutputModes_nil (TrimSpace : string -> string) (raw : string) :
  parseOutputModes TrimSpace raw = [] <->
  named_modes TrimSpace raw = [] \/
  exists m, In m (named_modes TrimSpace raw) /\ known_mode m = false.
Proof.
  destruct (forallb known_mode (named_modes TrimSpace raw)) eqn:Hall.
  - rewrite (parse_valid_eq TrimSpace raw Hall). split.
    + intros H. left. destruct (named_modes TrimSpace raw); [reflexivity|].
      discriminate.
    + intros [->|(m & Hin & Hk)]; [reflexivity|].
      rewrite forallb_forall in Hall. rewrite (Hall m Hin) in Hk.
      discriminate.
  - split.
    + intros _. right.
      destruct (forallb_forall known_mode (named_modes TrimSpace raw))
        as [_ Hb].
      destruct (existsb (fun m => negb (known_mode m))
                        (named_modes TrimSpace raw)) eqn:Hex.
      * apply existsb_exists in Hex. destruct Hex as (m & Hin & Hk).
        exists m. split; [exact Hin|]. destruct (known_mode m);
          [discriminate | reflexivity].
      * rewrite Hb in Hall; [discriminate|]. intros m Hin.
        destruct (known_mode m) eqn:Hk; [reflexivity|].
        assert (Ht : existsb (fun m => negb (known_mode m))
                             (named_modes TrimSpace raw) = true).
        { apply existsb_exists. exists m. rewrite Hk. auto. }
        rewrite Ht in Hex. discriminate.
    + intros _. unfold parseOutputModes.
      apply parse_pieces_invalid. exact Hall.
Qed.

Lemma parseOutputModes_nil_witness :
  parseOutputModes MoreScenario.trim_space "local,json" = [] /\
  parseOutputModes MoreScenario.trim_space " , " = [] /\
  In "json" (named_modes MoreScenario.trim_space "local,json").
Proof.
  split; [|split].
  - apply (proj2 (parseOutputModes_nil MoreScenario.trim_space "local,json")).
    right. exists "json". split; [right; left|]; reflexivity.
  - apply (proj2 (parseOutputModes_nil MoreScenario.trim_space " , ")).
    left. reflexivity.
  - right. left. reflexivity.
Defined.

(* ================================================================== *)
(** ** multiHandler *)
(* ================================================================== *)

Lemma enabled_positions_spec {C : Type} (ctx : C) (level : Z) (handlers : list (Handler C)) :
  forall off i,
    In i (enabled_positions handlers off ctx level) <->
    (off <= i)%nat /\
    exists h, nth_error handlers (i - off) = Some h /\
              h_Enabled h ctx level = true.
Proof.
  induction handlers as [|h handlers IH]; intros off i;
    cbn [enabled_positions].
  - split; [intros [] | intros (_ & h & Hn & _)].
    destruct (i - off)%nat; discriminate.
  - assert (Htail : In i (enabled_positions handlers (S off) ctx level) <->
                    (S off <= i)%nat /\
                    exists h', nth_error (h :: handlers) (i - off) = Some h' /\
                               h_Enabled h' ctx level = true).
    { rewrite IH. split; intros (Hle & h' & Hn & He); (split; [lia|]);
        exists h'; (split; [|exact He]).
      - replace (i - off)%nat with (S (i - S off)) by lia. exact Hn.
      - replace (i - off)%nat with (S (i - S off)) in Hn by lia. exact Hn. }
    destruct (h_Enabled h ctx level) eqn:Hh; cbn [In]; rewrite Htail.
    + split.
      * intros [<-|(Hle & Hex)]; [|split; [lia | exact Hex]].
        split; [lia|]. exists h. rewrite Nat.sub_diag. auto.
      * intros (Hle & h' & Hn & He).
        destruct (Nat.eq_dec off i) as [->|Hne]; [left; reflexivity|].
        right. split; [lia|]. exists h'. auto.
    + split.
      * intros (Hle & Hex). split; [lia | exact Hex].
      * intros (Hle & h' & Hn & He). split; [|exists h'; auto].
        destruct (Nat.eq_dec off i) as [->|Hne]; [|lia].
        rewrite Nat.sub_diag in Hn. cbn in Hn. injection Hn as <-.
        congruence.
Qed.

Lemma answer_here {C : Type} (ctx : C) (h : Handler C) (handlers : list (Handler C))
      (off : nat) (r : LogEntry) :
  answer (h :: handlers) off off ctx r = h_Handle h ctx r.
Proof. unfold answer. rewrite Nat.sub_diag. reflexivity. Qed.

Lemma answer_later {C : Type} (ctx : C) (h : Handler C) (handlers : list (Handler C))
      (off i : nat) (r : LogEntry) :
  (S off <= i)%nat -> answer (h :: handlers) off i ctx r = answer handlers (S off) i ctx r.
Proof.
  intros Hle. unfold answer.
  replace (i - off)%nat with (S (i - S off)) by lia. reflexivity.
Qed.

Lemma multi_Handle_spec {C : Type} (ctx : C) (r : LogEntry) (handlers : list (Handler C)) :
  forall off served err,
    multi_Handle handlers off ctx r = (served, err) ->
    exists rest,
      enabled_positions handlers off ctx (entry_level r) = served ++ rest /\
      match err with
      | None => rest = [] /\ forall i, In i served -> answer handlers off i ctx r = None
      | Some e =>
          exists init i,
            served = init ++ [i] /\ answer handlers off i ctx r = Some e /\
            forall j, In j init -> answer handlers off j ctx r = None
      end.
Proof.
  induction handlers as [|h handlers IH]; intros off served err H;
    cbn [multi_Handle enabled_positions] in *.
  - injection H as <- <-. exists []. split; [reflexivity|].
    split; [reflexivity | intros i []].
  - assert (Hge : forall served' rest' i,
               enabled_positions handlers (S off) ctx (entry_level r)
               = served' ++ rest' -> In i served' -> (S off <= i)%nat).
    { intros served' rest' i Heq Hin.
      apply (enabled_positions_spec ctx (entry_level r) handlers (S off) i).
      rewrite Heq. apply in_or_app. left. exact Hin. }
    destruct (h_Enabled h ctx (entry_level r)).
    + destruct (h_Handle h ctx r) as [e|] eqn:Hh.
      * injection H as <- <-.
        exists (enabled_positions handlers (S off) ctx (entry_level r)).
        split; [reflexivity|]. exists [], off.
        split; [reflexivity|]. rewrite answer_here.
        split; [exact Hh | intros j []].
      * destruct (multi_Handle handlers (S off) ctx r) as [served' err'] eqn:Hm.
        injection H as <- <-.
        destruct (IH _ _ _ Hm) as (rest & Heq & Herr).
        exists rest. rewrite Heq. split; [reflexivity|].
        destruct err' as [e|].
        -- destruct Herr as (init & i & -> & Hi & Hinit).
           exists (off :: init), i. split; [reflexivity|].
           rewrite answer_later
             by (apply (Hge _ _ i Heq), in_or_app; right; left; reflexivity).
           split; [exact Hi|]. intros j [<-|Hj].
           ++ rewrite answer_here. exact Hh.
           ++ rewrite answer_later
                by (apply (Hge _ _ j Heq), in_or_app; left; exact Hj).
              apply Hinit. exact Hj.
        -- destruct Herr as [-> Hall]. split; [reflexivity|].
           intros i [<-|Hi].
           ++ rewrite answer_here. exact Hh.
           ++ rewrite answer_later by exact (Hge _ _ i Heq Hi).
              apply Hall. exact Hi.
    + destruct (IH _ _ _ H) as (rest & Heq & Herr).
      exists rest. split; [exact Heq|].
      destruct err as [e|].
      * destruct Herr as (init & i & -> & Hi & Hinit).
        exists init, i. split; [reflexivity|].
        rewrite answer_later
          by (apply (Hge _ _ i Heq), in_or_app; right; left; reflexivity).
        split; [exact Hi|]. intros j Hj.
        rewrite answer_later
          by (apply (Hge _ _ j Heq), in_or_app; left; exact Hj).
        apply Hinit. exact Hj.
      * destruct Herr as [-> Hall]. split; [reflexivity|].
        intros i Hi. rewrite answer_later by exact (Hge _ _ i Heq Hi).
        apply Hall. exact Hi.
Qed.

(** X24.  multiHandler.Handle gives the record to the handlers it is meant
    for (those that answer true to Enabled for the context of the call and
    the level of the record), in the order of the list, and stops at the
    first whose Handle fails: the handlers served are a first part of the
    enabled ones.  When nil is returned all enabled handlers were served
    and all answered nil; when an error is returned it is that of the last
    handler served, those before it answered nil, and the enabled handlers
    after it never see the record. *)
Theorem multi_Handle_fans_out {C : Type} (ctx : C)
    (handlers : list (Handler C)) (r : LogEntry)
    (served : list nat) (err : option error) :
  multi_Handle handlers 0 ctx r = (served, err) ->
  (forall i, In i (enabled_positions handlers 0 ctx (entry_level r)) <->
             exists h, nth_error handlers i = Some h /\
                       h_Enabled h ctx (entry_level r) = true) /\
  exists rest,
    enabled_positions handlers 0 ctx (entry_level r) = served ++ rest /\
    match err with
    | None =>
        rest = [] /\
        forall i h, In i served -> nth_error handlers i = Some h ->
                    h_Handle h ctx r = None
    | Some e =>
        exists init i h,
          served = init ++ [i] /\ nth_error handlers i = Some h /\
          h_Handle h ctx r = Some e /\
          forall j h', In j init -> nth_error handlers j = Some h' ->
                       h_Handle h' ctx r = None
    end.
Proof.
  intros H. split.
  - intros i. rewrite enabled_positions_spec, Nat.sub_0_r.
    split; [intros [_ Hex]; exact Hex | intros Hex; split; [lia | exact Hex]].
  - destruct (multi_Handle_spec ctx r handlers 0 served err H)
      as (rest & Heq & Herr).
    exists rest. split; [exact Heq|].
    assert (Hans : forall i h, nth_error handlers i = Some h ->
                               answer handlers 0 i ctx r = h_Handle h ctx r).
    { intros i h Hn. unfold answer. rewrite Nat.sub_0_r, Hn. reflexivity. }
    destruct err as [e|].
    + destruct Herr as (init & i & Hs & Hi & Hinit).
      unfold answer in Hi. rewrite Nat.sub_0_r in Hi.
      destruct (nth_error handlers i) as [h|] eqn:Hn; [|discriminate].
      exists init, i, h. split; [exact Hs|]. split; [exact Hn|].
      split; [exact Hi|]. intros j h' Hj Hn'.
      rewrite <- (Hans j h' Hn'). apply Hinit. exact Hj.
    + destruct Herr as [Hr Hall]. split; [exact Hr|].
      intros i h Hi Hn. rewrite <- (Hans i h Hn). apply Hall. exact Hi.
Qed.

Lemma multi_Handle_fans_out_witness :
  multi_Handle MoreScenario.two_handlers 0 false (mkLogEntry 0 "boom")
  = ([0%nat], Some (New "write: broken pipe")) /\
  enabled_positions MoreScenario.two_handlers 0 false 0 = [0%nat; 1%nat] /\
  exists rest,
    enabled_positions MoreScenario.two_handlers 0 false 0 = [0%nat] ++ rest.
Proof.
  assert (H : multi_Handle MoreScenario.two_handlers 0 false
                           (mkLogEntry 0 "boom")
              = ([0%nat], Some (New "write: broken pipe"))) by reflexivity.
  split; [exact H|]. split; [reflexivity|].
  destruct (multi_Handle_fans_out _ _ _ _ _ H) as (_ & rest & Heq & _).
  exists rest. exact Heq.
Defined.

Lemma nothing_served {C : Type} (ctx : C) (r : LogEntry)
      (handlers : list (Handler C)) :
  forall off,
    fst (multi_Handle handlers off ctx r) = [] <->
    existsb (fun h => h_Enabled h ctx (entry_level r)) handlers = false.
Proof.
  induction handlers as [|h handlers IH]; intros off;
    cbn [multi_Handle existsb].
  - cbn. tauto.
  - destruct (h_Enabled h ctx (entry_level r)); cbn [orb].
    + destruct (h_Handle h ctx r); [cbn; split; discriminate|].
      destruct (multi_Handle handlers (S off) ctx r). cbn. split; discriminate.
    + apply IH.
Qed.

Lemma existsb_agree {X : Type} (f g : X -> bool) (l : list X) :
  (forall x, In x l -> f x = g x) -> existsb f l = existsb g l.
Proof.
  induction l as [|x l IH]; intros H; cbn; [reflexivity|].
  rewrite (H x (or_introl eq_refl)), IH; [reflexivity|].
  intros y Hy. apply H. right. exact Hy.
Qed.

(** X25.  Enabled of the multiHandler asks its handlers with the
    background context, Handle with the context of the call.  For a call
    whose context the handlers answer as they answer the background
    context (as handlers that do not read the context do), the two agree:
    Handle serves no handler exactly when Enabled answers false for the
    level of the record, and then it returns nil; when Enabled answers
    true the first enabled handler is served. *)
Theorem multi_Enabled_agrees {C : Type} (background ctx : C)
    (handlers : list (Handler C)) (r : LogEntry) :
  (forall h, In h handlers ->
             h_Enabled h ctx (entry_level r)
             = h_Enabled h background (entry_level r)) ->
  (fst (multi_Handle handlers 0 ctx r) = [] <->
   multi_Enabled background handlers (entry_level r) = false) /\
  (multi_Enabled background handlers (entry_level r) = false ->
   multi_Handle handlers 0 ctx r = ([], None)) /\
  (multi_Enabled background handlers (entry_level r) = true ->
   exists i tl tl',
     fst (multi_Handle handlers 0 ctx r) = i :: tl /\
     enabled_positions handlers 0 ctx (entry_level r) = i :: tl').
Proof.
  intros Hsame.
  pose proof (nothing_served ctx r handlers 0) as Hiff.
  rewrite (existsb_agree _ (fun h => h_Enabled h background (entry_level r))
                         handlers Hsame) in Hiff.
  fold (multi_Enabled background handlers (entry_level r)) in Hiff.
  destruct (multi_Handle handlers 0 ctx r) as [served err] eqn:Hm.
  destruct (multi_Handle_spec ctx r handlers 0 served err Hm)
    as (rest & Heq & Herr).
  cbn [fst] in *. split; [exact Hiff|]. split.
  - intros Hen. apply Hiff in Hen. subst served.
    destruct err as [e|]; [|reflexivity].
    destruct Herr as (init & i & Hs & _). destruct init; discriminate.
  - intros Hen. destruct served as [|i tl].
    + rewrite (proj1 Hiff eq_refl) in Hen. discriminate.
    + exists i, tl, (tl ++ rest). split; [reflexivity | exact Heq].
Qed.

Lemma multi_Enabled_agrees_witness :
  multi_Enabled false MoreScenario.two_handlers (-8) = false /\
  multi_Handle MoreScenario.two_handlers 0 true (mkLogEntry (-8) "trace")
  = ([], None) /\
  multi_Handle MoreScenario.two_handlers 0 true (mkLogEntry (-4) "debug")
  = ([1%nat], None).
Proof.
  assert (H : multi_Enabled false MoreScenario.two_handlers
                (entry_level (mkLogEntry (-8) "trace")) = false)
    by reflexivity.
  assert (Hsame : forall h, In h MoreScenario.two_handlers ->
            h_Enabled h true (entry_level (mkLogEntry (-8) "trace"))
            = h_Enabled h false (entry_level (mkLogEntry (-8) "trace"))).
  { intros h [<-|[<-|[]]]; reflexivity. }
  split; [exact H|]. split; [|reflexivity].
  exact (proj1 (proj2 (multi_Enabled_agrees false true
                         MoreScenario.two_handlers
                         (mkLogEntry (-8) "trace") Hsame)) H).
Defined.

(** Without that condition the two can disagree: a handler that reads the
    context is served by Handle although Enabled, which asks it with the
    background context, answers false. *)
Example multi_Enabled_asks_background :
  multi_Enabled false [MoreScenario.flagged_handler] (-4) = false /\
  multi_Handle [MoreScenario.flagged_handler] 0 true (mkLogEntry (-4) "debug")
  = ([0%nat], None).
Proof. split; reflexivity. Qed.

(* ================================================================== *)
(** ** runCISummary *)
(* ================================================================== *)

Lemma substring_prefix (n : nat) :
  forall s, exists rest,
    s = (substring 0 n s ++ rest)%string /\
    String.length (substring 0 n s) = Nat.min n (String.length s).
Proof.
  induction n as [|n IH]; intros [|c s]; cbn.
  - exists EmptyString. auto.
  - exists (String c s). auto.
  - exists EmptyString. auto.
  - destruct (IH s) as (rest & Heq & Hlen). exists rest.
    rewrite <- Heq, Hlen. auto.
Qed.

(** X26.  runCISummary never prints more than 50 KiB of one diff: the text
    between the fences is a first part of the diff, all of it when the
    diff has at most 51200 bytes and its first 51200 bytes otherwise, and
    the truncation notice is printed exactly when something was cut. *)
Theorem summary_body_bounded (diff : string) :
  Z.of_nat (String.length (fst (summary_body diff))) <= 51200 /\
  exists rest,
    diff = (fst (summary_body diff) ++ rest)%string /\
    (snd (summary_body diff) = true <-> rest <> EmptyString) /\
    (snd (summary_body diff) = true ->
     Z.of_nat (String.length (fst (summary_body diff))) = 51200).
Proof.
  unfold summary_body, truncateThreshold.
  destruct (substring_prefix (Z.to_nat (50 * 1024)) diff)
    as (rest & Heq & Hlen).
  destruct (Z.gtb_spec (Z.of_nat (String.length diff)) (50 * 1024))
    as [Hgt|Hle]; cbn [fst snd].
  - split; [lia|]. exists rest. split; [exact Heq|]. split; [|lia].
    split; [|reflexivity]. intros _ ->.
    apply (f_equal String.length) in Heq.
    rewrite length_append, Hlen in Heq.
    change (String.length EmptyString) with 0%nat in Heq. lia.
  - split; [lia|]. exists EmptyString. split.
    + clear. induction diff as [|c s IH]; cbn; [reflexivity|].
      rewrite <- IH. reflexivity.
    + split; [split; [discriminate | intros H; contradiction] | discriminate].
Qed.

Lemma summary_body_bounded_witness :
  summary_body Double.foo_diff = (Double.foo_diff, false) /\
  Z.of_nat (String.length (fst (summary_body Double.foo_diff))) <= 51200.
Proof.
  split; [reflexivity|].
  exact (proj1 (summary_body_bounded Double.foo_diff)).
Defined.

(* ================================================================== *)
(** ** writeDiffFiles *)
(* ================================================================== *)

Lemma NoDup_map_on {X Y K : Type} (f : X -> Y) (k : X -> K) (l : list X) :
  (forall a b, In a l -> In b l -> f a = f b -> k a = k b) ->
  NoDup (map k l) -> NoDup (map f l).
Proof.
  induction l as [|x l IH]; cbn [map]; intros Hinj Hnd; [constructor|].
  apply NoDup_cons_iff in Hnd. destruct Hnd as [Hnotin Hnd].
  constructor.
  - intros Hin. apply in_map_iff in Hin. destruct Hin as (y & Hfy & Hy).
    apply Hnotin. rewrite <- (Hinj y x (or_intror Hy) (or_introl eq_refl) Hfy).
    apply in_map. exact Hy.
  - apply IH; [|exact Hnd]. intros a b Ha Hb. apply Hinj; right; assumption.
Qed.

(** The name of a diff file is a single path element when the environment
    has no slash. *)
Lemma name_is_element (p env : string) :
  has_byte "/" env = false -> is_element (diffFileName p env) = true.
Proof.
  intros Henv.
  assert (Hslash : has_byte "/" (diffFileName p env) = false).
  { unfold diffFileName. rewrite !has_byte_append, replaced_no_slash, Henv.
    reflexivity. }
  assert (Hunder : has_byte "_" (diffFileName p env) = true).
  { unfold diffFileName.
    exact (underscore_in_name p (String "_" (env ++ ".diff"))). }
  unfold is_element. rewrite Hslash. cbn [negb andb].
  destruct (String.eqb_spec (diffFileName p env) "") as [H|_];
    [rewrite H in Hunder; discriminate|].
  destruct (String.eqb_spec (diffFileName p env) ".") as [H|_];
    [rewrite H in Hunder; discriminate|].
  destruct (String.eqb_spec (diffFileName p env) "..") as [H|_];
    [rewrite H in Hunder; discriminate|].
  reflexivity.
Qed.

Section WriteDiffFilesFacts.
Variable filepath_Join : string -> string -> string.
Variable os_WriteFile : list (string * string) -> string -> string -> option error.
Variable dir : string.

Let file_of (d : ComponentDiff) : string * string :=
  (filepath_Join dir (diffFileName (Path d) (Env d)), Diff d).

(** The calls made are those for a first part of the entries, after the
    calls made before; all of them when nil is returned. *)
Lemma write_each_prefix (diffs : list ComponentDiff) :
  forall made writes err,
    write_each filepath_Join os_WriteFile diffs dir made = (writes, err) ->
    exists now rest,
      writes = made ++ now /\ map file_of diffs = now ++ rest /\
      (err = None -> rest = []).
Proof.
  induction diffs as [|d diffs IH]; intros made writes err H;
    cbn [write_each] in H.
  - injection H as <- <-. exists [], []. rewrite app_nil_r. auto.
  - destruct (os_WriteFile made _ (Diff d)) as [cause|].
    + injection H as <- <-. exists [file_of d], (map file_of diffs).
      split; [reflexivity|]. split; [reflexivity | discriminate].
    + destruct (IH _ _ _ H) as (now & rest & -> & Hmap & Hnil).
      exists (file_of d :: now), rest. rewrite <- app_assoc.
      split; [reflexivity|]. cbn [map app]. rewrite Hmap. auto.
Qed.
End WriteDiffFilesFacts.

(** X27.  writeDiffFiles overwrites no file of its own.  For a result
    returned by a run over components with distinct (path, environment)
    pairs, with no underscore in a path or an environment and no slash in
    an environment, the paths it writes to are pairwise different; the
    calls it makes are those for a first part of the entries of the
    result, in their order, and those for all entries when it returns nil.
    Of filepath.Join only this is used: joined to one directory, two
    different single path elements give two different paths. *)
Theorem diff_files_distinct (P : Platform)
    (filepath_Join : string -> string -> string)
    (os_MkdirAll : string -> option error)
    (os_WriteFile : list (string * string) -> string -> string -> option error)
    (dir : string) (v : variant) (e : Engine)
    (affected : affected_map) (sched : list move) (b : behaviour)
    (dr : DiffResult) (writes : list (string * string))
    (err : option error) :
  (forall n1 n2, is_element n1 = true -> is_element n2 = true ->
                 filepath_Join dir n1 = filepath_Join dir n2 -> n1 = n2) ->
  NoDup (map job_key (collect_jobs affected)) ->
  (forall j, In j (collect_jobs affected) ->
             has_byte "_" (cp_Path (cp j)) = false /\
             has_byte "_" (env j) = false /\
             has_byte "/" (env j) = false) ->
  run_of v e affected sched = Some b ->
  fst (returned b) = Some dr ->
  writeDiffFiles filepath_Join os_MkdirAll os_WriteFile dr dir
  = (writes, err) ->
  NoDup (map fst writes) /\
  exists rest,
    diff_files filepath_Join dr dir = writes ++ rest /\
    (err = None -> rest = []).
Proof.
  intros Hjoin Hnd Hplain Hrun Hdr Hw.
  destruct (returned_result v e _ _ _ _ Hrun Hdr) as [_ Hperm].
  assert (Hsafe : forall cd, In cd (Diffs dr) ->
                    has_byte "_" (Path cd) = false /\
                    has_byte "_" (Env cd) = false /\
                    has_byte "/" (Env cd) = false).
  { intros cd Hin. apply (Permutation_in _ Hperm) in Hin.
    apply expected_diffs_in in Hin. destruct Hin as (j & Hj & Ho).
    destruct (differs_shape e j cd Ho) as (Hk & _).
    unfold key, job_key in Hk. injection Hk as -> ->. apply Hplain. exact Hj. }
  assert (Hall : NoDup (map fst (diff_files filepath_Join dr dir))).
  { unfold diff_files. rewrite map_map. cbn [fst].
    apply (NoDup_map_on _ key).
    - intros x y Hx Hy Hpath.
      destruct (Hsafe x Hx) as (Hxp & Hxe & Hxs).
      destruct (Hsafe y Hy) as (Hyp & Hye & Hys).
      pose proof (Hjoin _ _ (name_is_element (Path x) (Env x) Hxs)
                        (name_is_element (Path y) (Env y) Hys) Hpath)
        as Hname.
      unfold diffFileName in Hname.
      destruct (names_differ _ _ _ _ Hxp Hyp Hxe Hye Hname) as [Hp He].
      unfold key. rewrite Hp, He. reflexivity.
    - apply (Permutation_NoDup
               (l := map key (expected_diffs e (collect_jobs affected)))).
      + apply Permutation_map. symmetry. exact Hperm.
      + apply expected_keys_distinct. exact Hnd. }
  assert (Hpre : exists rest,
             diff_files filepath_Join dr dir = writes ++ rest /\
             (err = None -> rest = [])).
  { unfold writeDiffFiles in Hw. destruct (os_MkdirAll dir) as [cause|].
    - injection Hw as <- <-. exists (diff_files filepath_Join dr dir).
      split; [reflexivity | discriminate].
    - destruct (write_each_prefix filepath_Join os_WriteFile dir _ _ _ _ Hw)
        as (now & rest & -> & Hmap & Hnil).
      exists rest. split; [exact Hmap | exact Hnil]. }
  split; [|exact Hpre].
  destruct Hpre as (rest & Heq & _). rewrite Heq, map_app in Hall.
  exact (NoDup_app_remove_r _ _ Hall).
Qed.

Lemma append_cancel_l (s a b : string) :
  (s ++ a = s ++ b)%string -> a = b.
Proof.
  induction s as [|c s IH]; cbn; intros H; [exact H|].
  injection H as H. exact (IH H).
Qed.

Lemma diff_files_distinct_witness :
  writeDiffFiles MoreScenario.join MoreScenario.mkdir_ok MoreScenario.write_ok
                 (MoreScenario.result_of Scenario.pair_run) "out"
  = ([("out/components__gone__staging.diff", Double.gone_diff);
      ("out/components__foo__staging.diff", Double.foo_diff)], None) /\
  NoDup ["out/components__gone__staging.diff";
         "out/components__foo__staging.diff"].
Proof.
  assert (Hw : writeDiffFiles MoreScenario.join MoreScenario.mkdir_ok
                 MoreScenario.write_ok
                 (MoreScenario.result_of Scenario.pair_run) "out"
               = ([("out/components__gone__staging.diff", Double.gone_diff);
                   ("out/components__foo__staging.diff", Double.foo_diff)],
                  None))
    by reflexivity.
  split; [exact Hw|].
  assert (Hjoin : forall n1 n2, is_element n1 = true -> is_element n2 = true ->
                    MoreScenario.join "out" n1 = MoreScenario.join "out" n2 ->
                    n1 = n2).
  { intros n1 n2 _ _ H. exact (append_cancel_l "out/" n1 n2 H). }
  assert (Hnd : NoDup (map job_key (collect_jobs Scenario.pair))).
  { cbn. repeat constructor; cbn; intuition discriminate. }
  assert (Hplain : forall j, In j (collect_jobs Scenario.pair) ->
                     has_byte "_" (cp_Path (cp j)) = false /\
                     has_byte "_" (env j) = false /\
                     has_byte "/" (env j) = false).
  { intros j [<-|[<-|[]]]; repeat split; reflexivity. }
  assert (H1 : @run_of Double.platform Progressive (Double.engine 2)
                 Scenario.pair Scenario.pair_sched = Some Scenario.pair_run)
    by (vm_compute; reflexivity).
  exact (proj1 (diff_files_distinct Double.platform MoreScenario.join
                  MoreScenario.mkdir_ok MoreScenario.write_ok "out"
                  Progressive (Double.engine 2) Scenario.pair
                  Scenario.pair_sched Scenario.pair_run
                  (MoreScenario.result_of Scenario.pair_run) _ _
                  Hjoin Hnd Hplain H1 eq_refl Hw)).
Defined.
